(** * FuelEU Maritime compliance engine: Compliance Balance, banking, pooling

    A shallow embedding of [backend.js] (the TypeScript backend sample):
    the [Route] entity, [ComputeCBUseCase], [BankSurplusUseCase] and
    [CreatePoolUseCase], followed by the properties of the specification
    that were checked against them.

    Numbers.  Every quantity of the program is a JavaScript [number], that
    is an IEEE-754 binary64 value.  The program is therefore written once
    over an interface [JsNumber] that lists the operators the source uses
    ([+ - * /], [<], [<=], [>], [===], [Math.min], [Math.abs] and numeric
    literals) and [Number.isFinite], which the statements use; the
    interface has two instances:
    - [f64]: Rocq's primitive binary64 floats, the arithmetic the program
      really runs on;
    - [exact]: the rationals [Q], the arithmetic the regulation's formulas
      are written in, without rounding, infinities or NaN.
    Control-flow properties are proved for every instance, hence for the
    doubles.  The fairness of the pool allocator is proved from laws of
    comparison and of one transfer that both instances satisfy, the
    doubles by the IEEE-754 specification of [+] and [-].  Conservation
    is proved on [exact], and on the doubles for values that add without
    rounding; so are the total that pool creation checks and the ledger
    arithmetic of banking.  Where doubles differ, the difference is
    evaluated on [f64].

    Sorting.  [Array.prototype.sort] is fixed by the language only for a
    consistent comparator.  The allocator's comparator is one whenever no
    value is NaN; the sorted arrangement is then unique, and an insertion
    sort computes it.

    Persistence.  The repositories are interfaces in the source; the use
    cases take them as records of operations over an abstract store, and
    an in-memory store gives them a concrete meaning where a property
    needs one. *)

From Stdlib Require Import ZArith QArith Qabs List String Bool Lia Lqa.
From Stdlib Require Import Permutation DecimalString Sorted.
From Stdlib Require Import Floats.
Import ListNotations.

Set Implicit Arguments.

(** ** JavaScript numbers *)

Declare Scope js_scope.
Delimit Scope js_scope with js.

(** [lit n d] is the numeric literal whose decimal value is [n/d]
    (so [lit 9116 100] is the literal [91.16]). *)
Class JsNumber (num : Type) : Type := {
  lit : Z -> positive -> num;
  js_add : num -> num -> num;
  js_sub : num -> num -> num;
  js_mul : num -> num -> num;
  js_div : num -> num -> num;
  js_lt : num -> num -> bool;
  js_le : num -> num -> bool;
  js_eq : num -> num -> bool;
  Math_abs : num -> num;
  Math_min : num -> num -> num;
  Number_isFinite : num -> bool
}.

Notation "x + y" := (js_add x y) : js_scope.
Notation "x - y" := (js_sub x y) : js_scope.
Notation "x * y" := (js_mul x y) : js_scope.
Notation "x / y" := (js_div x y) : js_scope.
Notation "x <? y" := (js_lt x y) (at level 70, no associativity) : js_scope.
Notation "x <=? y" := (js_le x y) (at level 70, no associativity) : js_scope.
Notation "x >? y" := (js_lt y x)
  (at level 70, no associativity, only parsing) : js_scope.
Notation "x === y" := (js_eq x y) (at level 70, no associativity) : js_scope.

(** An integer literal. *)
Definition int {num} `{JsNumber num} (n : Z) : num := lit n 1.

(** Truthiness of a number, as [||] tests it: [0], [-0] and [NaN] are falsy. *)
Definition truthy {num} `{JsNumber num} (x : num) : bool :=
  (negb (x === int 0) && (x === x))%js.

(** *** Doubles *)

Definition f64_of_Z (z : Z) : float :=
  match z with
  | Z0 => PrimFloat.zero
  | Zpos _ => PrimFloat.of_uint63 (Uint63.of_Z z)
  | Zneg p => PrimFloat.opp (PrimFloat.of_uint63 (Uint63.of_Z (Zpos p)))
  end.

(** The double nearest to [n/d]: both are integers below [2^53] wherever
    this is used, so the correctly rounded quotient is the value a
    JavaScript parser gives the decimal literal. *)
Definition f64_lit (n : Z) (d : positive) : float :=
  PrimFloat.div (f64_of_Z n) (f64_of_Z (Zpos d)).

(** [Math.min]: NaN if either argument is NaN, and [-0] is below [+0]. *)
Definition f64_min (a b : float) : float :=
  if PrimFloat.is_nan a || PrimFloat.is_nan b then PrimFloat.nan
  else if PrimFloat.ltb a b then a
  else if PrimFloat.ltb b a then b
  else if PrimFloat.get_sign a then a else b.

#[export] Instance f64 : JsNumber float := {
  lit := f64_lit;
  js_add := PrimFloat.add;
  js_sub := PrimFloat.sub;
  js_mul := PrimFloat.mul;
  js_div := PrimFloat.div;
  js_lt := PrimFloat.ltb;
  js_le := PrimFloat.leb;
  js_eq := PrimFloat.eqb;
  Math_abs := PrimFloat.abs;
  Math_min := f64_min;
  Number_isFinite := PrimFloat.is_finite
}.

(** *** Exact rationals *)

Definition Q_lt (a b : Q) : bool := negb (Qle_bool b a).

Definition Q_min (a b : Q) : Q := if Qle_bool a b then a else b.

#[export] Instance exact : JsNumber Q := {
  lit := Qmake;
  js_add := Qplus;
  js_sub := Qminus;
  js_mul := Qmult;
  js_div := Qdiv;
  js_lt := Q_lt;
  js_le := Qle_bool;
  js_eq := Qeq_bool;
  Math_abs := Qabs;
  Math_min := Q_min;
  Number_isFinite := fun _ => true
}.

(** ** Errors *)

(** The message of an error.  Two messages of the pooling rules are
    template strings that print numbers; they are kept structured. *)
Inductive Message (num : Type) : Type :=
| Text (s : string)
| WouldExitWorse (shipId : string) (after before : num)
| WouldExitNegative (shipId : string) (after : num).

Arguments Text {num} s.

(** [Error] is the built-in class, [ValidationError] its subclass. *)
Inductive Exception (num : Type) : Type :=
| Error (message : Message num)
| ValidationError (message : Message num).

Definition isValidationError {num} (e : Exception num) : bool :=
  match e with ValidationError _ => true | Error _ => false end.

(** The specification's names for the failures. *)
Section ErrorNames.
Context {num : Type}.

Definition RouteNotFound : Exception num :=
  Error (Text "Route not found").
Definition RecordNotFound : Exception num :=
  Error (Text "Compliance balance not found").
Definition NonPositiveCB : Exception num :=
  ValidationError (Text "Cannot bank negative or zero CB").
Definition AmountExceedsAvailable : Exception num :=
  ValidationError (Text "Amount exceeds available CB").
Definition PoolMinimumMembers : Exception num :=
  ValidationError (Text "Pool must have at least 2 members").
Definition PoolNegativeTotal : Exception num :=
  ValidationError (Text "Pool total CB must be non-negative").
Definition MemberExitsWorse (shipId : string) (after before : num) : Exception num :=
  ValidationError (WouldExitWorse shipId after before).
Definition MemberExitsNegative (shipId : string) (after : num) : Exception num :=
  ValidationError (WouldExitNegative shipId after).

End ErrorNames.

(** ** Domain layer: Route *)

Inductive VesselType := CONTAINER | BULK_CARRIER | TANKER | RORO.

Inductive FuelType := HFO | LNG | MGO.

Module RouteProps.
Record t (num : Type) : Type := mk {
  id : string;
  routeId : string;
  vesselType : VesselType;
  fuelType : FuelType;
  year : num;
  ghgIntensity : num;
  fuelConsumption : num;
  distance : num;
  isBaseline : bool
}.
End RouteProps.

Module Route.
Section Route.
Context {num : Type} `{JsNumber num}.
Local Open Scope js_scope.

(** The class's fields, all [readonly]. *)
Record t : Type := mk {
  id : string;
  routeId : string;
  vesselType : VesselType;
  fuelType : FuelType;
  year : num;
  ghgIntensity : num;
  fuelConsumption : num;
  distance : num;
  isBaseline : bool
}.

Definition validate (this : t) : Exception num + unit :=
  if ghgIntensity this <=? int 0 then
    inl (ValidationError (Text "GHG intensity must be positive"))
  else if fuelConsumption this <=? int 0 then
    inl (ValidationError (Text "Fuel consumption must be positive"))
  else if year this <? int 2024 then
    inl (ValidationError (Text "Year must be 2024 or later"))
  else inr tt.

(** The private constructor: assign the fields, then validate. *)
Definition new (id routeId : string) (vesselType : VesselType)
  (fuelType : FuelType) (year ghgIntensity fuelConsumption distance : num)
  (isBaseline : bool) : Exception num + t :=
  let this := mk id routeId vesselType fuelType year ghgIntensity
                 fuelConsumption distance isBaseline in
  match validate this with
  | inl e => inl e
  | inr _ => inr this
  end.

Definition create (props : RouteProps.t num) : Exception num + t :=
  new (RouteProps.id props) (RouteProps.routeId props)
      (RouteProps.vesselType props) (RouteProps.fuelType props)
      (RouteProps.year props) (RouteProps.ghgIntensity props)
      (RouteProps.fuelConsumption props) (RouteProps.distance props)
      (RouteProps.isBaseline props).

(** Energy content: 41,000 MJ per tonne of fuel. *)
Definition calculateEnergyInScope (this : t) : num :=
  fuelConsumption this * int 41000.

Definition emissionFactors (f : FuelType) : num :=
  match f with
  | HFO => lit 3114 1000
  | LNG => lit 2750 1000
  | MGO => lit 3206 1000
  end.

Definition calculateTotalEmissions (this : t) : num :=
  fuelConsumption this * emissionFactors (fuelType this).

End Route.
Arguments t num : clear implicits.
End Route.

(** ** Value objects: ComplianceBalance *)

Module ComplianceBalance.
Section ComplianceBalance.
Context {num : Type} `{JsNumber num}.
Local Open Scope js_scope.

Record t : Type := mk {
  value : num;
  year : num;
  shipId : string
}.

Definition isSurplus (this : t) : bool := value this >? int 0.

Definition isDeficit (this : t) : bool := value this <? int 0.

Definition add (this : t) (amount : num) : t :=
  mk (value this + amount) (year this) (shipId this).

Definition subtract (this : t) (amount : num) : t :=
  mk (value this - amount) (year this) (shipId this).

End ComplianceBalance.
Arguments t num : clear implicits.
End ComplianceBalance.

(** ** Ports *)

(** An [async] method of a use case: it reads and writes the store behind
    the repositories and either returns or throws.  What was written
    before a throw stays written. *)
Definition Async (num S A : Type) : Type := S -> (Exception num + A) * S.

Section Async.
Context {num S : Type}.

Definition ret {A} (a : A) : Async num S A := fun s => (inr a, s).

Definition throw {A} (e : Exception num) : Async num S A := fun s => (inl e, s).

Definition bind {A B} (c : Async num S A) (k : A -> Async num S B) : Async num S B :=
  fun s =>
    match c s with
    | (inl e, s') => (inl e, s')
    | (inr a, s') => k a s'
    end.

(** Awaiting a repository read, and a repository write with its result. *)
Definition read {A} (q : S -> A) : Async num S A := fun s => (inr (q s), s).

Definition write {A} (w : S -> A * S) : Async num S A :=
  fun s => let (a, s') := w s in (inr a, s').

Definition write_ (w : S -> S) : Async num S unit := fun s => (inr tt, w s).

End Async.

Notation "x <- c ;; k" := (bind c (fun x => k))
  (at level 61, c at next level, right associativity).

Module ComplianceRecord.
Record t (num : Type) : Type := mk {
  id : string;
  shipId : string;
  year : num;
  cbGco2eq : num;
  routeId : option string;
  createdAt : Z
}.
End ComplianceRecord.

(** [Omit<ComplianceRecord, 'id' | 'createdAt'>], the argument of [save]. *)
Module NewComplianceRecord.
Record t (num : Type) : Type := mk {
  shipId : string;
  year : num;
  cbGco2eq : num;
  routeId : option string
}.
End NewComplianceRecord.

Module NewBankEntry.
Record t (num : Type) : Type := mk {
  shipId : string;
  year : num;
  amountGco2eq : num
}.
End NewBankEntry.

Module PoolMemberInput.
Record t (num : Type) : Type := mk {
  shipId : string;
  cbBefore : num
}.
End PoolMemberInput.

Module PoolAllocation.
Record t (num : Type) : Type := mk {
  shipId : string;
  cbBefore : num;
  cbAfter : num
}.
End PoolAllocation.

Module NewPool.
Record t (num : Type) : Type := mk {
  year : num;
  members : list (PoolAllocation.t num)
}.
End NewPool.

(** The methods the modelled use cases call. *)
Module IRouteRepository.
Record t (num S : Type) : Type := mk {
  findByRouteId : string -> S -> option (Route.t num)
}.
End IRouteRepository.

Module IComplianceRepository.
Record t (num S : Type) : Type := mk {
  save : NewComplianceRecord.t num -> S -> ComplianceRecord.t num * S;
  findByShipAndYear : string -> num -> S -> option (ComplianceRecord.t num)
}.
End IComplianceRepository.

Module IBankRepository.
Record t (num S : Type) : Type := mk {
  create : NewBankEntry.t num -> S -> S;
  getTotalBanked : string -> num -> S -> num;
  applyBanked : string -> num -> num -> Async num S unit
}.
End IBankRepository.

Module IPoolRepository.
Record t (num S : Type) : Type := mk {
  create : NewPool.t num -> S -> string * S
}.
End IPoolRepository.

(** ** Application layer: ComputeCBUseCase *)

Module ComputeCBCommand.
Record t (num : Type) : Type := mk {
  routeId : string;
  shipId : string;
  year : num
}.
End ComputeCBCommand.

Module ComputeCBUseCase.
Section ComputeCBUseCase.
Context {num S : Type} `{JsNumber num}.
Variable routeRepo : IRouteRepository.t num S.
Variable complianceRepo : IComplianceRepository.t num S.
Local Open Scope js_scope.

Definition reductionRates : list (num * num) :=
  [ (int 2025, int 2);
    (int 2030, int 6);
    (int 2035, lit 145 10);
    (int 2040, int 31);
    (int 2045, int 62);
    (int 2050, int 80) ].

(** [table[key]] on an object with numeric keys: the entry whose key
    prints as [key] does, if any. *)
Definition property (table : list (num * num)) (key : num) : option num :=
  option_map snd (find (fun kv => fst kv === key) table).

(** [v || d] on a possibly undefined number. *)
Definition or_else (v : option num) (d : num) : num :=
  match v with
  | Some x => if truthy x then x else d
  | None => d
  end.

Definition reductionPercent (year : num) : num :=
  or_else (property reductionRates year) (int 2).

Definition getTargetIntensity (year : num) : num :=
  let baseline := lit 9116 100 in
  baseline * (int 1 - reductionPercent year / int 100).

Definition execute (command : ComputeCBCommand.t num)
  : Async num S (ComplianceBalance.t num) :=
  route <- read (IRouteRepository.findByRouteId routeRepo
                   (ComputeCBCommand.routeId command)) ;;
  match route with
  | None => throw (Error (Text "Route not found"))
  | Some route =>
    let targetIntensity := getTargetIntensity (ComputeCBCommand.year command) in
    let energyInScope := Route.calculateEnergyInScope route in
    let cbValue :=
      ((targetIntensity - Route.ghgIntensity route) * energyInScope)
      / int 1000000 in
    _ <- write (IComplianceRepository.save complianceRepo
                  (NewComplianceRecord.mk
                     (ComputeCBCommand.shipId command)
                     (ComputeCBCommand.year command)
                     cbValue
                     (Some (Route.routeId route)))) ;;
    ret (ComplianceBalance.mk cbValue (ComputeCBCommand.year command)
           (ComputeCBCommand.shipId command))
  end.

End ComputeCBUseCase.
End ComputeCBUseCase.

(** ** Application layer: CompareRoutesUseCase *)

Module RouteFilters.
Record t (num : Type) : Type := mk {
  vesselType : option VesselType;
  fuelType : option FuelType;
  year : option num
}.
End RouteFilters.

(** The query methods of [IRouteRepository] that [CompareRoutesUseCase]
    calls: [findAll(filters?)] and [findBaseline()]. *)
Module IRouteQueries.
Record t (num S : Type) : Type := mk {
  findAll : option (RouteFilters.t num) -> S -> list (Route.t num);
  findBaseline : S -> option (Route.t num)
}.
End IRouteQueries.

(** One entry of [ComparisonResult.comparisons]. *)
Module Comparison.
Record t (num : Type) : Type := mk {
  routeId : string;
  ghgIntensity : num;
  percentDiff : num;
  compliant : bool
}.
End Comparison.

(** [ComparisonResult.baseline]. *)
Module ComparisonBaseline.
Record t (num : Type) : Type := mk {
  routeId : string;
  ghgIntensity : num
}.
End ComparisonBaseline.

Module ComparisonResult.
Record t (num : Type) : Type := mk {
  baseline : ComparisonBaseline.t num;
  comparisons : list (Comparison.t num);
  target : num
}.
End ComparisonResult.

Module CompareRoutesUseCase.
Section CompareRoutesUseCase.
Context {num S : Type} `{JsNumber num}.
Variable routeRepo : IRouteQueries.t num S.
Local Open Scope js_scope.

(** [const target = 89.3368], 2% below 91.16. *)
Definition target : num := lit 893368 10000.

(** The callback of [map]: one route against the baseline. *)
Definition compare (baseline route : Route.t num) : Comparison.t num :=
  let percentDiff :=
    ((Route.ghgIntensity route / Route.ghgIntensity baseline) - int 1) * int 100 in
  let compliant := Route.ghgIntensity route <=? target in
  Comparison.mk (Route.routeId route) (Route.ghgIntensity route) percentDiff compliant.

Definition execute : Async num S (ComparisonResult.t num) :=
  baseline <- read (IRouteQueries.findBaseline routeRepo) ;;
  match baseline with
  | None => throw (Error (Text "No baseline route set"))
  | Some baseline =>
    allRoutes <- read (IRouteQueries.findAll routeRepo None) ;;
    let comparisons :=
      map (compare baseline)
        (filter (fun r => negb (String.eqb (Route.routeId r) (Route.routeId baseline)))
           allRoutes) in
    ret (ComparisonResult.mk
           (ComparisonBaseline.mk (Route.routeId baseline) (Route.ghgIntensity baseline))
           comparisons target)
  end.

End CompareRoutesUseCase.
End CompareRoutesUseCase.

(** ** Application layer: BankSurplusUseCase *)

Module BankSurplusCommand.
Record t (num : Type) : Type := mk {
  shipId : string;
  year : num;
  amount : num
}.
End BankSurplusCommand.

Module BankSurplusUseCase.
Section BankSurplusUseCase.
Context {num S : Type} `{JsNumber num}.
Variable complianceRepo : IComplianceRepository.t num S.
Variable bankRepo : IBankRepository.t num S.
Local Open Scope js_scope.

Definition execute (command : BankSurplusCommand.t num) : Async num S unit :=
  cbRecord <- read (IComplianceRepository.findByShipAndYear complianceRepo
                      (BankSurplusCommand.shipId command)
                      (BankSurplusCommand.year command)) ;;
  match cbRecord with
  | None => throw (Error (Text "Compliance balance not found"))
  | Some cbRecord =>
    if ComplianceRecord.cbGco2eq cbRecord <=? int 0 then
      throw (ValidationError (Text "Cannot bank negative or zero CB"))
    else if BankSurplusCommand.amount command >? ComplianceRecord.cbGco2eq cbRecord then
      throw (ValidationError (Text "Amount exceeds available CB"))
    else
      write_ (IBankRepository.create bankRepo
                (NewBankEntry.mk
                   (BankSurplusCommand.shipId command)
                   (BankSurplusCommand.year command)
                   (BankSurplusCommand.amount command)))
  end.

End BankSurplusUseCase.
End BankSurplusUseCase.

(** ** Application layer: CreatePoolUseCase *)

Module CreatePoolCommand.
Record t (num : Type) : Type := mk {
  year : num;
  members : list (PoolMemberInput.t num)
}.
End CreatePoolCommand.

(** [Array.prototype.sort] with a comparator.  The language guarantees a
    stable sort; for a comparator that orders the elements consistently
    the stable arrangement is unique, and insertion computes it: [x] moves
    right past [y] only when [compareFn(x, y) > 0].  For the comparator
    of [greedyAllocate] that is the case whenever no value is NaN (see
    [sortsTo] below); on a list that holds a NaN the language leaves the
    order to the engine, and [Array_sort] gives one of the arrangements
    it allows, not necessarily the engine's. *)
Section ArraySort.
Context {num A : Type} `{JsNumber num}.
Variable compareFn : A -> A -> num.
Local Open Scope js_scope.

Fixpoint insert (x : A) (sorted : list A) : list A :=
  match sorted with
  | [] => [x]
  | y :: rest => if compareFn x y >? int 0 then y :: insert x rest else x :: sorted
  end.

Definition Array_sort (l : list A) : list A := fold_right insert [] l.

(** How the result [v] of the comparator orders [x] and [y]: [x]
    before [y] when [v < 0], after it when [v > 0]; otherwise, and when
    [v] is NaN, the two compare as equal. *)
Definition ordersBefore (x y : A) : bool := compareFn x y <? int 0.

Definition ordersAfter (x y : A) : bool := compareFn x y >? int 0.

Definition comparesEqual (x y : A) : bool :=
  negb (ordersBefore x y) && negb (ordersAfter x y).

(** A consistent comparator for the elements of [l], as the language
    defines it: comparing as equal is reflexive, symmetric and
    transitive, and so are coming before and coming after. *)
Definition consistent (l : list A) : Prop :=
  forall a b c, In a l -> In b l -> In c l ->
    comparesEqual a a = true
    /\ (comparesEqual a b = true -> comparesEqual b a = true)
    /\ (comparesEqual a b = true -> comparesEqual b c = true -> comparesEqual a c = true)
    /\ (ordersBefore a b = true -> ordersBefore b c = true -> ordersBefore a c = true)
    /\ (ordersAfter a b = true -> ordersAfter b c = true -> ordersAfter a c = true).

(** The arrangements that [l.sort(compareFn)] may return: always a
    rearrangement of [l]; and when the comparator is consistent for
    [l], one in sort order (no element stands behind one that it comes
    before) in which the elements that compare as equal keep the order
    they have in [l].  Otherwise the order is implementation-defined. *)
Definition sortsTo (l sorted : list A) : Prop :=
  Permutation sorted l
  /\ (consistent l ->
      StronglySorted (fun x y => ordersBefore y x = false) sorted
      /\ forall x, In x l -> filter (comparesEqual x) sorted = filter (comparesEqual x) l).

End ArraySort.

(** [new Map(entries)], [Map.prototype.set] and [Map.prototype.get] with
    string keys: setting a key that is present replaces its value. *)
Section JsMap.
Context {V : Type}.

Fixpoint Map_set (m : list (string * V)) (k : string) (v : V) : list (string * V) :=
  match m with
  | [] => [(k, v)]
  | (k', v') :: rest =>
    if String.eqb k' k then (k', v) :: rest else (k', v') :: Map_set rest k v
  end.

Definition Map_new (entries : list (string * V)) : list (string * V) :=
  fold_left (fun m kv => Map_set m (fst kv) (snd kv)) entries [].

Definition Map_get (m : list (string * V)) (k : string) : option V :=
  option_map snd (find (fun kv => String.eqb (fst kv) k) m).

End JsMap.

(** [a[i] = f(a[i])] on an array; an index past the end changes nothing
    here (the loops below never produce one). *)
Fixpoint modify {A} (i : nat) (f : A -> A) (a : list A) : list A :=
  match a, i with
  | [], _ => []
  | x :: rest, O => f x :: rest
  | x :: rest, S i' => x :: modify i' f rest
  end.

Module CreatePoolUseCase.
Section CreatePoolUseCase.
Context {num S : Type} `{JsNumber num}.
Variable poolRepo : IPoolRepository.t num S.
Local Open Scope js_scope.

Definition PoolAllocations : Type := list (PoolAllocation.t num).

(** [allocations[i].cbAfter].  The loops keep [i] below the length, so
    the value given past the end is never read. *)
Definition cbAfterAt (allocations : PoolAllocations) (i : nat) : num :=
  match nth_error allocations i with
  | Some a => PoolAllocation.cbAfter a
  | None => int 0
  end.

Definition setCbAfter (f : num -> num) (a : PoolAllocation.t num) : PoolAllocation.t num :=
  PoolAllocation.mk (PoolAllocation.shipId a) (PoolAllocation.cbBefore a)
    (f (PoolAllocation.cbAfter a)).

(** The inner loop, [for (let j = k - 1; j >= 0; j--)], for the surplus
    ship [i]. *)
Fixpoint transferToDeficits (i k : nat) (allocations : PoolAllocations)
  : PoolAllocations :=
  match k with
  | O => allocations
  | Datatypes.S j =>
    if cbAfterAt allocations j <? int 0 then
      let transfer :=
        Math_min (cbAfterAt allocations i) (Math_abs (cbAfterAt allocations j)) in
      let allocations := modify i (setCbAfter (fun v => v - transfer)) allocations in
      let allocations := modify j (setCbAfter (fun v => v + transfer)) allocations in
      if cbAfterAt allocations i === int 0 then allocations
      else transferToDeficits i j allocations
    else transferToDeficits i j allocations
  end.

(** One turn of the outer loop. *)
Definition transferSurplus (allocations : PoolAllocations) (i : nat) : PoolAllocations :=
  if cbAfterAt allocations i >? int 0 then
    transferToDeficits i (List.length allocations) allocations
  else allocations.

Definition greedyAllocate (members : list (PoolMemberInput.t num)) : PoolAllocations :=
  let sorted :=
    Array_sort
      (fun a b => PoolMemberInput.cbBefore b - PoolMemberInput.cbBefore a)
      members in
  let allocations :=
    map (fun m => PoolAllocation.mk (PoolMemberInput.shipId m)
                    (PoolMemberInput.cbBefore m) (PoolMemberInput.cbBefore m))
        sorted in
  fold_left transferSurplus (seq 0 (List.length allocations)) allocations.

Definition checkAllocation (originalMap : list (string * num))
  (alloc : PoolAllocation.t num) : Exception num + unit :=
  match Map_get originalMap (PoolAllocation.shipId alloc) with
  | Some before =>
    let after := PoolAllocation.cbAfter alloc in
    if (before <? int 0) && (after <? before) then
      inl (ValidationError
             (WouldExitWorse (PoolAllocation.shipId alloc) after before))
    else if (before >? int 0) && (after <? int 0) then
      inl (ValidationError
             (WouldExitNegative (PoolAllocation.shipId alloc) after))
    else inr tt
  | None => inr tt
  end.

Fixpoint checkAllocations (originalMap : list (string * num))
  (allocated : PoolAllocations) : Exception num + unit :=
  match allocated with
  | [] => inr tt
  | alloc :: rest =>
    match checkAllocation originalMap alloc with
    | inl e => inl e
    | inr _ => checkAllocations originalMap rest
    end
  end.

Definition validatePoolingRules (original : list (PoolMemberInput.t num))
  (allocated : PoolAllocations) : Exception num + unit :=
  let originalMap :=
    Map_new (map (fun m => (PoolMemberInput.shipId m, PoolMemberInput.cbBefore m))
               original) in
  checkAllocations originalMap allocated.

Definition totalCB (members : list (PoolMemberInput.t num)) : num :=
  fold_left (fun sum m => sum + PoolMemberInput.cbBefore m) members (int 0).

Definition execute (command : CreatePoolCommand.t num)
  : Async num S (string * PoolAllocations) :=
  let members := CreatePoolCommand.members command in
  if (List.length members <? 2)%nat then
    throw (ValidationError (Text "Pool must have at least 2 members"))
  else if totalCB members <? int 0 then
    throw (ValidationError (Text "Pool total CB must be non-negative"))
  else
    let allocations := greedyAllocate members in
    match validatePoolingRules members allocations with
    | inl e => throw e
    | inr _ =>
      poolId <- write (IPoolRepository.create poolRepo
                         (NewPool.mk (CreatePoolCommand.year command) allocations)) ;;
      ret (poolId, allocations)
    end.

(** The member lists that pass the two precondition checks of [execute]. *)
Definition accepted (members : list (PoolMemberInput.t num)) : bool :=
  negb (List.length members <? 2)%nat && negb (totalCB members <? int 0).

End CreatePoolUseCase.
End CreatePoolUseCase.

(** Sums over allocation lists, as [reduce((sum, a) => sum + a.x, 0)]. *)
Section Sums.
Context {num : Type} `{JsNumber num}.
Local Open Scope js_scope.

Definition sumCbBefore (allocations : list (PoolAllocation.t num)) : num :=
  fold_left (fun sum a => sum + PoolAllocation.cbBefore a) allocations (int 0).

Definition sumCbAfter (allocations : list (PoolAllocation.t num)) : num :=
  fold_left (fun sum a => sum + PoolAllocation.cbAfter a) allocations (int 0).

End Sums.

(** ** An in-memory store behind the ports *)

Module BankEntry.
Record t (num : Type) : Type := mk {
  shipId : string;
  year : num;
  amountGco2eq : num;
  appliedAmount : num
}.
End BankEntry.

Module Pool.
Record t (num : Type) : Type := mk {
  id : string;
  year : num;
  members : list (PoolAllocation.t num)
}.
End Pool.

Module Store.
Record t (num : Type) : Type := mk {
  routes : list (Route.t num);
  shipCompliance : list (ComplianceRecord.t num);
  bankEntries : list (BankEntry.t num);
  pools : list (Pool.t num);
  now : Z
}.
End Store.

Module Memory.
Section Memory.
Context {num : Type} `{JsNumber num}.
Local Open Scope js_scope.

Definition freshId (prefix : string) (n : nat) : string :=
  (prefix ++ NilEmpty.string_of_uint (Nat.to_uint n))%string.

Definition sameKey (shipId : string) (year : num) (shipId' : string) (year' : num) : bool :=
  String.eqb shipId' shipId && (year' === year).

(** Modelled from the spec: the route lookup by route code of section 6;
    the source declares [IRouteRepository] and has no implementation. *)
Definition findByRouteId (routeId : string) (s : Store.t num) : option (Route.t num) :=
  find (fun r => String.eqb (Route.routeId r) routeId) (Store.routes s).

(** Modelled from the spec: the compliance record store of sections 3 and
    6, "at most one record per (ship, year)" with upsert semantics; the
    source declares [IComplianceRepository] and has no implementation. *)
Definition save (record : NewComplianceRecord.t num) (s : Store.t num)
  : ComplianceRecord.t num * Store.t num :=
  let others :=
    filter (fun r => negb (sameKey (NewComplianceRecord.shipId record)
                             (NewComplianceRecord.year record)
                             (ComplianceRecord.shipId r) (ComplianceRecord.year r)))
           (Store.shipCompliance s) in
  let saved :=
    ComplianceRecord.mk
      (freshId "CB" (List.length (Store.shipCompliance s)))
      (NewComplianceRecord.shipId record) (NewComplianceRecord.year record)
      (NewComplianceRecord.cbGco2eq record) (NewComplianceRecord.routeId record)
      (Store.now s) in
  (saved,
   Store.mk (Store.routes s) (others ++ [saved]) (Store.bankEntries s)
     (Store.pools s) (Store.now s)).

Definition findByShipAndYear (shipId : string) (year : num) (s : Store.t num)
  : option (ComplianceRecord.t num) :=
  find (fun r => sameKey shipId year (ComplianceRecord.shipId r) (ComplianceRecord.year r))
       (Store.shipCompliance s).

(** Modelled from the spec: the bank entry store of sections 3, 4.3 and 6.
    [create] records "a new BankEntry with the requested amount and zero
    applied"; [getTotalBanked] is the "cumulative unapplied banked total
    for (ship, year)"; [applyBanked] "increases the applied portion by
    amount", here on the oldest entry of the key.  The source declares
    [IBankRepository] and has no implementation. *)
Definition create (entry : NewBankEntry.t num) (s : Store.t num) : Store.t num :=
  Store.mk (Store.routes s) (Store.shipCompliance s)
    (Store.bankEntries s
       ++ [BankEntry.mk (NewBankEntry.shipId entry) (NewBankEntry.year entry)
             (NewBankEntry.amountGco2eq entry) (int 0)])
    (Store.pools s) (Store.now s).

Definition entriesOf (shipId : string) (year : num) (entries : list (BankEntry.t num))
  : list (BankEntry.t num) :=
  filter (fun e => sameKey shipId year (BankEntry.shipId e) (BankEntry.year e)) entries.

Definition unapplied (e : BankEntry.t num) : num :=
  BankEntry.amountGco2eq e - BankEntry.appliedAmount e.

Definition totalOf (entries : list (BankEntry.t num)) : num :=
  fold_left (fun sum e => sum + unapplied e) entries (int 0).

Definition getTotalBanked (shipId : string) (year : num) (s : Store.t num) : num :=
  totalOf (entriesOf shipId year (Store.bankEntries s)).

Definition appliedOf (entries : list (BankEntry.t num)) : num :=
  fold_left (fun sum e => sum + BankEntry.appliedAmount e) entries (int 0).

(** The amounts applied for a key. *)
Definition totalApplied (shipId : string) (year : num) (s : Store.t num) : num :=
  appliedOf (entriesOf shipId year (Store.bankEntries s)).

Fixpoint applyToOldest (shipId : string) (year amount : num)
  (entries : list (BankEntry.t num)) : list (BankEntry.t num) :=
  match entries with
  | [] => []
  | e :: rest =>
    if sameKey shipId year (BankEntry.shipId e) (BankEntry.year e) then
      BankEntry.mk (BankEntry.shipId e) (BankEntry.year e) (BankEntry.amountGco2eq e)
        (BankEntry.appliedAmount e + amount) :: rest
    else e :: applyToOldest shipId year amount rest
  end.

Definition increaseApplied (shipId : string) (year amount : num) (s : Store.t num)
  : Store.t num :=
  Store.mk (Store.routes s) (Store.shipCompliance s)
    (applyToOldest shipId year amount (Store.bankEntries s))
    (Store.pools s) (Store.now s).

(** Modelled from the spec: the pool store of section 6, create(year,
    member allocations) -> pool id; the source declares [IPoolRepository]
    and has no implementation. *)
Definition createPool (pool : NewPool.t num) (s : Store.t num) : string * Store.t num :=
  let poolId := freshId "P" (List.length (Store.pools s)) in
  (poolId,
   Store.mk (Store.routes s) (Store.shipCompliance s) (Store.bankEntries s)
     (Store.pools s ++ [Pool.mk poolId (NewPool.year pool) (NewPool.members pool)])
     (Store.now s)).

Definition routeRepo : IRouteRepository.t num (Store.t num) :=
  IRouteRepository.mk findByRouteId.

Definition complianceRepo : IComplianceRepository.t num (Store.t num) :=
  IComplianceRepository.mk save findByShipAndYear.

Definition bankRepo : IBankRepository.t num (Store.t num) :=
  IBankRepository.mk create getTotalBanked
    (fun shipId year amount => write_ (increaseApplied shipId year amount)).

Definition poolRepo : IPoolRepository.t num (Store.t num) :=
  IPoolRepository.mk createPool.

End Memory.
End Memory.

(** ** Banking ledger: applying banked surplus *)

Module ApplyBankedCommand.
Record t (num : Type) : Type := mk {
  shipId : string;
  year : num;
  amount : num
}.
End ApplyBankedCommand.

Module ApplyBankedUseCase.
Section ApplyBankedUseCase.
Context {num S : Type} `{JsNumber num}.
Variable bankRepo : IBankRepository.t num S.
Local Open Scope js_scope.

Definition NoBankedSurplus : Exception num :=
  ValidationError (Text "No banked surplus").

Definition AmountExceedsBanked : Exception num :=
  ValidationError (Text "Amount exceeds banked surplus").

(** Modelled from the spec: the rule of section 4.3 for
    [applyBanked(ship, year, amount)], check-then-act over the two
    methods the source declares in [IBankRepository]; the source has no
    use case for it. *)
Definition execute (command : ApplyBankedCommand.t num) : Async num S unit :=
  total <- read (IBankRepository.getTotalBanked bankRepo
                   (ApplyBankedCommand.shipId command)
                   (ApplyBankedCommand.year command)) ;;
  if total <=? int 0 then throw NoBankedSurplus
  else if ApplyBankedCommand.amount command >? total then throw AmountExceedsBanked
  else IBankRepository.applyBanked bankRepo
         (ApplyBankedCommand.shipId command)
         (ApplyBankedCommand.year command)
         (ApplyBankedCommand.amount command).

End ApplyBankedUseCase.
End ApplyBankedUseCase.

(** ** Laws of the comparisons

    What the proofs below need of [<], [<=] and [===]; doubles satisfy
    them, NaN and the signed zeros included. *)
Class JsOrder (num : Type) `{JsNumber num} : Prop := {
  lt_not_ge : forall a b : num, (a <? b)%js = true -> (b <=? a)%js = false;
  eq_not_lt : forall a b : num, (a === b)%js = true -> (a <? b)%js = false;
  lt_le : forall a b : num, (a <? b)%js = true -> (a <=? b)%js = true;
  neg_lt_pos : forall a b : num,
    (a <? int 0)%js = true -> (int 0 <? b)%js = true -> (a <? b)%js = true;
  tie_not_gt : forall a b v : num,
    (a === v)%js = true -> (b === v)%js = true -> (b - a >? int 0)%js = false
}.

Arguments JsOrder num {_}.

(** What the allocator's proofs need of the arithmetic on finite numbers:
    the comparisons order them, and a transfer [min(a, |b|)] from a
    surplus [a > 0] to a deficit [b < 0] leaves the surplus between [0]
    and [a] and the deficit between [b] and [0], one of the two at zero.
    Doubles satisfy this because rounding to nearest is monotone, and
    [x - x] and [b + |b|] are zero. *)
Class JsFinite (num : Type) `{JsNumber num} : Prop := {
  finite_zero : Number_isFinite (int 0 : num) = true;
  le_refl : forall a : num, Number_isFinite a = true -> (a <=? a)%js = true;
  le_trans : forall a b c : num,
    Number_isFinite a = true -> Number_isFinite b = true -> Number_isFinite c = true ->
    (a <=? b)%js = true -> (b <=? c)%js = true -> (a <=? c)%js = true;
  zero_total : forall a : num,
    Number_isFinite a = true -> ((int 0 <=? a) || (a <=? int 0))%js = true;
  le_neq_lt : forall a b : num,
    Number_isFinite a = true -> Number_isFinite b = true ->
    (a <=? b)%js = true -> (b === a)%js = false -> (a <? b)%js = true;
  eq_le : forall a b : num, (a === b)%js = true -> (a <=? b)%js = true;
  transfer_bounds : forall a b : num,
    Number_isFinite a = true -> Number_isFinite b = true ->
    (int 0 <? a)%js = true -> (b <? int 0)%js = true ->
    let t := Math_min a (Math_abs b) in
    Number_isFinite (a - t)%js = true
    /\ (int 0 <=? a - t)%js = true /\ (a - t <=? a)%js = true
    /\ Number_isFinite (b + t)%js = true
    /\ (b <=? b + t)%js = true /\ (b + t <=? int 0)%js = true;
  transfer_covers : forall a b : num,
    Number_isFinite a = true -> Number_isFinite b = true ->
    (int 0 <? a)%js = true -> (b <? int 0)%js = true ->
    let t := Math_min a (Math_abs b) in
    (a - t === int 0)%js = true \/ (int 0 <=? b + t)%js = true
}.

Arguments JsFinite num {_}.

(** What the sign of a balance needs of [-], [*] and [/]: a difference
    has the sign of the comparison of its operands, products and
    quotients follow the rule of signs, and neither produces a number
    of the wrong sign by rounding (a result may be a zero or NaN).  The
    constants are those the formulas multiply and divide by. *)
Class JsSign (num : Type) `{JsNumber num} : Prop := {
  sub_not_neg : forall a b : num, (b <=? a)%js = true -> (a - b <? int 0)%js = false;
  sub_not_pos : forall a b : num, (a <=? b)%js = true -> (int 0 <? a - b)%js = false;
  mul_not_neg : forall a b : num,
    (a <? int 0)%js = false -> (b <? int 0)%js = false -> (a * b <? int 0)%js = false;
  mul_not_pos : forall a b : num,
    (int 0 <? a)%js = false -> (b <? int 0)%js = false -> (int 0 <? a * b)%js = false;
  div_not_neg : forall a b : num,
    (a <? int 0)%js = false -> (int 0 <? b)%js = true -> (a / b <? int 0)%js = false;
  div_not_pos : forall a b : num,
    (int 0 <? a)%js = false -> (int 0 <? b)%js = true -> (int 0 <? a / b)%js = false;
  mul_pos_nonneg : forall a b : num,
    (int 0 <? a)%js = true -> (int 0 <? b)%js = true -> (int 0 <=? a * b)%js = true;
  constants_positive :
    Forall (fun c : num => (int 0 <? c)%js = true)
      [int 41000; int 1000000; lit 3114 1000; lit 2750 1000; lit 3206 1000]
}.

Arguments JsSign num {_}.

(** ** Definitions used by the statements *)

Section StatementDefinitions.
Context {num : Type} `{JsNumber num}.
Local Open Scope js_scope.

(** The route whose fields are those of [props]. *)
Definition routeOf (props : RouteProps.t num) : Route.t num :=
  Route.mk (RouteProps.id props) (RouteProps.routeId props)
    (RouteProps.vesselType props) (RouteProps.fuelType props)
    (RouteProps.year props) (RouteProps.ghgIntensity props)
    (RouteProps.fuelConsumption props) (RouteProps.distance props)
    (RouteProps.isBaseline props).

(** The working copy of [greedyAllocate]. *)
Definition sortedCopy (members : list (PoolMemberInput.t num)) : list (PoolMemberInput.t num) :=
  Array_sort (fun a b => PoolMemberInput.cbBefore b - PoolMemberInput.cbBefore a) members.

(** The comparator of [greedyAllocate], [(a, b) => b.cbBefore - a.cbBefore]. *)
Definition byCbBefore (a b : PoolMemberInput.t num) : num :=
  PoolMemberInput.cbBefore b - PoolMemberInput.cbBefore a.

(** What [greedyAllocate] makes of its sorted working copy: the
    allocations with [cbAfter = cbBefore], then the two loops. *)
Definition allocateFrom (sorted : list (PoolMemberInput.t num))
  : list (PoolAllocation.t num) :=
  let allocations :=
    map (fun m => PoolAllocation.mk (PoolMemberInput.shipId m)
                    (PoolMemberInput.cbBefore m) (PoolMemberInput.cbBefore m))
        sorted in
  fold_left CreatePoolUseCase.transferSurplus (seq 0 (List.length allocations)) allocations.

(** The members whose [cbBefore] is [v], in list order. *)
Definition tiedAt (v : num) (members : list (PoolMemberInput.t num))
  : list (PoolMemberInput.t num) :=
  filter (fun m => PoolMemberInput.cbBefore m === v) members.

(** What a transfer never touches: the ship and its [cbBefore]. *)
Definition identity (a : PoolAllocation.t num) : string * num :=
  (PoolAllocation.shipId a, PoolAllocation.cbBefore a).

(** An allocation whose values are finite and whose [cbAfter] lies
    between zero and its [cbBefore]. *)
Definition settled (a : PoolAllocation.t num) : Prop :=
  Number_isFinite (PoolAllocation.cbBefore a) = true
  /\ Number_isFinite (PoolAllocation.cbAfter a) = true
  /\ (((int 0 <=? PoolAllocation.cbAfter a) = true
       /\ (PoolAllocation.cbAfter a <=? PoolAllocation.cbBefore a) = true)
      \/ ((PoolAllocation.cbBefore a <=? PoolAllocation.cbAfter a) = true
          /\ (PoolAllocation.cbAfter a <=? int 0) = true)).

(** The entries of the map that [validatePoolingRules] builds. *)
Definition entriesOf (members : list (PoolMemberInput.t num)) : list (string * num) :=
  map (fun m => (PoolMemberInput.shipId m, PoolMemberInput.cbBefore m)) members.

(** [x >= y] on numbers. *)
Definition js_ge (x y : num) : bool := y <=? x.

(** The fairness rules on one allocation. *)
Definition fair (a : PoolAllocation.t num) : bool :=
  implb (PoolAllocation.cbBefore a <? int 0)
        (js_ge (PoolAllocation.cbAfter a) (PoolAllocation.cbBefore a))
  && implb (PoolAllocation.cbBefore a >? int 0)
           (js_ge (PoolAllocation.cbAfter a) (int 0)).

(** A run of [CreatePoolUseCase.execute] that returns an allocation
    list and conserves the total: the sum of [cbAfter] over the list is
    [===] the sum of [cbBefore] over it, and the sum of [cbBefore] over
    the command's members. *)
Definition conserved {S} (poolRepo : IPoolRepository.t num S)
  (command : CreatePoolCommand.t num) (s : S) : Prop :=
  exists poolId allocations,
    fst (CreatePoolUseCase.execute poolRepo command s) = inr (poolId, allocations)
    /\ (sumCbAfter allocations === sumCbBefore allocations) = true
    /\ (sumCbAfter allocations
        === CreatePoolUseCase.totalCB (CreatePoolCommand.members command)) = true.

(** A store holding one compliance record, for ship S001 and year 2025. *)
Definition storeWithCB (cb : num) : Store.t num :=
  Store.mk []
    [ComplianceRecord.mk "CB0" "S001" (int 2025) cb (Some "R002"%string) 0%Z]
    [] [] 0%Z.

(** A store holding one route, R002 of the sample data. *)
Definition storeWithRoute (ghgIntensity fuelConsumption : num) : Store.t num :=
  Store.mk
    [Route.mk "2" "R002" BULK_CARRIER LNG (int 2024) ghgIntensity fuelConsumption
       (int 11500) true]
    [] [] [] 0%Z.

(** A store holding bank entries only. *)
Definition storeWithBank (entries : list (BankEntry.t num)) : Store.t num :=
  Store.mk [] [] entries [] 0%Z.

Definition emptyStore : Store.t num := Store.mk [] [] [] [] 0%Z.

Definition bank (amount : num) : BankSurplusCommand.t num :=
  BankSurplusCommand.mk "S001" (int 2025) amount.

Definition member (shipId : string) (cbBefore : num) : PoolMemberInput.t num :=
  PoolMemberInput.mk shipId cbBefore.

(** A run of [bankSurplus] for ship S001 and year 2025 on the store. *)
Definition runBank (amount : num) (s : Store.t num)
  : (Exception num + unit) * Store.t num :=
  BankSurplusUseCase.execute Memory.complianceRepo Memory.bankRepo (bank amount) s.

(** A run of [applyBanked] on the store. *)
Definition runApply (command : ApplyBankedCommand.t num) (s : Store.t num)
  : (Exception num + unit) * Store.t num :=
  ApplyBankedUseCase.execute Memory.bankRepo command s.

(** The year is a key of [reductionRates]. *)
Definition listed (year : num) : bool :=
  existsb (fun kv => fst kv === year) ComputeCBUseCase.reductionRates.

(** The sample request: route R002 for ship S001 and year 2025. *)
Definition computeR002 : ComputeCBCommand.t num :=
  ComputeCBCommand.mk "R002" "S001" (int 2025).

(** The value [computeCB] returns for it on a store, if it returns. *)
Definition computedCB (s : Store.t num) : option num :=
  match fst (ComputeCBUseCase.execute Memory.routeRepo Memory.complianceRepo
               computeR002 s) with
  | inr balance => Some (ComplianceBalance.value balance)
  | inl _ => None
  end.

(** [|x - y| < eps] *)
Definition near (x y eps : num) : bool := Math_abs (x - y) <? eps.

End StatementDefinitions.

(** Sample pools on doubles.  In [-0.2, -0.1, 0.8] the ship with 0.8
    covers both deficits, and a transfer rounds; the second has two
    entries for ship A and values that round when added; the third holds
    the two infinities. *)
Definition roundingPool : list (PoolMemberInput.t float) :=
  [member "A" (lit (-2) 10); member "B" (lit (-1) 10); member "C" (lit 8 10)].

Definition repeatedShipPool : list (PoolMemberInput.t float) :=
  [member "B" (int 3); member "C" (int 10000000000000000);
   member "A" (int (-10000000000000004)); member "A" (lit 1 1000000)].

Definition infinitePool : list (PoolMemberInput.t float) :=
  [member "A" PrimFloat.infinity; member "B" PrimFloat.neg_infinity].

(** Route R002 of the sample data on doubles: LNG, intensity 88,
    consumption 4800. *)
Definition routeR002 : Route.t float :=
  Route.mk "2" "R002" BULK_CARRIER LNG (int 2024) (int 88) (int 4800) (int 11500) true.

(** Route R001 of the sample data on doubles: HFO, intensity 91,
    consumption 5000. *)
Definition routeR001 : Route.t float :=
  Route.mk "1" "R001" CONTAINER HFO (int 2024) (int 91) (int 5000) (int 12000) false.

(** The pool of the specification's example, on doubles. *)
Definition samplePoolF : list (PoolMemberInput.t float) :=
  [member "S001" (lit 12505 10); member "S002" (int (-800))].

(** The pool of the specification's example, in exact arithmetic. *)
Definition samplePool : list (PoolMemberInput.t Q) :=
  [member "S001" (lit 12505 10); member "S002" (int (-800))].

(** A pool on doubles that holds a NaN, and an arrangement of it: the
    one that sorting by binary insertion, as the V8 engine sorts short
    arrays, gives for it.  Ship G stands before ship F there. *)
Definition nanPool : list (PoolMemberInput.t float) :=
  [member "A" (int 1); member "B" (int 3); member "C" (int 4); member "D" (int 5);
   member "E" PrimFloat.nan; member "F" (int 2); member "G" (int 2)].

Definition nanPoolSorted : list (PoolMemberInput.t float) :=
  [member "D" (int 5); member "C" (int 4); member "B" (int 3); member "G" (int 2);
   member "A" (int 1); member "E" PrimFloat.nan; member "F" (int 2)].

(** A ledger on doubles after banking 0.1 and then 0.2 for ship S001
    and year 2025: two entries with nothing applied. *)
Definition roundingLedger : Store.t float :=
  storeWithBank [BankEntry.mk "S001" (int 2025) (lit 1 10) (int 0);
                 BankEntry.mk "S001" (int 2025) (lit 2 10) (int 0)].

(** Two pools on doubles whose total rounds across zero when added from
    the left.  The values of [-1.5, -1.2, 1.2, 1.5] cancel, and adding
    them in this order gives about [-2.2e-16]; the doubles nearest 0.1
    and 2.9 add up to less than 3, and [-3 + 0.1 + 2.9] gives [0]. *)
Definition cancellingPool : list (PoolMemberInput.t float) :=
  [member "A" (lit (-15) 10); member "B" (lit (-12) 10);
   member "C" (lit 12 10); member "D" (lit 15 10)].

Definition shortPool : list (PoolMemberInput.t float) :=
  [member "A" (int (-3)); member "B" (lit 1 10); member "C" (lit 29 10)].

(** The reduction table of the specification: year, percentage. *)
Definition expectedReductions : list (Z * (Z * positive)) :=
  [ (2025, (2, 1%positive)); (2030, (6, 1%positive)); (2035, (145, 10%positive));
    (2040, (31, 1%positive)); (2045, (62, 1%positive)); (2050, (80, 1%positive)) ]%Z.

(** The target table of the specification: year, target in 1/10000. *)
Definition expectedTargets : list (Z * Z) :=
  [ (2025, 893368); (2030, 856904); (2035, 779418);
    (2040, 629004); (2045, 346408); (2050, 182320) ]%Z.

(** [10^-12], the tolerance for values computed in doubles. *)
Definition tiny {num} `{JsNumber num} : num := lit 1 1000000000000.

(** ** Definitions used by the proofs, in exact arithmetic *)

(** One transfer, as the body of the inner loop makes it. *)
Definition afterTransfer (i j : nat) (l : list (PoolAllocation.t Q))
  : list (PoolAllocation.t Q) :=
  let transfer :=
    Q_min (CreatePoolUseCase.cbAfterAt l i) (Qabs (CreatePoolUseCase.cbAfterAt l j)) in
  modify j (CreatePoolUseCase.setCbAfter (fun v => v + transfer)%Q)
    (modify i (CreatePoolUseCase.setCbAfter (fun v => v - transfer)%Q) l).

(** A value between zero and the ship's [cbBefore]. *)
Definition between (a : PoolAllocation.t Q) : Prop :=
  (0 <= PoolAllocation.cbAfter a <= PoolAllocation.cbBefore a)%Q
  \/ (PoolAllocation.cbBefore a <= PoolAllocation.cbAfter a <= 0)%Q.

(** The sum of the rationals that [f] reads from a list. *)
Definition Qsum {A : Type} (f : A -> Q) (l : list A) : Q :=
  fold_right (fun a s => (f a + s)%Q) 0%Q l.

(** ** Definitions used by the proofs, on doubles

    A finite double is [+-m * 2^e] with [e >= -1074]; its value is
    measured in units of [2^-1074], where it is an integer. *)

(** The number of bits of a mantissa. *)
Definition Zdigits (p : positive) : Z := Zpos (digits2_pos p).

(** Bits were lost in a right shift. *)
Definition inexact (mrs : shr_record) : bool := shr_r mrs || shr_s mrs.

Definition scaled (m : positive) (e : Z) : Z := (Zpos m * 2 ^ (e + 1074))%Z.

Definition SFfinite (x : spec_float) : bool :=
  match x with
  | S754_zero _ | S754_finite _ _ _ => true
  | _ => false
  end.

Definition SFval (x : spec_float) : Z :=
  match x with
  | S754_finite s m e => cond_Zopp s (scaled m e)
  | _ => 0%Z
  end.

Definition Fval (f : float) : Z := SFval (Prim2SF f).

(** A number beyond every double, in units of [2^-1074]. *)
Definition beyond : Z := (2 ^ 2100)%Z.

(** The place of a double in the order, NaN apart: its value, the
    infinities standing beyond every number. *)
Definition SFext (x : spec_float) : Z :=
  match x with
  | S754_infinity s => cond_Zopp s beyond
  | _ => SFval x
  end.

Definition Fext (f : float) : Z := SFext (Prim2SF f).

(** The sum of the integers that [f] reads from a list. *)
Definition Zsum {A : Type} (f : A -> Z) (l : list A) : Z :=
  fold_right (fun a s => (f a + s)%Z) 0%Z l.

(** [x] is a finite double and an integer multiple of [2^k]. *)
Definition multipleOf (k : Z) (x : float) : Prop :=
  PrimFloat.is_finite x = true /\ (Fval x mod 2 ^ (k + 1074) = 0)%Z.

(** Members whose values add and subtract without rounding: every
    [cbBefore] is a multiple of [2^k], and the magnitudes sum to less
    than [2^(53+k)].  With [k = 0] these are integers whose magnitudes
    sum to less than [2^53].  The exponent is one that doubles have,
    [-1074 <= k <= 971]: the bound [2^(53+k)] is then at most [2^1024],
    so that no sum overflows. *)
Definition aligned (k : Z) (members : list (PoolMemberInput.t float)) : Prop :=
  (-1074 <= k <= 971)%Z
  /\ Forall (fun m => multipleOf k (PoolMemberInput.cbBefore m)) members
  /\ (Zsum (fun m => Z.abs (Fval (PoolMemberInput.cbBefore m))) members
      < 2 ^ (53 + k + 1074))%Z.

(** Bank entries and an amount that add and subtract without rounding:
    the amount and every banked and applied amount are multiples of
    [2^k], and the magnitudes sum to less than [2^(53+k)]. *)
Definition alignedLedger (k : Z) (amount : float) (entries : list (BankEntry.t float))
  : Prop :=
  (-1074 <= k <= 971)%Z
  /\ multipleOf k amount
  /\ Forall (fun e => multipleOf k (BankEntry.amountGco2eq e)
                      /\ multipleOf k (BankEntry.appliedAmount e)) entries
  /\ (Z.abs (Fval amount)
      + Zsum (fun e => Z.abs (Fval (BankEntry.amountGco2eq e))
                       + Z.abs (Fval (BankEntry.appliedAmount e))) entries
      < 2 ^ (53 + k + 1074))%Z.

(** Allocations on the grid of [2^g] units: every [cbAfter] is a
    multiple, every [cbBefore] is below [2^(53+g)] in magnitude, and the
    [cbAfter] sum to [total]. *)
Definition gridded (g total : Z) (l : list (PoolAllocation.t float)) : Prop :=
  Forall (fun a => (2 ^ g | Fval (PoolAllocation.cbAfter a))%Z
                   /\ (Z.abs (Fval (PoolAllocation.cbBefore a)) < 2 ^ (53 + g))%Z) l
  /\ Zsum (fun a => Fval (PoolAllocation.cbAfter a)) l = total.

(** A double that is not below zero: NaN, a zero, or a number or
    infinity of positive sign. *)
Definition SFnotneg (x : spec_float) : bool :=
  match x with
  | S754_infinity true | S754_finite true _ _ => false
  | _ => true
  end.

(** A double that is not above zero. *)
Definition SFnotpos (x : spec_float) : bool :=
  match x with
  | S754_infinity false | S754_finite false _ _ => false
  | _ => true
  end.

(** A zero, a number or an infinity of sign [s]. *)
Definition SFcarries (s : bool) (x : spec_float) : bool :=
  match x with
  | S754_zero s' | S754_infinity s' | S754_finite s' _ _ => Bool.eqb s' s
  | S754_nan => false
  end.

(** * Properties *)

Unset Implicit Arguments.

Section Binary64.
Local Open Scope Z_scope.

(** ** Rounding in binary64 *)

Lemma Zdigits_bounds (p : positive) : 2 ^ (Zdigits p - 1) <= Zpos p < 2 ^ Zdigits p.
Proof.
  unfold Zdigits. induction p as [p IH|p IH|]; simpl digits2_pos.
  - rewrite Pos2Z.inj_succ. replace (Z.succ (Zpos (digits2_pos p)) - 1) with (Z.succ (Zpos (digits2_pos p) - 1)) by lia.
    rewrite !Z.pow_succ_r by lia. lia.
  - rewrite Pos2Z.inj_succ. replace (Z.succ (Zpos (digits2_pos p)) - 1) with (Z.succ (Zpos (digits2_pos p) - 1)) by lia.
    rewrite !Z.pow_succ_r by lia. lia.
  - simpl. lia.
Qed.

Lemma Zdigits_pos (p : positive) : 1 <= Zdigits p.
Proof. unfold Zdigits. lia. Qed.

Lemma pow2_pos (n : Z) : 0 <= n -> 0 < 2 ^ n.
Proof. intros. apply Z.pow_pos_nonneg; lia. Qed.

Lemma pow2_le (a b : Z) : 0 <= a <= b -> 2 ^ a <= 2 ^ b.
Proof. intros. apply Z.pow_le_mono_r; lia. Qed.

Lemma pow2_lt (a b : Z) : 0 <= a < b -> 2 ^ a < 2 ^ b.
Proof. intros. apply Z.pow_lt_mono_r; lia. Qed.

Lemma pow2_lt_inv (a b : Z) : 0 <= a -> 0 <= b -> 2 ^ a < 2 ^ b -> a < b.
Proof.
  intros A B L. destruct (Z_lt_le_dec a b) as [|G]; [assumption|].
  pose proof (pow2_le b a ltac:(lia)). lia.
Qed.

Lemma Zdigits_unique (p : positive) (D : Z) :
  2 ^ (D - 1) <= Zpos p < 2 ^ D -> Zdigits p = D.
Proof.
  intros [L U]. pose proof (Zdigits_bounds p) as [L' U']. pose proof (Zdigits_pos p).
  assert (1 <= D).
  { destruct (Z_lt_le_dec D 1); [|assumption].
    destruct (Z_lt_le_dec D 0).
    - rewrite (Z.pow_neg_r 2 D) in U by lia. lia.
    - assert (D = 0) by lia. subst. simpl in U. lia. }
  assert (Zdigits p - 1 < D) by (apply pow2_lt_inv; lia).
  assert (D - 1 < Zdigits p) by (apply pow2_lt_inv; lia).
  lia.
Qed.

(** *** Shifting right *)

Lemma shr_1_spec (mrs : shr_record) :
  0 <= shr_m mrs ->
  shr_m (shr_1 mrs) = shr_m mrs / 2
  /\ (inexact (shr_1 mrs) = false <-> inexact mrs = false /\ shr_m mrs mod 2 = 0).
Proof.
  destruct mrs as [m r s]. unfold inexact. simpl. intros P.
  destruct m as [|[p|p|]|p]; try lia; simpl shr_m; simpl shr_r; simpl shr_s.
  - rewrite orb_false_l. split; [reflexivity|]. split; [intros ->; auto|tauto].
  - split; [rewrite Pos2Z.inj_xI; apply Z.div_unique with 1; lia|].
    rewrite Pos2Z.inj_xI.
    replace ((2 * Zpos p + 1) mod 2) with 1 by (apply Z.mod_unique with (Zpos p); lia).
    simpl. split; [discriminate|intros [_ ?]; lia].
  - split; [rewrite Pos2Z.inj_xO; apply Z.div_unique with 0; lia|].
    rewrite Pos2Z.inj_xO.
    replace ((2 * Zpos p) mod 2) with 0 by (apply Z.mod_unique with (Zpos p); lia).
    rewrite orb_false_l. split; [intros ->; auto|tauto].
  - split; [reflexivity|]. simpl. split; [discriminate|intros [_ ?]; discriminate].
Qed.

Lemma mod_mul_zero (m a b : Z) :
  0 < a -> 0 < b -> (m mod a = 0 /\ (m / a) mod b = 0 <-> m mod (a * b) = 0).
Proof.
  intros A B. rewrite (Z.rem_mul_r m a b) by lia.
  pose proof (Z.mod_pos_bound m a A). pose proof (Z.mod_pos_bound (m / a) b B).
  split; [intros [-> ->]; lia|]. intros E. nia.
Qed.

Lemma iter_shr_spec (n : positive) (mrs : shr_record) :
  0 <= shr_m mrs ->
  shr_m (iter_pos shr_1 n mrs) = shr_m mrs / 2 ^ Zpos n
  /\ (inexact (iter_pos shr_1 n mrs) = false <->
      inexact mrs = false /\ shr_m mrs mod 2 ^ Zpos n = 0).
Proof.
  revert mrs. induction n as [n IH|n IH|]; intros mrs P.
  - simpl iter_pos.
    destruct (shr_1_spec mrs P) as [M1 I1].
    assert (P1 : 0 <= shr_m (shr_1 mrs)) by (rewrite M1; apply Z.div_pos; lia).
    destruct (IH _ P1) as [M2 I2].
    assert (P2 : 0 <= shr_m (iter_pos shr_1 n (shr_1 mrs)))
      by (rewrite M2; apply Z.div_pos; [lia|apply pow2_pos; lia]).
    destruct (IH _ P2) as [M3 I3].
    assert (E : 2 ^ Zpos n~1 = 2 * (2 ^ Zpos n * 2 ^ Zpos n)).
    { rewrite Pos2Z.inj_xI.
      replace (2 * Zpos n + 1) with (1 + (Zpos n + Zpos n)) by lia.
      rewrite !Z.pow_add_r by lia. reflexivity. }
    pose proof (pow2_pos (Zpos n) ltac:(lia)) as Pn.
    split.
    + rewrite M3, M2, M1, E, !Z.div_div by lia. reflexivity.
    + rewrite I3, I2, I1, M2, M1, E.
      rewrite <- (mod_mul_zero (shr_m mrs) 2 (2 ^ Zpos n * 2 ^ Zpos n)) by lia.
      rewrite <- (mod_mul_zero (shr_m mrs / 2) (2 ^ Zpos n) (2 ^ Zpos n)) by lia.
      tauto.
  - simpl iter_pos.
    destruct (IH _ P) as [M2 I2].
    assert (P2 : 0 <= shr_m (iter_pos shr_1 n mrs))
      by (rewrite M2; apply Z.div_pos; [lia|apply pow2_pos; lia]).
    destruct (IH _ P2) as [M3 I3].
    assert (E : 2 ^ Zpos n~0 = 2 ^ Zpos n * 2 ^ Zpos n).
    { rewrite <- Z.pow_add_r by lia. f_equal. lia. }
    pose proof (pow2_pos (Zpos n) ltac:(lia)) as Pn.
    split.
    + rewrite M3, M2, E, !Z.div_div by lia. reflexivity.
    + rewrite I3, I2, M2, E.
      rewrite <- (mod_mul_zero (shr_m mrs) (2 ^ Zpos n) (2 ^ Zpos n)) by lia.
      tauto.
  - simpl iter_pos. change (2 ^ 1) with 2. apply shr_1_spec, P.
Qed.

(** *** The binary64 format *)

Lemma fexp_eq (e : Z) : fexp prec emax e = Z.max (e - 53) (-1074).
Proof. reflexivity. Qed.

Lemma bounded_iff (m : positive) (e : Z) :
  bounded prec emax m e = true <->
  Z.max (Zdigits m + e - 53) (-1074) = e /\ e <= 971.
Proof.
  unfold bounded, canonical_mantissa. rewrite andb_true_iff, Z.eqb_eq, Z.leb_le.
  rewrite fexp_eq. reflexivity.
Qed.

Lemma bounded_facts (m : positive) (e : Z) :
  bounded prec emax m e = true ->
  -1074 <= e <= 971 /\ Zdigits m <= 53 /\ (-1074 < e -> Zdigits m = 53).
Proof. rewrite bounded_iff. lia. Qed.

Lemma scaled_pos (m : positive) (e : Z) : -1074 <= e -> 0 < scaled m e.
Proof.
  intros. unfold scaled. pose proof (pow2_pos (e + 1074) ltac:(lia)). lia.
Qed.

Lemma scaled_bounds (m : positive) (e : Z) :
  -1074 <= e ->
  2 ^ (Zdigits m - 1 + e + 1074) <= scaled m e < 2 ^ (Zdigits m + e + 1074).
Proof.
  intros E. unfold scaled. pose proof (Zdigits_bounds m) as [L U].
  pose proof (Zdigits_pos m). pose proof (pow2_pos (e + 1074) ltac:(lia)).
  replace (Zdigits m - 1 + e + 1074) with ((Zdigits m - 1) + (e + 1074)) by lia.
  replace (Zdigits m + e + 1074) with (Zdigits m + (e + 1074)) by lia.
  rewrite (Z.pow_add_r 2 (Zdigits m - 1) (e + 1074)) by lia.
  rewrite (Z.pow_add_r 2 (Zdigits m) (e + 1074)) by lia.
  split.
  - apply Z.mul_le_mono_nonneg_r; lia.
  - apply Z.mul_lt_mono_pos_r; lia.
Qed.

(** On canonical numbers the order of the format is the order of the values. *)
Lemma scaled_lt_of_exp (m1 m2 : positive) (e1 e2 : Z) :
  bounded prec emax m1 e1 = true -> bounded prec emax m2 e2 = true ->
  e1 < e2 -> scaled m1 e1 < scaled m2 e2.
Proof.
  intros B1 B2 L.
  apply bounded_facts in B1. apply bounded_facts in B2.
  destruct B1 as (R1 & D1 & _), B2 as (R2 & _ & N2).
  pose proof (scaled_bounds m1 e1 ltac:(lia)) as [_ U1].
  pose proof (scaled_bounds m2 e2 ltac:(lia)) as [L2 _].
  rewrite N2 in L2 by lia.
  pose proof (Zdigits_pos m1).
  assert (2 ^ (Zdigits m1 + e1 + 1074) <= 2 ^ (53 - 1 + e2 + 1074)) by (apply pow2_le; lia).
  lia.
Qed.

Lemma Zmul_compare_r (a b p : Z) : 0 < p -> (a * p ?= b * p) = (a ?= b).
Proof.
  intros P. destruct (Z.compare_spec a b) as [E|L|G].
  - subst. apply Z.compare_refl.
  - apply Z.compare_lt_iff. apply Z.mul_lt_mono_pos_r; lia.
  - apply Z.compare_gt_iff. apply Z.mul_lt_mono_pos_r; lia.
Qed.

Lemma SFcompare_pos (m1 m2 : positive) (e1 e2 : Z) :
  bounded prec emax m1 e1 = true -> bounded prec emax m2 e2 = true ->
  SFcompare (S754_finite false m1 e1) (S754_finite false m2 e2)
  = Some (scaled m1 e1 ?= scaled m2 e2).
Proof.
  intros B1 B2. simpl. f_equal.
  destruct (Z.compare_spec e1 e2) as [E|L|G].
  - subst e2. change (PosDef.Pos.compare_cont Eq m1 m2) with (Pos.compare m1 m2).
    unfold scaled. apply bounded_facts in B1.
    pose proof (pow2_pos (e1 + 1074) ltac:(lia)).
    rewrite Zmul_compare_r by lia. reflexivity.
  - symmetry. apply Z.compare_lt_iff. now apply scaled_lt_of_exp.
  - symmetry. apply Z.compare_gt_iff. now apply scaled_lt_of_exp.
Qed.

(** *** Rounding a value to the format *)

Lemma shr_fexp_exact (m : positive) (e : Z) :
  shr_fexp prec emax (Zpos m) e loc_Exact =
  match fexp prec emax (Zdigits m + e) - e with
  | Zpos p => (iter_pos shr_1 p (Build_shr_record (Zpos m) false false),
               e + (fexp prec emax (Zdigits m + e) - e))
  | _ => (Build_shr_record (Zpos m) false false, e)
  end.
Proof. reflexivity. Qed.

(** A mantissa that is canonical for its exponent is kept as it is. *)
Lemma binary_round_aux_canonical (s : bool) (m : positive) (e : Z) :
  fexp prec emax (Zdigits m + e) = e ->
  binary_round_aux prec emax s (Zpos m) e loc_Exact =
  if e <=? 971 then S754_finite s m e else S754_infinity s.
Proof.
  intros C. unfold binary_round_aux.
  rewrite shr_fexp_exact, C, Z.sub_diag. simpl shr_m. simpl loc_of_shr_record.
  simpl round_nearest_even.
  rewrite shr_fexp_exact, C, Z.sub_diag. reflexivity.
Qed.

Lemma round_nearest_even_cases (q : Z) (mrs : shr_record) :
  shr_m mrs = q ->
  let m1 := round_nearest_even (shr_m mrs) (loc_of_shr_record mrs) in
  (m1 = q \/ m1 = q + 1) /\ (inexact mrs = false -> m1 = q).
Proof.
  destruct mrs as [m r s]. unfold inexact. simpl. intros ->.
  destruct r, s; simpl; try (destruct (Z.even q)); split; auto; discriminate.
Qed.

Lemma div_pow2_bounds (m : positive) :
  53 < Zdigits m ->
  2 ^ 52 <= Zpos m / 2 ^ (Zdigits m - 53) < 2 ^ 53.
Proof.
  intros D. pose proof (Zdigits_bounds m) as [L U].
  pose proof (pow2_pos (Zdigits m - 53) ltac:(lia)) as P.
  split.
  - apply Z.div_le_lower_bound; [lia|].
    rewrite Z.mul_comm, <- Z.pow_add_r by lia.
    replace (52 + (Zdigits m - 53)) with (Zdigits m - 1) by lia. exact L.
  - apply Z.div_lt_upper_bound; [lia|].
    rewrite <- Z.pow_add_r by lia.
    replace (Zdigits m - 53 + 53) with (Zdigits m) by lia. exact U.
Qed.

(** A mantissa of more than 53 bits loses its low bits: the result is the
    quotient or its successor, and the quotient when nothing is lost. *)
Lemma binary_round_aux_shift (s : bool) (m : positive) (e : Z) :
  -1074 <= e -> 53 < Zdigits m ->
  let n := Zdigits m - 53 in
  let q := Zpos m / 2 ^ n in
  exists m1 : positive,
    (Zpos m1 = q \/ Zpos m1 = q + 1)
    /\ (Zpos m mod 2 ^ n = 0 -> Zpos m1 = q)
    /\ binary_round_aux prec emax s (Zpos m) e loc_Exact =
       if Zpos m1 <? 2 ^ 53 then
         if e + n <=? 971 then S754_finite s m1 (e + n) else S754_infinity s
       else
         if e + n + 1 <=? 971 then S754_finite s 4503599627370496 (e + n + 1)
         else S754_infinity s.
Proof.
  intros E D n q.
  pose proof (div_pow2_bounds m D) as Q. fold n in Q. fold q in Q.
  assert (F : fexp prec emax (Zdigits m + e) - e = n) by (rewrite fexp_eq; lia).
  unfold binary_round_aux. rewrite shr_fexp_exact, F.
  destruct n as [|p|p] eqn:N; try lia.
  set (mrs := iter_pos shr_1 p (Build_shr_record (Zpos m) false false)).
  destruct (iter_shr_spec p (Build_shr_record (Zpos m) false false) ltac:(simpl; lia))
    as [M I].
  fold mrs in M, I. simpl shr_m in M, I. unfold inexact in I at 2. simpl in I.
  fold q in M.
  destruct (round_nearest_even_cases q mrs M) as [C X].
  set (r := round_nearest_even (shr_m mrs) (loc_of_shr_record mrs)) in *.
  assert (P1 : 0 < r) by (change (2 ^ 52) with 4503599627370496 in Q; lia).
  destruct r as [|m1|m1] eqn:M1; try lia.
  exists m1. split; [exact C|]. split.
  { intros Z. apply X, I. auto. }
  rewrite shr_fexp_exact.
  destruct (Z.ltb_spec (Zpos m1) (2 ^ 53)) as [Lt|Ge].
  - assert (D1 : Zdigits m1 = 53) by (apply Zdigits_unique; simpl Z.sub; lia).
    rewrite D1, fexp_eq.
    replace (Z.max (53 + (e + Zpos p) - 53) (-1074) - (e + Zpos p)) with 0 by lia.
    simpl shr_m. change (emax - prec) with 971. reflexivity.
  - assert (V : Zpos m1 = 2 ^ 53) by lia.
    assert (m1 = 9007199254740992%positive) as -> by (change (2 ^ 53) with 9007199254740992 in V; lia).
    change (Zdigits 9007199254740992) with 54. rewrite fexp_eq.
    replace (Z.max (54 + (e + Zpos p) - 53) (-1074) - (e + Zpos p)) with 1 by lia.
    simpl. change (emax - prec) with 971.
    replace (e + Zpos p + 1) with (e + Zpos p + 1) by lia. reflexivity.
Qed.

Lemma iter_xO_value (m d : positive) :
  Zpos (Pos.iter xO m d) = Zpos m * 2 ^ Zpos d.
Proof.
  induction d as [|d IH] using Pos.peano_ind.
  - simpl. lia.
  - rewrite Pos.iter_succ, Pos2Z.inj_xO, IH, Pos2Z.inj_succ, Z.pow_succ_r by lia. lia.
Qed.

Lemma iter_xO_digits (m d : positive) :
  Zdigits (Pos.iter xO m d) = Zdigits m + Zpos d.
Proof.
  unfold Zdigits. induction d as [|d IH] using Pos.peano_ind.
  - simpl. lia.
  - rewrite Pos.iter_succ. simpl digits2_pos. rewrite Pos2Z.inj_succ, IH. lia.
Qed.

(** The exponent of the rounded value is at most that of a number of the
    format that is not below it. *)
Lemma fexp_le_of_scaled (d : positive) (ez : Z) (mx : positive) (ex : Z) :
  -1074 <= ez -> bounded prec emax mx ex = true ->
  scaled d ez <= scaled mx ex ->
  fexp prec emax (Zdigits d + ez) <= ex.
Proof.
  intros E B L. apply bounded_facts in B. destruct B as (R & Dx & _).
  rewrite fexp_eq.
  destruct (Z_le_gt_dec (Z.max (Zdigits d + ez - 53) (-1074)) ex) as [|G]; [assumption|].
  exfalso.
  pose proof (scaled_bounds d ez E) as [Ld _].
  pose proof (scaled_bounds mx ex ltac:(lia)) as [_ Ux].
  pose proof (Zdigits_pos d). pose proof (Zdigits_pos mx).
  assert (2 ^ (Zdigits mx + ex + 1074) <= 2 ^ (Zdigits d - 1 + ez + 1074))
    by (apply pow2_le; lia).
  lia.
Qed.

Lemma scaled_shift (m : positive) (k : positive) (e : Z) :
  -1074 <= e - Zpos k ->
  scaled (Pos.iter xO m k) (e - Zpos k) = scaled m e.
Proof.
  intros E. unfold scaled. rewrite iter_xO_value.
  replace (e + 1074) with (Zpos k + (e - Zpos k + 1074)) by lia.
  rewrite (Z.pow_add_r 2 (Zpos k)) by lia. ring.
Qed.

Lemma scaled_mono (m1 m2 : positive) (e : Z) :
  -1074 <= e -> Zpos m1 <= Zpos m2 -> scaled m1 e <= scaled m2 e.
Proof.
  intros E L. unfold scaled. pose proof (pow2_pos (e + 1074) ltac:(lia)).
  apply Z.mul_le_mono_nonneg_r; lia.
Qed.

(** Rounding a positive value that is at most a number of the format
    gives a number of the format that is at most that number. *)
Lemma binary_round_le (s : bool) (d : positive) (ez : Z) (mx : positive) (ex : Z) :
  -1074 <= ez -> bounded prec emax mx ex = true ->
  scaled d ez <= scaled mx ex ->
  exists m' e',
    binary_round prec emax s d ez = S754_finite s m' e'
    /\ bounded prec emax m' e' = true
    /\ scaled m' e' <= scaled mx ex.
Proof.
  intros E B L.
  pose proof (fexp_le_of_scaled d ez mx ex E B L) as FE.
  pose proof (bounded_facts _ _ B) as (R & Dx & Nx).
  unfold binary_round, shl_align. change (Zpos (digits2_pos d)) with (Zdigits d).
  set (E0 := fexp prec emax (Zdigits d + ez)) in *.
  assert (E0min : -1074 <= E0) by (unfold E0; rewrite fexp_eq; lia).
  destruct (E0 - ez) as [|p|k] eqn:N.
  - (* the exponent is already the canonical one *)
    assert (E0 = ez) by lia.
    rewrite binary_round_aux_canonical by (fold E0; lia).
    destruct (Z.leb_spec ez 971); [|lia].
    exists d, ez. repeat split; auto.
    apply bounded_iff. unfold E0 in *. rewrite fexp_eq in *. lia.
  - (* low bits are lost *)
    assert (F : E0 = Zdigits d + ez - 53) by (unfold E0 in *; rewrite fexp_eq in *; lia).
    assert (D : 53 < Zdigits d) by lia.
    destruct (binary_round_aux_shift s d ez E D) as (m1 & C & X & ->).
    pose proof (div_pow2_bounds d D) as Q.
    set (n := Zdigits d - 53) in *. set (q := Zpos d / 2 ^ n) in *.
    assert (En : ez + n = E0) by lia.
    pose proof (pow2_pos n ltac:(lia)) as Pn.
    change (2 ^ 52) with 4503599627370496 in *.
    change (2 ^ 53) with 9007199254740992 in *.
    destruct (Z.eq_dec ex E0) as [Eq|Ne].
    + (* same exponent: compare the mantissas *)
      assert (Ld : Zpos d <= Zpos mx * 2 ^ n).
      { unfold scaled in L. rewrite Eq, <- En in L.
        replace (ez + n + 1074) with (n + (ez + 1074)) in L by lia.
        rewrite (Z.pow_add_r 2 n (ez + 1074)), Z.mul_assoc in L by lia.
        pose proof (pow2_pos (ez + 1074) ltac:(lia)).
        apply Z.mul_le_mono_pos_r in L; lia. }
      assert (M1 : Zpos m1 <= Zpos mx).
      { destruct (Z.eq_dec (Zpos d mod 2 ^ n) 0) as [Z0|NZ].
        - rewrite (X Z0). unfold q. apply Z.div_le_upper_bound; lia.
        - assert (Zpos d <> Zpos mx * 2 ^ n)
            by (intros H; rewrite H, Z.mod_mul in NZ; lia).
          assert (q < Zpos mx) by (unfold q; apply Z.div_lt_upper_bound; lia).
          lia. }
      pose proof (Zdigits_bounds mx) as [_ Ux].
      assert (2 ^ Zdigits mx <= 2 ^ 53) by (apply pow2_le; pose proof (Zdigits_pos mx); lia).
      change (2 ^ 53) with 9007199254740992 in *.
      destruct (Z.ltb_spec (Zpos m1) 9007199254740992); [|lia].
      rewrite En. destruct (Z.leb_spec E0 971); [|lia].
      exists m1, E0. repeat split; auto.
      * apply bounded_iff. split; [|lia].
        assert (Zdigits m1 = 53) by (apply Zdigits_unique; simpl Z.sub;
          change (2 ^ 52) with 4503599627370496; change (2 ^ 53) with 9007199254740992; lia).
        lia.
      * rewrite Eq. apply scaled_mono; lia.
    + (* smaller exponent: the value is below the next power of two *)
      assert (Lx : E0 < ex) by lia.
      assert (Dmx : Zdigits mx = 53) by (apply Nx; lia).
      pose proof (scaled_bounds mx ex ltac:(lia)) as [Lmx _]. rewrite Dmx in Lmx.
      destruct (Z.ltb_spec (Zpos m1) 9007199254740992) as [Lt|Ge].
      * rewrite En. destruct (Z.leb_spec E0 971); [|lia].
        exists m1, E0. repeat split; auto.
        -- apply bounded_iff. split; [|lia].
           assert (Zdigits m1 = 53) by (apply Zdigits_unique; simpl Z.sub;
             change (2 ^ 52) with 4503599627370496; change (2 ^ 53) with 9007199254740992; lia).
           lia.
        -- assert (scaled m1 E0 <= 2 ^ (53 + E0 + 1074)).
           { unfold scaled. replace (53 + E0 + 1074) with (53 + (E0 + 1074)) by lia.
             rewrite (Z.pow_add_r 2 53 (E0 + 1074)) by lia.
             change (2 ^ 53) with 9007199254740992.
             pose proof (pow2_pos (E0 + 1074) ltac:(lia)).
             apply Z.mul_le_mono_nonneg_r; lia. }
           assert (2 ^ (53 + E0 + 1074) <= 2 ^ (53 - 1 + ex + 1074)) by (apply pow2_le; lia).
           lia.
      * rewrite En. destruct (Z.leb_spec (E0 + 1) 971); [|lia].
        exists 4503599627370496%positive, (E0 + 1). repeat split; auto.
        -- apply bounded_iff. change (Zdigits 4503599627370496) with 53. lia.
        -- assert (scaled 4503599627370496 (E0 + 1) = 2 ^ (52 + (E0 + 1 + 1074))).
           { unfold scaled. rewrite (Z.pow_add_r 2 52 (E0 + 1 + 1074)) by lia.
             reflexivity. }
           assert (2 ^ (52 + (E0 + 1 + 1074)) <= 2 ^ (53 - 1 + ex + 1074)) by (apply pow2_le; lia).
           lia.
  - (* the mantissa is shifted left to the canonical exponent *)
    assert (K : ez = E0 + Zpos k) by lia.
    assert (C : fexp prec emax (Zdigits (Pos.iter xO d k) + E0) = E0).
    { rewrite iter_xO_digits. unfold E0. f_equal. lia. }
    rewrite binary_round_aux_canonical by exact C.
    destruct (Z.leb_spec E0 971); [|lia].
    exists (Pos.iter xO d k), E0. repeat split; auto.
    + apply bounded_iff. rewrite fexp_eq in C. lia.
    + replace E0 with (ez - Zpos k) by lia. rewrite scaled_shift by lia. exact L.
Qed.

(** *** Values of finite numbers *)

Lemma SFcompare_val (x y : spec_float) :
  valid_binary x = true -> valid_binary y = true ->
  SFfinite x = true -> SFfinite y = true ->
  SFcompare x y = Some (SFval x ?= SFval y).
Proof.
  destruct x as [sx|sx| |sx mx ex], y as [sy|sy| |sy my ey]; try discriminate;
    intros Vx Vy _ _; simpl in Vx, Vy.
  - reflexivity.
  - pose proof (bounded_facts _ _ Vy) as (R & _).
    pose proof (scaled_pos my ey ltac:(lia)).
    unfold SFcompare, SFval, cond_Zopp.
    destruct sy; f_equal; symmetry;
      [apply Z.compare_gt_iff | apply Z.compare_lt_iff]; lia.
  - pose proof (bounded_facts _ _ Vx) as (R & _).
    pose proof (scaled_pos mx ex ltac:(lia)).
    unfold SFcompare, SFval, cond_Zopp.
    destruct sx; f_equal; symmetry;
      [apply Z.compare_lt_iff | apply Z.compare_gt_iff]; lia.
  - pose proof (bounded_facts _ _ Vx) as (Rx & _).
    pose proof (bounded_facts _ _ Vy) as (Ry & _).
    pose proof (scaled_pos mx ex ltac:(lia)).
    pose proof (scaled_pos my ey ltac:(lia)).
    pose proof (SFcompare_pos mx my ex ey Vx Vy) as C.
    unfold SFcompare in *. unfold SFval, cond_Zopp.
    destruct sx, sy.
    + (* both negative *)
      injection C as C. f_equal.
      rewrite Z.compare_opp, (Z.compare_antisym (scaled mx ex)), <- C.
      destruct (ex ?= ey); reflexivity.
    + f_equal. symmetry. apply Z.compare_lt_iff. lia.
    + f_equal. symmetry. apply Z.compare_gt_iff. lia.
    + exact C.
Qed.

Lemma shl_align_value (mx : positive) (ex ez : Z) :
  -1074 <= ez <= ex ->
  Zpos (fst (shl_align mx ex ez)) * 2 ^ (ez + 1074) = scaled mx ex.
Proof.
  intros R. unfold shl_align, scaled.
  destruct (ez - ex) as [|p|d] eqn:N; simpl fst; try lia.
  - replace ex with ez by lia. reflexivity.
  - rewrite iter_xO_value.
    replace (ex + 1074) with (Zpos d + (ez + 1074)) by lia.
    rewrite (Z.pow_add_r 2 (Zpos d)) by lia. ring.
Qed.

Lemma binary_normalize_le (z ez : Z) (mw : positive) (ew : Z) :
  -1074 <= ez -> bounded prec emax mw ew = true ->
  Z.abs z * 2 ^ (ez + 1074) <= scaled mw ew ->
  let r := binary_normalize prec emax z ez false in
  SFfinite r = true /\ valid_binary r = true
  /\ Z.abs (SFval r) <= scaled mw ew
  /\ (0 <= z -> 0 <= SFval r) /\ (z <= 0 -> SFval r <= 0).
Proof.
  intros E B L r. subst r.
  pose proof (bounded_facts _ _ B) as (R & _).
  pose proof (scaled_pos mw ew ltac:(lia)).
  destruct z as [|d|d]; simpl binary_normalize.
  - simpl. repeat split; lia.
  - destruct (binary_round_le false d ez mw ew E B L) as (m' & e' & -> & B' & L').
    pose proof (bounded_facts _ _ B') as (R' & _).
    pose proof (scaled_pos m' e' ltac:(lia)).
    simpl. repeat split; auto; lia.
  - destruct (binary_round_le true d ez mw ew E B L) as (m' & e' & -> & B' & L').
    pose proof (bounded_facts _ _ B') as (R' & _).
    pose proof (scaled_pos m' e' ltac:(lia)).
    simpl. repeat split; auto; lia.
Qed.

(** Taking from a positive number a positive number that is not above it. *)
Lemma SFsub_bounds (x y : spec_float) :
  valid_binary x = true -> valid_binary y = true ->
  SFfinite x = true -> SFfinite y = true ->
  0 < SFval y <= SFval x ->
  let r := SFsub prec emax x y in
  SFfinite r = true /\ valid_binary r = true /\ 0 <= SFval r <= SFval x.
Proof.
  destruct x as [sx|sx| |sx mx ex], y as [sy|sy| |sy my ey]; try discriminate;
    intros Vx Vy _ _ [Py L]; simpl in Vx, Vy; simpl SFval in *; try lia.
  pose proof (bounded_facts _ _ Vx) as (Rx & _).
  pose proof (bounded_facts _ _ Vy) as (Ry & _).
  pose proof (scaled_pos mx ex ltac:(lia)).
  pose proof (scaled_pos my ey ltac:(lia)).
  destruct sx, sy; simpl cond_Zopp in *; try lia.
  intros r. subst r. unfold SFsub. simpl cond_Zopp.
  set (ez := Z.min ex ey).
  pose proof (shl_align_value mx ex ez ltac:(lia)) as A.
  pose proof (shl_align_value my ey ez ltac:(lia)) as B.
  set (a := Zpos (fst (shl_align mx ex ez))) in *.
  set (b := Zpos (fst (shl_align my ey ez))) in *.
  pose proof (pow2_pos (ez + 1074) ltac:(lia)) as P.
  assert (Lab : b <= a) by nia.
  destruct (binary_normalize_le (a - b) ez mx ex ltac:(lia) Vx) as (F & V & Ab & Pos & _).
  { rewrite Z.abs_eq by lia. nia. }
  repeat split; auto; lia.
Qed.

(** Adding to a negative number a positive number that is not above its
    magnitude. *)
Lemma SFadd_bounds (x y : spec_float) :
  valid_binary x = true -> valid_binary y = true ->
  SFfinite x = true -> SFfinite y = true ->
  SFval x < 0 -> 0 < SFval y <= - SFval x ->
  let r := SFadd prec emax x y in
  SFfinite r = true /\ valid_binary r = true /\ SFval x <= SFval r <= 0.
Proof.
  destruct x as [sx|sx| |sx mx ex], y as [sy|sy| |sy my ey]; try discriminate;
    intros Vx Vy _ _ Nx [Py L]; simpl in Vx, Vy; simpl SFval in *; try lia.
  pose proof (bounded_facts _ _ Vx) as (Rx & _).
  pose proof (bounded_facts _ _ Vy) as (Ry & _).
  pose proof (scaled_pos mx ex ltac:(lia)).
  pose proof (scaled_pos my ey ltac:(lia)).
  destruct sx, sy; simpl cond_Zopp in *; try lia.
  intros r. subst r. unfold SFadd. simpl cond_Zopp.
  set (ez := Z.min ex ey).
  pose proof (shl_align_value mx ex ez ltac:(lia)) as A.
  pose proof (shl_align_value my ey ez ltac:(lia)) as B.
  set (a := Zpos (fst (shl_align mx ex ez))) in *.
  set (b := Zpos (fst (shl_align my ey ez))) in *.
  pose proof (pow2_pos (ez + 1074) ltac:(lia)) as P.
  assert (Lab : b <= a) by nia.
  destruct (binary_normalize_le (- a + b) ez mx ex ltac:(lia) Vx) as (F & V & Ab & _ & Neg).
  { rewrite Z.abs_neq by lia. nia. }
  change (Z.neg (fst (shl_align mx ex ez))) with (- a).
  repeat split; auto; lia.
Qed.

(** *** Primitive floats *)

Lemma SFeqb_refl (x : spec_float) : SFeqb x x = negb (match x with S754_nan => true | _ => false end).
Proof.
  unfold SFeqb. destruct x as [s|s| |s m e]; simpl; try reflexivity.
  - destruct s; reflexivity.
  - change (PosDef.Pos.compare_cont Eq m m) with (Pos.compare m m).
    destruct s; rewrite Z.compare_refl, Pos.compare_refl; reflexivity.
Qed.

Lemma is_nan_spec (f : float) :
  PrimFloat.is_nan f = match Prim2SF f with S754_nan => true | _ => false end.
Proof.
  unfold PrimFloat.is_nan. rewrite eqb_spec, SFeqb_refl. apply negb_involutive.
Qed.

Lemma is_finite_spec (f : float) : PrimFloat.is_finite f = SFfinite (Prim2SF f).
Proof.
  unfold PrimFloat.is_finite, PrimFloat.is_infinity.
  rewrite is_nan_spec, eqb_spec, abs_spec.
  change (Prim2SF infinity) with (S754_infinity false).
  destruct (Prim2SF f) as [s|s| |s m e]; reflexivity.
Qed.

Section FiniteFloats.
Variables a b : float.
Hypothesis Fa : PrimFloat.is_finite a = true.
Hypothesis Fb : PrimFloat.is_finite b = true.

Lemma f64_compare_val :
  SFcompare (Prim2SF a) (Prim2SF b) = Some (Fval a ?= Fval b).
Proof.
  rewrite is_finite_spec in Fa, Fb.
  apply SFcompare_val; auto using Prim2SF_valid.
Qed.

Lemma f64_ltb_val : PrimFloat.ltb a b = (Fval a <? Fval b).
Proof.
  rewrite ltb_spec. unfold SFltb. rewrite f64_compare_val.
  unfold Z.ltb. destruct (Fval a ?= Fval b); reflexivity.
Qed.

Lemma f64_leb_val : PrimFloat.leb a b = (Fval a <=? Fval b).
Proof.
  rewrite leb_spec. unfold SFleb. rewrite f64_compare_val.
  unfold Z.leb. destruct (Fval a ?= Fval b); reflexivity.
Qed.

Lemma f64_eqb_val : PrimFloat.eqb a b = (Fval a =? Fval b).
Proof.
  rewrite eqb_spec. unfold SFeqb. rewrite f64_compare_val.
  rewrite Z.eqb_compare. reflexivity.
Qed.

End FiniteFloats.

Lemma scaled_nonneg (m : positive) (e : Z) : 0 <= scaled m e.
Proof. unfold scaled. pose proof (Z.pow_nonneg 2 (e + 1074)). nia. Qed.

Lemma f64_zero_val : PrimFloat.is_finite (f64_lit 0 1) = true /\ Fval (f64_lit 0 1) = 0.
Proof. split; reflexivity. Qed.

Lemma f64_abs_val (b : float) :
  PrimFloat.is_finite b = true ->
  PrimFloat.is_finite (PrimFloat.abs b) = true
  /\ Fval (PrimFloat.abs b) = Z.abs (Fval b).
Proof.
  rewrite !is_finite_spec. unfold Fval. rewrite abs_spec.
  destruct (Prim2SF b) as [s|s| |s m e]; try discriminate; intros _;
    split; try reflexivity.
  pose proof (scaled_nonneg m e). destruct s; simpl; lia.
Qed.

Lemma f64_is_nan_finite (a : float) :
  PrimFloat.is_finite a = true -> PrimFloat.is_nan a = false.
Proof.
  rewrite is_finite_spec, is_nan_spec. destruct (Prim2SF a); try discriminate; reflexivity.
Qed.

Lemma f64_min_val (a b : float) :
  PrimFloat.is_finite a = true -> PrimFloat.is_finite b = true ->
  PrimFloat.is_finite (f64_min a b) = true
  /\ Fval (f64_min a b) = Z.min (Fval a) (Fval b).
Proof.
  intros Fa Fb. unfold f64_min.
  rewrite (f64_is_nan_finite a Fa), (f64_is_nan_finite b Fb). simpl.
  rewrite (f64_ltb_val a b Fa Fb), (f64_ltb_val b a Fb Fa).
  destruct (Z.ltb_spec (Fval a) (Fval b)); [split; [assumption|lia]|].
  destruct (Z.ltb_spec (Fval b) (Fval a)); [split; [assumption|lia]|].
  destruct (get_sign a); split; auto; lia.
Qed.

Lemma f64_sub_bounds (a t : float) :
  PrimFloat.is_finite a = true -> PrimFloat.is_finite t = true ->
  0 < Fval t <= Fval a ->
  PrimFloat.is_finite (PrimFloat.sub a t) = true
  /\ 0 <= Fval (PrimFloat.sub a t) <= Fval a.
Proof.
  rewrite !is_finite_spec. unfold Fval. rewrite sub_spec. intros Fa Ft R.
  destruct (SFsub_bounds (Prim2SF a) (Prim2SF t) (Prim2SF_valid a) (Prim2SF_valid t)
              Fa Ft R) as (F & _ & B).
  split; assumption.
Qed.

Lemma f64_add_bounds (b t : float) :
  PrimFloat.is_finite b = true -> PrimFloat.is_finite t = true ->
  Fval b < 0 -> 0 < Fval t <= - Fval b ->
  PrimFloat.is_finite (PrimFloat.add b t) = true
  /\ Fval b <= Fval (PrimFloat.add b t) <= 0.
Proof.
  rewrite !is_finite_spec. unfold Fval. rewrite add_spec. intros Fb Ft N R.
  destruct (SFadd_bounds (Prim2SF b) (Prim2SF t) (Prim2SF_valid b) (Prim2SF_valid t)
              Fb Ft N R) as (F & _ & B).
  split; assumption.
Qed.

(** The transfer of [greedyAllocate] on finite doubles: from a surplus
    [a > 0] to a deficit [b < 0]. *)
Lemma f64_transfer (a b : float) :
  PrimFloat.is_finite a = true -> PrimFloat.is_finite b = true ->
  PrimFloat.ltb (f64_lit 0 1) a = true -> PrimFloat.ltb b (f64_lit 0 1) = true ->
  let t := f64_min a (PrimFloat.abs b) in
  PrimFloat.is_finite (PrimFloat.sub a t) = true
  /\ PrimFloat.leb (f64_lit 0 1) (PrimFloat.sub a t) = true
  /\ PrimFloat.leb (PrimFloat.sub a t) a = true
  /\ PrimFloat.is_finite (PrimFloat.add b t) = true
  /\ PrimFloat.leb b (PrimFloat.add b t) = true
  /\ PrimFloat.leb (PrimFloat.add b t) (f64_lit 0 1) = true.
Proof.
  intros Fa Fb Pa Nb t.
  destruct f64_zero_val as [F0 V0].
  rewrite (f64_ltb_val _ _ F0 Fa), V0 in Pa. apply Z.ltb_lt in Pa.
  rewrite (f64_ltb_val _ _ Fb F0), V0 in Nb. apply Z.ltb_lt in Nb.
  destruct (f64_abs_val b Fb) as [Fab Vab].
  destruct (f64_min_val a (PrimFloat.abs b) Fa Fab) as [Ft Vt]. fold t in Ft, Vt.
  rewrite Vab in Vt.
  destruct (f64_sub_bounds a t Fa Ft ltac:(lia)) as [Fs Bs].
  destruct (f64_add_bounds b t Fb Ft Nb ltac:(lia)) as [Fd Bd].
  rewrite (f64_leb_val _ _ F0 Fs), (f64_leb_val _ _ Fs Fa),
    (f64_leb_val _ _ Fb Fd), (f64_leb_val _ _ Fd F0), V0.
  repeat split; auto; apply Z.leb_le; lia.
Qed.

(** *** Operations that do not round *)

Lemma pow2_divide (a b : Z) : 0 <= a <= b -> (2 ^ a | 2 ^ b).
Proof.
  intros R. exists (2 ^ (b - a)). rewrite <- Z.pow_add_r by lia. f_equal. lia.
Qed.

(** A value on the grid [2^g] and below [2^(53+g)] is a number of the
    format, and rounding returns it. *)
Lemma binary_round_exact (s : bool) (d : positive) (ez g : Z) :
  -1074 <= ez -> 0 <= g <= 2045 ->
  (2 ^ g | scaled d ez) -> scaled d ez < 2 ^ (53 + g) ->
  exists m' e',
    binary_round prec emax s d ez = S754_finite s m' e'
    /\ bounded prec emax m' e' = true
    /\ scaled m' e' = scaled d ez.
Proof.
  intros E G Dv L.
  pose proof (scaled_bounds d ez E) as [Ld _].
  pose proof (Zdigits_pos d) as Dp.
  assert (Dg : Zdigits d + ez + 1074 <= 53 + g).
  { assert (Zdigits d - 1 + ez + 1074 < 53 + g) by (apply pow2_lt_inv; lia). lia. }
  unfold binary_round, shl_align. change (Zpos (digits2_pos d)) with (Zdigits d).
  set (E0 := fexp prec emax (Zdigits d + ez)) in *.
  assert (E0v : E0 = Z.max (Zdigits d + ez - 53) (-1074)) by (unfold E0; apply fexp_eq).
  destruct (E0 - ez) as [|p|k] eqn:N.
  - assert (E0 = ez) by lia.
    rewrite binary_round_aux_canonical by (fold E0; lia).
    destruct (Z.leb_spec ez 971); [|lia].
    exists d, ez. repeat split; auto. apply bounded_iff. lia.
  - assert (D : 53 < Zdigits d) by lia.
    destruct (binary_round_aux_shift s d ez E D) as (m1 & C & X & ->).
    pose proof (div_pow2_bounds d D) as Q.
    set (n := Zdigits d - 53) in *. set (q := Zpos d / 2 ^ n) in *.
    pose proof (pow2_pos n ltac:(lia)) as Pn.
    pose proof (pow2_pos (ez + 1074) ltac:(lia)) as Pe.
    assert (M0 : Zpos d mod 2 ^ n = 0).
    { assert (Dn : (2 ^ (n + (ez + 1074)) | scaled d ez)).
      { eapply Z.divide_trans; [apply pow2_divide|exact Dv]. lia. }
      destruct Dn as [c Hc]. unfold scaled in Hc.
      rewrite (Z.pow_add_r 2 n (ez + 1074)), Z.mul_assoc in Hc by lia.
      apply Z.mul_cancel_r in Hc; [|lia].
      rewrite Hc. apply Z.mod_mul. lia. }
    specialize (X M0).
    assert (Dq : Zpos d = q * 2 ^ n).
    { unfold q. pose proof (Z.div_mod (Zpos d) (2 ^ n) ltac:(lia)). lia. }
    destruct (Z.ltb_spec (Zpos m1) (2 ^ 53)); [|lia].
    destruct (Z.leb_spec (ez + n) 971); [|lia].
    exists m1, (ez + n). repeat split; auto.
    + apply bounded_iff. split; [|lia].
      assert (Zdigits m1 = 53) by (apply Zdigits_unique; simpl Z.sub; lia).
      lia.
    + unfold scaled. rewrite X, Dq.
      replace (ez + n + 1074) with (n + (ez + 1074)) by lia.
      rewrite (Z.pow_add_r 2 n (ez + 1074)) by lia. ring.
  - assert (K : ez = E0 + Zpos k) by lia.
    assert (C : fexp prec emax (Zdigits (Pos.iter xO d k) + E0) = E0).
    { rewrite iter_xO_digits. unfold E0. f_equal. lia. }
    rewrite binary_round_aux_canonical by exact C.
    destruct (Z.leb_spec E0 971); [|lia].
    exists (Pos.iter xO d k), E0. repeat split; auto.
    + apply bounded_iff. rewrite fexp_eq in C. lia.
    + replace E0 with (ez - Zpos k) by lia. apply scaled_shift. lia.
Qed.

Lemma binary_normalize_exact (z ez g : Z) :
  -1074 <= ez -> 0 <= g <= 2045 ->
  (2 ^ g | z * 2 ^ (ez + 1074)) -> Z.abs (z * 2 ^ (ez + 1074)) < 2 ^ (53 + g) ->
  let r := binary_normalize prec emax z ez false in
  SFfinite r = true /\ valid_binary r = true /\ SFval r = z * 2 ^ (ez + 1074).
Proof.
  intros E G Dv L r. subst r.
  pose proof (pow2_pos (ez + 1074) ltac:(lia)) as Pe.
  destruct z as [|d|d]; simpl binary_normalize.
  - simpl. auto.
  - assert (P : 0 < scaled d ez) by (apply Z.mul_pos_pos; lia).
    destruct (binary_round_exact false d ez g E G) as (m' & e' & -> & B' & V').
    + exact Dv.
    + fold (scaled d ez) in L. lia.
    + simpl. auto.
  - assert (P : 0 < scaled d ez) by (apply Z.mul_pos_pos; lia).
    assert (N : Zneg d * 2 ^ (ez + 1074) = - scaled d ez) by (unfold scaled; lia).
    rewrite N in *.
    destruct (binary_round_exact true d ez g E G) as (m' & e' & -> & B' & V').
    + apply (proj1 (Z.divide_opp_r _ _) Dv).
    + lia.
    + simpl. repeat split; auto. lia.
Qed.

Lemma SFadd_exact (x y : spec_float) (g : Z) :
  valid_binary x = true -> valid_binary y = true ->
  SFfinite x = true -> SFfinite y = true ->
  0 <= g <= 2045 ->
  (2 ^ g | SFval x) -> (2 ^ g | SFval y) -> Z.abs (SFval x + SFval y) < 2 ^ (53 + g) ->
  let r := SFadd prec emax x y in
  SFfinite r = true /\ valid_binary r = true /\ SFval r = SFval x + SFval y.
Proof.
  destruct x as [sx|sx| |sx mx ex], y as [sy|sy| |sy my ey]; try discriminate;
    intros Vx Vy _ _ G Dx Dy L; simpl in Vx, Vy.
  - simpl. destruct sx, sy; auto.
  - simpl. auto.
  - simpl. repeat split; auto. lia.
  - pose proof (bounded_facts _ _ Vx) as (Rx & _).
    pose proof (bounded_facts _ _ Vy) as (Ry & _).
    intros r. subst r. unfold SFadd.
    set (ez := Z.min ex ey).
    pose proof (shl_align_value mx ex ez ltac:(lia)) as A.
    pose proof (shl_align_value my ey ez ltac:(lia)) as B.
    set (a := Zpos (fst (shl_align mx ex ez))) in *.
    set (b := Zpos (fst (shl_align my ey ez))) in *.
    assert (V : (cond_Zopp sx a + cond_Zopp sy b) * 2 ^ (ez + 1074)
                = SFval (S754_finite sx mx ex) + SFval (S754_finite sy my ey)).
    { unfold SFval. rewrite <- A, <- B. destruct sx, sy; unfold cond_Zopp; ring. }
    destruct (binary_normalize_exact (cond_Zopp sx a + cond_Zopp sy b) ez g
                ltac:(lia) G) as (F & Vr & Vv).
    + rewrite V. now apply Z.divide_add_r.
    + rewrite V. exact L.
    + repeat split; auto. rewrite Vv. exact V.
Qed.

Lemma SFsub_exact (x y : spec_float) (g : Z) :
  valid_binary x = true -> valid_binary y = true ->
  SFfinite x = true -> SFfinite y = true ->
  0 <= g <= 2045 ->
  (2 ^ g | SFval x) -> (2 ^ g | SFval y) -> Z.abs (SFval x - SFval y) < 2 ^ (53 + g) ->
  let r := SFsub prec emax x y in
  SFfinite r = true /\ valid_binary r = true /\ SFval r = SFval x - SFval y.
Proof.
  destruct x as [sx|sx| |sx mx ex], y as [sy|sy| |sy my ey]; try discriminate;
    intros Vx Vy _ _ G Dx Dy L; simpl in Vx, Vy.
  - simpl. destruct sx, sy; auto.
  - simpl. repeat split; auto. destruct sy; simpl; lia.
  - simpl. repeat split; auto. lia.
  - pose proof (bounded_facts _ _ Vx) as (Rx & _).
    pose proof (bounded_facts _ _ Vy) as (Ry & _).
    intros r. subst r. unfold SFsub.
    set (ez := Z.min ex ey).
    pose proof (shl_align_value mx ex ez ltac:(lia)) as A.
    pose proof (shl_align_value my ey ez ltac:(lia)) as B.
    set (a := Zpos (fst (shl_align mx ex ez))) in *.
    set (b := Zpos (fst (shl_align my ey ez))) in *.
    assert (V : (cond_Zopp sx a - cond_Zopp sy b) * 2 ^ (ez + 1074)
                = SFval (S754_finite sx mx ex) - SFval (S754_finite sy my ey)).
    { unfold SFval. rewrite <- A, <- B. destruct sx, sy; unfold cond_Zopp; ring. }
    destruct (binary_normalize_exact (cond_Zopp sx a - cond_Zopp sy b) ez g
                ltac:(lia) G) as (F & Vr & Vv).
    + rewrite V. now apply Z.divide_sub_r.
    + rewrite V. exact L.
    + repeat split; auto. rewrite Vv. exact V.
Qed.

Lemma f64_add_exact (a b : float) (g : Z) :
  PrimFloat.is_finite a = true -> PrimFloat.is_finite b = true ->
  0 <= g <= 2045 ->
  (2 ^ g | Fval a) -> (2 ^ g | Fval b) -> Z.abs (Fval a + Fval b) < 2 ^ (53 + g) ->
  PrimFloat.is_finite (PrimFloat.add a b) = true
  /\ Fval (PrimFloat.add a b) = Fval a + Fval b.
Proof.
  rewrite !is_finite_spec. unfold Fval. rewrite add_spec. intros Fa Fb G Da Db L.
  destruct (SFadd_exact (Prim2SF a) (Prim2SF b) g (Prim2SF_valid a) (Prim2SF_valid b)
              Fa Fb G Da Db L) as (F & _ & V).
  split; assumption.
Qed.

Lemma f64_sub_exact (a b : float) (g : Z) :
  PrimFloat.is_finite a = true -> PrimFloat.is_finite b = true ->
  0 <= g <= 2045 ->
  (2 ^ g | Fval a) -> (2 ^ g | Fval b) -> Z.abs (Fval a - Fval b) < 2 ^ (53 + g) ->
  PrimFloat.is_finite (PrimFloat.sub a b) = true
  /\ Fval (PrimFloat.sub a b) = Fval a - Fval b.
Proof.
  rewrite !is_finite_spec. unfold Fval. rewrite sub_spec. intros Fa Fb G Da Db L.
  destruct (SFsub_exact (Prim2SF a) (Prim2SF b) g (Prim2SF_valid a) (Prim2SF_valid b)
              Fa Fb G Da Db L) as (F & _ & V).
  split; assumption.
Qed.

(** A transfer empties the surplus or fills the deficit. *)
Lemma f64_transfer_covers (a b : float) :
  PrimFloat.is_finite a = true -> PrimFloat.is_finite b = true ->
  PrimFloat.ltb (f64_lit 0 1) a = true -> PrimFloat.ltb b (f64_lit 0 1) = true ->
  let t := f64_min a (PrimFloat.abs b) in
  PrimFloat.eqb (PrimFloat.sub a t) (f64_lit 0 1) = true
  \/ PrimFloat.leb (f64_lit 0 1) (PrimFloat.add b t) = true.
Proof.
  intros Fa Fb Pa Nb t.
  destruct f64_zero_val as [F0 V0].
  rewrite (f64_ltb_val _ _ F0 Fa), V0 in Pa. apply Z.ltb_lt in Pa.
  rewrite (f64_ltb_val _ _ Fb F0), V0 in Nb. apply Z.ltb_lt in Nb.
  destruct (f64_abs_val b Fb) as [Fab Vab].
  destruct (f64_min_val a (PrimFloat.abs b) Fa Fab) as [Ft Vt]. fold t in Ft, Vt.
  rewrite Vab in Vt.
  assert (D : forall z, (2 ^ 0 | z)) by (intros z; apply Z.divide_1_l).
  assert (P : 0 < 2 ^ (53 + 0)) by (apply pow2_pos; lia).
  destruct (Z.le_ge_cases (Fval a) (Z.abs (Fval b))).
  - left. destruct (f64_sub_exact a t 0 Fa Ft ltac:(lia) (D _) (D _)) as [Fs Vs]; [lia|].
    rewrite (f64_eqb_val _ _ Fs F0), Vs, V0. apply Z.eqb_eq. lia.
  - right. destruct (f64_add_exact b t 0 Fb Ft ltac:(lia) (D _) (D _)) as [Fd Vd]; [lia|].
    rewrite (f64_leb_val _ _ F0 Fd), Vd, V0. apply Z.leb_le. lia.
Qed.

Lemma f64_eq_le (a b : float) :
  PrimFloat.eqb a b = true -> PrimFloat.leb a b = true.
Proof.
  rewrite eqb_spec, leb_spec. unfold SFeqb, SFleb.
  destruct (SFcompare (Prim2SF a) (Prim2SF b)) as [[]|]; auto; discriminate.
Qed.

End Binary64.

Set Implicit Arguments.

(** ** The comparison laws hold on both instances *)

Lemma SFcompare_antisym x y c :
  SFcompare x y = Some c -> SFcompare y x = Some (CompOpp c).
Proof.
  destruct x as [sx|sx| |sx mx ex], y as [sy|sy| |sy my ey]; simpl; try discriminate;
    try (intros [= <-]; try destruct sx; try destruct sy; reflexivity).
  intros [= <-]. f_equal.
  pose proof (Pos.compare_cont_antisym mx my Eq) as A. simpl in A.
  destruct sx, sy; try reflexivity;
    rewrite (Z.compare_antisym ex ey); destruct (ex ?= ey)%Z; simpl; try reflexivity;
    rewrite <- A; now rewrite ?CompOpp_involutive.
Qed.

Lemma SFeqb_cases x v :
  SFeqb x v = true ->
  match x, v with
  | S754_zero _, S754_zero _ => True
  | S754_infinity s, S754_infinity s' => s = s'
  | S754_finite s m e, S754_finite s' m' e' => s = s' /\ m = m' /\ e = e'
  | _, _ => False
  end.
Proof.
  unfold SFeqb.
  destruct x as [sx|sx| |sx mx ex], v as [sy|sy| |sy my ey]; simpl;
    try discriminate; auto;
    try (destruct sx; discriminate); try (destruct sy; discriminate).
  - destruct sx, sy; try discriminate; auto.
  - change (PosDef.Pos.compare_cont Eq mx my) with (Pos.compare mx my).
    destruct sx, sy; try discriminate;
      destruct (Z.compare_spec ex ey); try discriminate; subst;
      destruct (Pos.compare_spec mx my); simpl;
      try discriminate; intros; subst; auto.
Qed.

Lemma f64_lt_not_ge (a b : float) :
  PrimFloat.ltb a b = true -> PrimFloat.leb b a = false.
Proof.
  rewrite ltb_spec, leb_spec. unfold SFltb, SFleb.
  destruct (SFcompare (Prim2SF a) (Prim2SF b)) as [c|] eqn:E; try discriminate.
  rewrite (SFcompare_antisym _ _ E). destruct c; simpl; congruence.
Qed.

Lemma f64_eq_not_lt (a b : float) :
  PrimFloat.eqb a b = true -> PrimFloat.ltb a b = false.
Proof.
  rewrite eqb_spec, ltb_spec. unfold SFeqb, SFltb.
  destruct (SFcompare (Prim2SF a) (Prim2SF b)) as [[]|]; congruence.
Qed.

Lemma f64_lt_le (a b : float) :
  PrimFloat.ltb a b = true -> PrimFloat.leb a b = true.
Proof.
  rewrite ltb_spec, leb_spec. unfold SFltb, SFleb.
  destruct (SFcompare (Prim2SF a) (Prim2SF b)) as [[]|]; congruence.
Qed.

Lemma f64_tie_not_gt (a b v : float) :
  PrimFloat.eqb a v = true -> PrimFloat.eqb b v = true ->
  PrimFloat.ltb (f64_lit 0 1) (PrimFloat.sub b a) = false.
Proof.
  rewrite !eqb_spec, ltb_spec, sub_spec.
  intros Ha Hb. apply SFeqb_cases in Ha. apply SFeqb_cases in Hb.
  change (Prim2SF (f64_lit 0 1)) with (S754_zero false).
  destruct (Prim2SF a) as [sa|sa| |sa ma ea], (Prim2SF b) as [sb|sb| |sb mb eb],
    (Prim2SF v) as [sv|sv| |sv mv ev]; try contradiction.
  - destruct sa, sb; reflexivity.
  - subst. destruct sv; reflexivity.
  - destruct Ha as (-> & -> & ->), Hb as (-> & -> & ->).
    unfold SF64sub, SFsub. rewrite Z.sub_diag. reflexivity.
Qed.

Lemma f64_neg_lt_pos (a b : float) :
  PrimFloat.ltb a (f64_lit 0 1) = true -> PrimFloat.ltb (f64_lit 0 1) b = true ->
  PrimFloat.ltb a b = true.
Proof.
  rewrite !ltb_spec. change (Prim2SF (f64_lit 0 1)) with (S754_zero false).
  unfold SFltb.
  destruct (Prim2SF a) as [sa|sa| |sa ma ea], (Prim2SF b) as [sb|sb| |sb mb eb];
    simpl; try discriminate;
    try destruct sa; try destruct sb; try discriminate; reflexivity.
Qed.

#[export] Instance f64_order : JsOrder float.
Proof.
  split.
  - exact f64_lt_not_ge.
  - exact f64_eq_not_lt.
  - exact f64_lt_le.
  - exact f64_neg_lt_pos.
  - exact f64_tie_not_gt.
Qed.

Lemma Q_lt_iff (a b : Q) : Q_lt a b = true <-> (a < b)%Q.
Proof.
  unfold Q_lt. rewrite negb_true_iff, <- not_true_iff_false, Qle_bool_iff.
  split; [apply Qnot_le_lt | apply Qlt_not_le].
Qed.

Lemma Q_lt_false_iff (a b : Q) : Q_lt a b = false <-> (b <= a)%Q.
Proof.
  unfold Q_lt. rewrite negb_false_iff. apply Qle_bool_iff.
Qed.

Lemma Q_le_false_iff (a b : Q) : Qle_bool a b = false <-> (b < a)%Q.
Proof.
  rewrite <- not_true_iff_false, Qle_bool_iff.
  split; [apply Qnot_le_lt | apply Qlt_not_le].
Qed.

#[export] Instance exact_order : JsOrder Q.
Proof.
  split; simpl.
  - intros a b. rewrite Q_lt_iff, Q_le_false_iff. auto.
  - intros a b. rewrite Qeq_bool_iff, Q_lt_false_iff. intros ->. apply Qle_refl.
  - intros a b. rewrite Q_lt_iff, Qle_bool_iff. apply Qlt_le_weak.
  - intros a b. rewrite !Q_lt_iff. unfold int; simpl. lra.
  - intros a b v. rewrite !Qeq_bool_iff, Q_lt_false_iff. unfold int; simpl.
    intros -> ->. lra.
Qed.

(** ** Route construction *)

Section RouteProperties.
Context {num : Type} `{JsNumber num}.
Local Open Scope js_scope.

Lemma create_unfold (props : RouteProps.t num) :
  Route.create props =
  match Route.validate (routeOf props) with
  | inl e => inl e
  | inr _ => inr (routeOf props)
  end.
Proof. reflexivity. Qed.

(** C7.  [Route.create] fails exactly when [ghgIntensity <= 0], or
    [fuelConsumption <= 0], or [year < 2024]; the checks run in that
    order and the first that fails gives the message; the failure is a
    [ValidationError]; and a candidate that passes the three checks comes
    back as the route with exactly its field values (the model has no
    operation that changes a route: the fields are [readonly]). *)
Theorem route_create_validates (props : RouteProps.t num) :
  ((RouteProps.ghgIntensity props <=? int 0) = true ->
   Route.create props
   = inl (ValidationError (Text "GHG intensity must be positive")))
  /\ ((RouteProps.ghgIntensity props <=? int 0) = false ->
      (RouteProps.fuelConsumption props <=? int 0) = true ->
      Route.create props
      = inl (ValidationError (Text "Fuel consumption must be positive")))
  /\ ((RouteProps.ghgIntensity props <=? int 0) = false ->
      (RouteProps.fuelConsumption props <=? int 0) = false ->
      (RouteProps.year props <? int 2024) = true ->
      Route.create props
      = inl (ValidationError (Text "Year must be 2024 or later")))
  /\ ((RouteProps.ghgIntensity props <=? int 0) = false ->
      (RouteProps.fuelConsumption props <=? int 0) = false ->
      (RouteProps.year props <? int 2024) = false ->
      Route.create props = inr (routeOf props))
  /\ ((exists e, Route.create props = inl e) <->
      (RouteProps.ghgIntensity props <=? int 0) = true
      \/ (RouteProps.fuelConsumption props <=? int 0) = true
      \/ (RouteProps.year props <? int 2024) = true)
  /\ (forall e, Route.create props = inl e -> isValidationError e = true).
Proof.
  rewrite create_unfold. unfold Route.validate, routeOf. simpl.
  destruct (RouteProps.ghgIntensity props <=? int 0) eqn:G;
    destruct (RouteProps.fuelConsumption props <=? int 0) eqn:F;
    destruct (RouteProps.year props <? int 2024) eqn:Y;
    repeat split; intros; try discriminate; try reflexivity; eauto;
    try (match goal with
         | Hx : exists _, _ |- _ => destruct Hx; discriminate
         | Hx : _ \/ _ |- _ => destruct Hx as [|[|]]; discriminate
         | Hx : inl _ = inl _ |- _ => injection Hx as <-; reflexivity
         end).
Qed.

End RouteProperties.

(** Route construction with intensity 0, and with year 2023, on doubles. *)
Example route_rejected_examples :
  Route.create
    (RouteProps.mk "1" "R001" CONTAINER HFO (int 2024) (int 0 : float)
       (int 5000) (int 12000) false)
  = inl (ValidationError (Text "GHG intensity must be positive"))
  /\ Route.create
       (RouteProps.mk "1" "R001" CONTAINER HFO (int 2023) (int 91 : float)
          (int 5000) (int 12000) false)
     = inl (ValidationError (Text "Year must be 2024 or later")).
Proof. split; vm_compute; reflexivity. Qed.

(** ** Banking a surplus *)

Section BankSurplusProperties.
Context {num : Type} `{JsNumber num}.
Local Open Scope js_scope.

(** C6.  The checks of [bankSurplus] run in the order record found, CB
    positive, amount within CB; each failure leaves the store as it was;
    success is one call of the bank repository's [create] with the
    command's ship, year and full amount, which in the store appends
    exactly one bank entry with that amount and zero applied.  On
    doubles: CB 750.5 with amount 500 succeeds, amount 800 fails with
    AmountExceedsAvailable, and CB -100 fails with NonPositiveCB. *)
Theorem bank_surplus_checks_in_order :
  (forall (S : Type) (complianceRepo : IComplianceRepository.t num S)
          (bankRepo : IBankRepository.t num S)
          (command : BankSurplusCommand.t num) (s : S),
     let found :=
       IComplianceRepository.findByShipAndYear complianceRepo
         (BankSurplusCommand.shipId command) (BankSurplusCommand.year command) s in
     let run := BankSurplusUseCase.execute complianceRepo bankRepo command s in
     (found = None -> run = (inl RecordNotFound, s))
     /\ (forall r, found = Some r ->
         (ComplianceRecord.cbGco2eq r <=? int 0) = true ->
         run = (inl NonPositiveCB, s))
     /\ (forall r, found = Some r ->
         (ComplianceRecord.cbGco2eq r <=? int 0) = false ->
         (BankSurplusCommand.amount command >? ComplianceRecord.cbGco2eq r) = true ->
         run = (inl AmountExceedsAvailable, s))
     /\ (forall r, found = Some r ->
         (ComplianceRecord.cbGco2eq r <=? int 0) = false ->
         (BankSurplusCommand.amount command >? ComplianceRecord.cbGco2eq r) = false ->
         run = (inr tt,
                IBankRepository.create bankRepo
                  (NewBankEntry.mk (BankSurplusCommand.shipId command)
                     (BankSurplusCommand.year command)
                     (BankSurplusCommand.amount command)) s)))
  /\ (forall (command : BankSurplusCommand.t num) (s : Store.t num),
      let run :=
        BankSurplusUseCase.execute Memory.complianceRepo Memory.bankRepo command s in
      (fst run = inr tt ->
       Store.bankEntries (snd run)
       = Store.bankEntries s
         ++ [BankEntry.mk (BankSurplusCommand.shipId command)
               (BankSurplusCommand.year command)
               (BankSurplusCommand.amount command) (int 0)])
      /\ (forall e, fst run = inl e -> snd run = s))
  /\ (fst (BankSurplusUseCase.execute Memory.complianceRepo Memory.bankRepo
             (bank (int 500)) (storeWithCB (lit 7505 10 : float)))
      = inr tt
      /\ fst (BankSurplusUseCase.execute Memory.complianceRepo Memory.bankRepo
                (bank (int 800)) (storeWithCB (lit 7505 10 : float)))
         = inl AmountExceedsAvailable
      /\ fst (BankSurplusUseCase.execute Memory.complianceRepo Memory.bankRepo
                (bank (int 500)) (storeWithCB (int (-100) : float)))
         = inl NonPositiveCB).
Proof.
  split; [|split].
  - intros S complianceRepo bankRepo command s found run.
    subst found run. unfold BankSurplusUseCase.execute, bind, read, throw, write_.
    destruct (IComplianceRepository.findByShipAndYear _ _ _ _) as [r|].
    + repeat split; try discriminate; intros r' [= <-] Hle;
        rewrite Hle; try reflexivity; intros Hgt; rewrite Hgt; reflexivity.
    + repeat split; try reflexivity; intros; discriminate.
  - intros command s run. subst run.
    unfold BankSurplusUseCase.execute, bind, read, throw, write_. simpl.
    destruct (Memory.findByShipAndYear _ _ _) as [r|]; simpl.
    + destruct (ComplianceRecord.cbGco2eq r <=? int 0); simpl.
      * split; [discriminate | reflexivity].
      * destruct (BankSurplusCommand.amount command >? ComplianceRecord.cbGco2eq r);
          simpl; split; try discriminate; reflexivity.
    + split; [discriminate | reflexivity].
  - repeat split; vm_compute; reflexivity.
Qed.

End BankSurplusProperties.

(** ** Creating a pool: the preconditions *)

Section CreatePoolControl.
Context {num : Type} `{JsNumber num} {ord : JsOrder num}.
Local Open Scope js_scope.

Lemma checkAllocations_error (originalMap : list (string * num))
  (allocated : list (PoolAllocation.t num)) (e : Exception num) :
  CreatePoolUseCase.checkAllocations originalMap allocated = inl e ->
  (exists shipId after before, e = MemberExitsWorse shipId after before)
  \/ (exists shipId after, e = MemberExitsNegative shipId after).
Proof.
  induction allocated as [|alloc rest IH]; simpl; [discriminate|].
  unfold CreatePoolUseCase.checkAllocation.
  destruct (Map_get originalMap (PoolAllocation.shipId alloc)) as [before|]; auto.
  destruct ((before <? int 0) && (PoolAllocation.cbAfter alloc <? before)).
  { intros [= <-]. left. do 3 eexists. reflexivity. }
  destruct ((before >? int 0) && (PoolAllocation.cbAfter alloc <? int 0)); auto.
  intros [= <-]. right. do 2 eexists. reflexivity.
Qed.

Lemma validatePoolingRules_error (original : list (PoolMemberInput.t num))
  (allocated : list (PoolAllocation.t num)) (e : Exception num) :
  CreatePoolUseCase.validatePoolingRules original allocated = inl e ->
  e <> PoolMinimumMembers /\ e <> PoolNegativeTotal.
Proof.
  intros V. apply checkAllocations_error in V.
  destruct V as [(i & a & b & ->)|(i & a & ->)]; split; discriminate.
Qed.

(** The run of [execute], case by case. *)
Lemma create_pool_run (S : Type) (poolRepo : IPoolRepository.t num S)
  (command : CreatePoolCommand.t num) (s : S) :
  let members := CreatePoolCommand.members command in
  let allocations := CreatePoolUseCase.greedyAllocate members in
  CreatePoolUseCase.execute poolRepo command s =
  if (List.length members <? 2)%nat then (inl PoolMinimumMembers, s)
  else if CreatePoolUseCase.totalCB members <? int 0 then (inl PoolNegativeTotal, s)
  else match CreatePoolUseCase.validatePoolingRules members allocations with
       | inl e => (inl e, s)
       | inr _ =>
         let created :=
           IPoolRepository.create poolRepo
             (NewPool.mk (CreatePoolCommand.year command) allocations) s in
         (inr (fst created, allocations), snd created)
       end.
Proof.
  unfold CreatePoolUseCase.execute, throw, bind, write, ret. simpl.
  destruct (List.length _ <? 2)%nat; [reflexivity|].
  destruct (CreatePoolUseCase.totalCB _ <? int 0); [reflexivity|].
  destruct (CreatePoolUseCase.validatePoolingRules _ _); [reflexivity|].
  destruct (IPoolRepository.create _ _ _). reflexivity.
Qed.

(** The two checks of [execute], read on the total that it computes:
    it fails with PoolMinimumMembers exactly when the list has fewer
    than two members; with two or more it fails with PoolNegativeTotal
    exactly when [totalCB] is below zero (so the length is checked
    first); both are [ValidationError]s; a total that is zero passes
    both checks; and on either failure the store is what it was, so no
    pool was persisted (the result is the error and carries no
    allocation). *)
Lemma create_pool_checks (S : Type) (poolRepo : IPoolRepository.t num S)
  (command : CreatePoolCommand.t num) (s : S) :
  let members := CreatePoolCommand.members command in
  let run := CreatePoolUseCase.execute poolRepo command s in
  (fst run = inl PoolMinimumMembers <-> (List.length members < 2)%nat)
  /\ ((2 <= List.length members)%nat ->
      (fst run = inl PoolNegativeTotal <->
       (CreatePoolUseCase.totalCB members <? int 0) = true))
  /\ isValidationError (PoolMinimumMembers : Exception num) = true
  /\ isValidationError (PoolNegativeTotal : Exception num) = true
  /\ ((2 <= List.length members)%nat ->
      (CreatePoolUseCase.totalCB members === int 0) = true ->
      CreatePoolUseCase.accepted members = true
      /\ fst run <> inl PoolMinimumMembers /\ fst run <> inl PoolNegativeTotal)
  /\ (fst run = inl PoolMinimumMembers \/ fst run = inl PoolNegativeTotal ->
      snd run = s).
Proof.
  intros members run. subst run. rewrite create_pool_run. fold members.
  unfold CreatePoolUseCase.accepted. fold members.
  destruct (List.length members <? 2)%nat eqn:L.
  - apply Nat.ltb_lt in L. simpl.
    repeat split; auto; try discriminate; intros; try lia.
  - apply Nat.ltb_ge in L.
    destruct (CreatePoolUseCase.totalCB members <? int 0) eqn:T; simpl.
    + repeat split; auto; try discriminate; try lia;
        match goal with
        | Z : (_ === _) = true |- _ => apply eq_not_lt in Z; congruence
        end.
    + destruct (CreatePoolUseCase.validatePoolingRules members _) as [e|[]] eqn:V; simpl.
      * apply validatePoolingRules_error in V. destruct V as [V1 V2].
        repeat split; auto; try discriminate; try lia; try congruence.
      * repeat split; auto; try discriminate; try lia;
          intros [E|E]; discriminate.
Qed.

End CreatePoolControl.

(** The pool {100, -150} and the pool of a single member, on doubles. *)
Example create_pool_rejected_examples :
  CreatePoolUseCase.execute Memory.poolRepo
    (CreatePoolCommand.mk (int 2025)
       [member "S001" (int 100 : float); member "S002" (int (-150))])
    emptyStore
  = (inl PoolNegativeTotal, emptyStore)
  /\ CreatePoolUseCase.execute Memory.poolRepo
       (CreatePoolCommand.mk (int 2025) [member "S001" (int 100 : float)])
       emptyStore
     = (inl PoolMinimumMembers, emptyStore).
Proof. split; vm_compute; reflexivity. Qed.

(** ** Banking a surplus: what it leaves alone and what it does not bound *)

Section BankSurplusFrame.
Context {num : Type} `{JsNumber num} {ord : JsOrder num}.
Local Open Scope js_scope.

Lemma le_not_gt (a b : num) : (a <=? b) = true -> (a >? b) = false.
Proof.
  intros L. destruct (a >? b) eqn:G; [|reflexivity].
  apply lt_not_ge in G. congruence.
Qed.

Lemma gt_not_le (a b : num) : (a >? b) = true -> (a <=? b) = false.
Proof. apply lt_not_ge. Qed.

(** C9.  [bankSurplus] leaves the compliance records (and the routes and
    pools) of the store as they were, whether it succeeds or fails.  Its
    amount check has no lower bound and does not look at what was banked
    before: whatever the store holds, for a record with [cb > 0] every
    amount [<= cb] succeeds, in particular the amount zero and every
    negative amount.  And two successful calls of 500 against a CB of
    750.5 leave a banked total above the CB. *)
Theorem bank_surplus_frame_and_bounds :
  (forall (command : BankSurplusCommand.t num) (s : Store.t num),
     let s' :=
       snd (BankSurplusUseCase.execute Memory.complianceRepo Memory.bankRepo command s) in
     Store.shipCompliance s' = Store.shipCompliance s
     /\ Store.routes s' = Store.routes s
     /\ Store.pools s' = Store.pools s)
  /\ (forall (S : Type) (complianceRepo : IComplianceRepository.t num S)
             (bankRepo : IBankRepository.t num S)
             (command : BankSurplusCommand.t num) (s : S) (r : ComplianceRecord.t num),
        IComplianceRepository.findByShipAndYear complianceRepo
          (BankSurplusCommand.shipId command) (BankSurplusCommand.year command) s
        = Some r ->
        (ComplianceRecord.cbGco2eq r >? int 0) = true ->
        ((BankSurplusCommand.amount command <=? ComplianceRecord.cbGco2eq r) = true
         \/ BankSurplusCommand.amount command = int 0
         \/ (BankSurplusCommand.amount command <? int 0) = true) ->
        BankSurplusUseCase.execute complianceRepo bankRepo command s
        = (inr tt,
           IBankRepository.create bankRepo
             (NewBankEntry.mk (BankSurplusCommand.shipId command)
                (BankSurplusCommand.year command)
                (BankSurplusCommand.amount command)) s))
  /\ (let cb : float := lit 7505 10 in
      let s1 := snd (runBank (int 500) (storeWithCB cb)) in
      let s2 := snd (runBank (int 500) s1) in
      fst (runBank (int 500) (storeWithCB cb)) = inr tt
      /\ fst (runBank (int 500) s1) = inr tt
      /\ (Memory.getTotalBanked "S001" (int 2025) s2 >? cb) = true).
Proof.
  split; [|split].
  - intros command s s'. subst s'.
    unfold BankSurplusUseCase.execute, bind, read, throw, write_. simpl.
    destruct (Memory.findByShipAndYear _ _ _) as [r|]; simpl; auto.
    destruct (ComplianceRecord.cbGco2eq r <=? int 0); simpl; auto.
    destruct (BankSurplusCommand.amount command >? ComplianceRecord.cbGco2eq r);
      simpl; auto.
  - intros S complianceRepo bankRepo command s r F P A.
    assert (G : (BankSurplusCommand.amount command >? ComplianceRecord.cbGco2eq r) = false).
    { destruct A as [L|[Z|N]].
      - apply le_not_gt, L.
      - rewrite Z. apply le_not_gt, lt_le, P.
      - apply le_not_gt, lt_le, (neg_lt_pos _ _ N P). }
    unfold BankSurplusUseCase.execute, bind, read, throw, write_. rewrite F.
    rewrite (gt_not_le _ _ P), G. reflexivity.
  - repeat split; vm_compute; reflexivity.
Qed.

End BankSurplusFrame.

(** On doubles, against a CB of 750.5: the amount zero is banked. *)
Lemma bank_surplus_frame_and_bounds_witness :
  runBank (int 0) (storeWithCB (lit 7505 10 : float))
  = (inr tt,
     Memory.create (NewBankEntry.mk "S001" (int 2025) (int 0))
       (storeWithCB (lit 7505 10))).
Proof.
  destruct (bank_surplus_frame_and_bounds (ord := f64_order)) as (_ & B & _).
  apply (B _ Memory.complianceRepo Memory.bankRepo (bank (int 0))
           (storeWithCB (lit 7505 10))
           (ComplianceRecord.mk "CB0" "S001" (int 2025) (lit 7505 10)
              (Some "R002"%string) 0%Z)).
  - vm_compute. reflexivity.
  - vm_compute. reflexivity.
  - right. left. reflexivity.
Defined.

(** ** Sums of rationals, as the folds compute them *)

Section ExactSums.
Context {A : Type}.
Variable f : A -> Q.

Lemma fold_sum_from (l : list A) (a : Q) :
  fold_left (fun sum x => sum + f x) l a == a + fold_left (fun sum x => sum + f x) l 0.
Proof.
  revert a. induction l as [|x l IH]; intros a; simpl.
  - lra.
  - rewrite IH, (IH (0 + f x)). lra.
Qed.

Lemma fold_sum_cons (x : A) (l : list A) :
  fold_left (fun sum x => sum + f x) (x :: l) 0
  == f x + fold_left (fun sum x => sum + f x) l 0.
Proof. simpl. rewrite fold_sum_from. lra. Qed.

Lemma fold_sum_app (l1 l2 : list A) :
  fold_left (fun sum x => sum + f x) (l1 ++ l2) 0
  == fold_left (fun sum x => sum + f x) l1 0 + fold_left (fun sum x => sum + f x) l2 0.
Proof.
  rewrite fold_left_app, fold_sum_from. reflexivity.
Qed.

End ExactSums.

(** ** Applying banked surplus *)

Section ApplyBankedExact.
Local Open Scope Q_scope.

Lemma totalOf_cons (e : BankEntry.t Q) (l : list (BankEntry.t Q)) :
  Memory.totalOf (e :: l) == Memory.unapplied e + Memory.totalOf l.
Proof. apply (fold_sum_cons Memory.unapplied). Qed.

Lemma appliedOf_cons (e : BankEntry.t Q) (l : list (BankEntry.t Q)) :
  Memory.appliedOf (e :: l) == BankEntry.appliedAmount e + Memory.appliedOf l.
Proof. apply (fold_sum_cons (@BankEntry.appliedAmount Q)). Qed.

Lemma applyToOldest_totals (shipId : string) (year amount : Q)
  (entries : list (BankEntry.t Q)) :
  Memory.entriesOf shipId year entries <> [] ->
  Memory.totalOf (Memory.entriesOf shipId year
                    (Memory.applyToOldest shipId year amount entries))
  == Memory.totalOf (Memory.entriesOf shipId year entries) - amount
  /\ Memory.appliedOf (Memory.entriesOf shipId year
                         (Memory.applyToOldest shipId year amount entries))
     == Memory.appliedOf (Memory.entriesOf shipId year entries) + amount.
Proof.
  induction entries as [|e rest IH]; simpl; [congruence|].
  destruct (Memory.sameKey shipId year (BankEntry.shipId e) (BankEntry.year e)) eqn:K;
    simpl; rewrite K.
  - intros _. rewrite !totalOf_cons, !appliedOf_cons.
    unfold Memory.unapplied; simpl. split; lra.
  - exact IH.
Qed.

(** [applyBanked] fails with NoBankedSurplus when the unapplied banked
    total of the key is [<= 0], otherwise with AmountExceedsBanked when
    the amount is above that total, each time leaving the store as it
    was; otherwise it is the repository's [applyBanked] with the
    command's amount.  In exact arithmetic on the store, a successful
    call increases the applied total of the key by the amount, lowers the
    unapplied total by the amount, and leaves it non-negative. *)
Lemma apply_banked_exact :
  (forall (num S : Type) (N : JsNumber num) (bankRepo : IBankRepository.t num S)
          (command : ApplyBankedCommand.t num) (s : S),
     let total :=
       IBankRepository.getTotalBanked bankRepo (ApplyBankedCommand.shipId command)
         (ApplyBankedCommand.year command) s in
     let run := ApplyBankedUseCase.execute bankRepo command s in
     ((total <=? int 0)%js = true ->
      run = (inl ApplyBankedUseCase.NoBankedSurplus, s))
     /\ ((total <=? int 0)%js = false ->
         (ApplyBankedCommand.amount command >? total)%js = true ->
         run = (inl ApplyBankedUseCase.AmountExceedsBanked, s))
     /\ ((total <=? int 0)%js = false ->
         (ApplyBankedCommand.amount command >? total)%js = false ->
         run = IBankRepository.applyBanked bankRepo
                 (ApplyBankedCommand.shipId command)
                 (ApplyBankedCommand.year command)
                 (ApplyBankedCommand.amount command) s))
  /\ (forall (command : ApplyBankedCommand.t Q) (s : Store.t Q),
      let shipId := ApplyBankedCommand.shipId command in
      let year := ApplyBankedCommand.year command in
      let s' := snd (runApply command s) in
      fst (runApply command s) = inr tt ->
      Memory.totalApplied shipId year s'
      == Memory.totalApplied shipId year s + ApplyBankedCommand.amount command
      /\ Memory.getTotalBanked shipId year s'
         == Memory.getTotalBanked shipId year s - ApplyBankedCommand.amount command
      /\ 0 <= Memory.getTotalBanked shipId year s').
Proof.
  split.
  - intros num S N bankRepo command s total run. subst total run.
    unfold ApplyBankedUseCase.execute, bind, read, throw.
    destruct (_ <=? int 0)%js;
      [repeat split; intros; try discriminate; reflexivity|].
    destruct (_ >? _)%js; repeat split; intros; try discriminate; reflexivity.
  - intros command s shipId year s'. subst s'.
    unfold runApply, ApplyBankedUseCase.execute, bind, read, throw. simpl.
    fold shipId year.
    destruct (Qle_bool (Memory.getTotalBanked shipId year s) 0) eqn:P;
      simpl; [discriminate|].
    destruct (Q_lt (Memory.getTotalBanked shipId year s)
                (ApplyBankedCommand.amount command)) eqn:G; simpl; [discriminate|].
    intros _. apply Q_le_false_iff in P. apply Q_lt_false_iff in G.
    assert (NE : Memory.entriesOf shipId year (Store.bankEntries s) <> []).
    { intros E. unfold Memory.getTotalBanked in P. rewrite E in P.
      unfold Memory.totalOf in P. simpl in P. revert P. apply Qlt_irrefl. }
    destruct (applyToOldest_totals shipId year (ApplyBankedCommand.amount command)
                (Store.bankEntries s) NE) as [T A].
    unfold Memory.getTotalBanked, Memory.totalApplied, Memory.increaseApplied. simpl.
    repeat split; try assumption.
    unfold Memory.getTotalBanked in G. rewrite T. lra.
Qed.

End ApplyBankedExact.

(** ** The Compliance Balance formula *)

Section TargetIntensity.
Local Open Scope js_scope.

Lemma unlisted_reduction {num} `{JsNumber num} (year : num) :
  listed year = false -> ComputeCBUseCase.reductionPercent year = int 2.
Proof.
  unfold listed, ComputeCBUseCase.reductionPercent, ComputeCBUseCase.property.
  intros L.
  destruct (find _ ComputeCBUseCase.reductionRates) as [kv|] eqn:F; [|reflexivity].
  apply find_some in F. destruct F as [I K].
  assert (E : existsb (fun kv => fst kv === year) ComputeCBUseCase.reductionRates = true)
    by (apply existsb_exists; eauto).
  congruence.
Qed.

(** C4.  For every year the target intensity is
    [91.16 * (1 - reduction/100)], where [reduction] is the table's
    percentage for the year and 2 for a year that is not in the table.
    For the listed years the percentages are 2, 6, 14.5, 31, 62 and 80 and
    the targets are 89.3368, 85.6904, 77.9418, 62.9004, 34.6408 and
    18.2320: exactly so in exact arithmetic, and within [10^-12] in
    doubles.  An unlisted year has the target of 2025; 2024 is one. *)
Theorem target_intensity_table :
  (forall (num : Type) (N : JsNumber num) (year : num),
     ComputeCBUseCase.getTargetIntensity year
     = lit 9116 100 * (int 1 - ComputeCBUseCase.reductionPercent year / int 100))
  /\ (forall (num : Type) (N : JsNumber num) (year : num),
        listed year = false ->
        ComputeCBUseCase.reductionPercent year = int 2
        /\ ComputeCBUseCase.getTargetIntensity year
           = lit 9116 100 * (int 1 - int 2 / int 100))
  /\ Forall (fun yr : Z * (Z * positive) =>
               ComputeCBUseCase.reductionPercent (int (fst yr) : Q)
               = lit (fst (snd yr)) (snd (snd yr))
               /\ ComputeCBUseCase.reductionPercent (int (fst yr) : float)
                  = lit (fst (snd yr)) (snd (snd yr)))
            expectedReductions
  /\ Forall (fun yt : Z * Z =>
               (ComputeCBUseCase.getTargetIntensity (int (fst yt) : Q)
                == snd yt # 10000)%Q
               /\ near (ComputeCBUseCase.getTargetIntensity (int (fst yt) : float))
                       (lit (snd yt) 10000) tiny = true)
            expectedTargets
  /\ (listed (int 2024 : Q) = false
      /\ (ComputeCBUseCase.getTargetIntensity (int 2024 : Q) == 893368 # 10000)%Q)
  /\ (listed (int 2024 : float) = false
      /\ ComputeCBUseCase.getTargetIntensity (int 2024 : float)
         = ComputeCBUseCase.getTargetIntensity (int 2025 : float)).
Proof.
  split; [reflexivity|].
  split.
  { intros num N year L. unfold ComputeCBUseCase.getTargetIntensity.
    rewrite (unlisted_reduction _ L). auto. }
  split.
  { unfold expectedReductions. repeat constructor. }
  split.
  { unfold expectedTargets. repeat constructor; vm_compute; reflexivity. }
  split; split; vm_compute; reflexivity.
Qed.

End TargetIntensity.

Section ComputeCB.
Local Open Scope js_scope.

(** C3 (amended).  When the route repository resolves the command's route
    code, [computeCB] returns the balance
    [(targetIntensity(year) - ghgIntensity) * (fuelConsumption * 41000) / 1000000]
    for the command's year and ship, after saving it through the
    compliance repository; when it does not, it fails with RouteNotFound
    and writes nothing.  For intensity 88 and consumption 4800 in 2025
    the balance is 263.08224 in exact arithmetic and within 0.005 of
    263.08 in doubles. *)
Theorem compute_cb_formula :
  (forall (num S : Type) (N : JsNumber num)
          (routeRepo : IRouteRepository.t num S)
          (complianceRepo : IComplianceRepository.t num S)
          (command : ComputeCBCommand.t num) (s : S),
     match IRouteRepository.findByRouteId routeRepo
             (ComputeCBCommand.routeId command) s with
     | Some route =>
       let cb :=
         (ComputeCBUseCase.getTargetIntensity (ComputeCBCommand.year command)
          - Route.ghgIntensity route)
         * (Route.fuelConsumption route * int 41000) / int 1000000 in
       ComputeCBUseCase.execute routeRepo complianceRepo command s
       = (inr (ComplianceBalance.mk cb (ComputeCBCommand.year command)
                 (ComputeCBCommand.shipId command)),
          snd (IComplianceRepository.save complianceRepo
                 (NewComplianceRecord.mk (ComputeCBCommand.shipId command)
                    (ComputeCBCommand.year command) cb
                    (Some (Route.routeId route))) s))
     | None =>
       ComputeCBUseCase.execute routeRepo complianceRepo command s
       = (inl RouteNotFound, s)
     end)
  /\ (exists cb : Q,
        computedCB (storeWithRoute (int 88) (int 4800)) = Some cb
        /\ (cb == 26308224 # 100000)%Q)
  /\ (exists cb : float,
        computedCB (storeWithRoute (int 88) (int 4800)) = Some cb
        /\ near cb (lit 26308 100) (lit 5 1000) = true).
Proof.
  split; [|split].
  - intros num S N routeRepo complianceRepo command s.
    unfold ComputeCBUseCase.execute, bind, read, write, throw, ret.
    destruct (IRouteRepository.findByRouteId _ _ _) as [route|]; [|reflexivity].
    simpl. unfold Route.calculateEnergyInScope.
    destruct (IComplianceRepository.save _ _ _). reflexivity.
  - eexists. split; [vm_compute; reflexivity | vm_compute; reflexivity].
  - eexists. split; vm_compute; reflexivity.
Qed.

(** C3 as the specification words it: the balance of the example is not
    262.68, neither in exact arithmetic nor in doubles; it is above 263. *)
Lemma compute_cb_example_is_not_262_68 :
  (exists cb : Q,
     computedCB (storeWithRoute (int 88) (int 4800)) = Some cb
     /\ near cb (lit 26268 100) (lit 5 1000) = false
     /\ (cb >? int 263) = true)
  /\ (exists cb : float,
        computedCB (storeWithRoute (int 88) (int 4800)) = Some cb
        /\ near cb (lit 26268 100) (lit 5 1000) = false
        /\ (cb >? int 263) = true).
Proof.
  split; eexists; (split; [vm_compute; reflexivity|]); split; vm_compute; reflexivity.
Qed.

End ComputeCB.

(** ** The allocator: the sort and what the loops leave alone *)

Section SortProperties.
Context {num A : Type} `{JsNumber num}.
Variable compareFn : A -> A -> num.
Local Open Scope js_scope.

Lemma insert_Permutation (x : A) (l : list A) :
  Permutation (insert compareFn x l) (x :: l).
Proof.
  induction l as [|y rest IH]; simpl; [reflexivity|].
  destruct (compareFn x y >? int 0); [|reflexivity].
  rewrite IH. apply perm_swap.
Qed.

Lemma Array_sort_Permutation (l : list A) : Permutation (Array_sort compareFn l) l.
Proof.
  induction l as [|x rest IH]; simpl; [reflexivity|].
  rewrite insert_Permutation. now constructor.
Qed.

End SortProperties.

Section AllocatorShape.
Context {num : Type} `{JsNumber num}.
Local Open Scope js_scope.

Lemma modify_identity (i : nat) (f : num -> num) (l : list (PoolAllocation.t num)) :
  map identity (modify i (CreatePoolUseCase.setCbAfter f) l) = map identity l.
Proof.
  revert i. induction l as [|a rest IH]; intros [|i]; simpl; try reflexivity.
  now rewrite IH.
Qed.

Lemma transferToDeficits_identity (i k : nat) (l : list (PoolAllocation.t num)) :
  map identity (CreatePoolUseCase.transferToDeficits i k l) = map identity l.
Proof.
  revert l. induction k as [|j IH]; intros l; simpl; [reflexivity|].
  destruct (CreatePoolUseCase.cbAfterAt l j <? int 0); [|apply IH].
  match goal with
  | |- map identity (if ?c then ?x else _) = _ =>
    destruct c; [|rewrite IH]; rewrite !modify_identity; reflexivity
  end.
Qed.

Lemma transferSurplus_identity (l : list (PoolAllocation.t num)) (i : nat) :
  map identity (CreatePoolUseCase.transferSurplus l i) = map identity l.
Proof.
  unfold CreatePoolUseCase.transferSurplus.
  destruct (CreatePoolUseCase.cbAfterAt l i >? int 0); [|reflexivity].
  apply transferToDeficits_identity.
Qed.

Lemma fold_transferSurplus_identity (indices : list nat) (l : list (PoolAllocation.t num)) :
  map identity (fold_left CreatePoolUseCase.transferSurplus indices l) = map identity l.
Proof.
  revert l. induction indices as [|i rest IH]; intros l; simpl; [reflexivity|].
  now rewrite IH, transferSurplus_identity.
Qed.

Lemma greedyAllocate_identity (members : list (PoolMemberInput.t num)) :
  map identity (CreatePoolUseCase.greedyAllocate members)
  = map (fun m => (PoolMemberInput.shipId m, PoolMemberInput.cbBefore m))
        (sortedCopy members).
Proof.
  unfold CreatePoolUseCase.greedyAllocate.
  rewrite fold_transferSurplus_identity, map_map. reflexivity.
Qed.

End AllocatorShape.

(** ** The allocator in exact arithmetic *)

Section ModifyLemmas.
Context {A : Type}.

Lemma modify_length (i : nat) (g : A -> A) (l : list A) :
  List.length (modify i g l) = List.length l.
Proof.
  revert i. induction l as [|x rest IH]; intros [|i]; simpl; auto.
Qed.

Lemma nth_error_modify_same (i : nat) (g : A -> A) (l : list A) :
  nth_error (modify i g l) i = option_map g (nth_error l i).
Proof.
  revert i. induction l as [|x rest IH]; intros [|i]; simpl; auto.
Qed.

Lemma nth_error_modify_other (i k : nat) (g : A -> A) (l : list A) :
  i <> k -> nth_error (modify i g l) k = nth_error l k.
Proof.
  revert i k. induction l as [|x rest IH]; intros [|i] [|k] N; simpl; auto; try congruence.
Qed.

Lemma Forall_modify (P : A -> Prop) (i : nat) (g : A -> A) (l : list A) :
  Forall P l ->
  (forall a, nth_error l i = Some a -> P a -> P (g a)) ->
  Forall P (modify i g l).
Proof.
  intros F. revert i. induction F as [|x rest Px F IH]; intros [|i] G; simpl;
    constructor; auto.
Qed.

End ModifyLemmas.

Section ExactAllocator.
Local Open Scope Q_scope.

Local Abbreviation allocs := (list (PoolAllocation.t Q)).
Local Abbreviation at_ := (@CreatePoolUseCase.cbAfterAt Q exact).

Lemma at_modify_same (i : nat) (f : Q -> Q) (l : allocs) :
  (i < List.length l)%nat ->
  at_ (modify i (CreatePoolUseCase.setCbAfter f) l) i = f (at_ l i).
Proof.
  intros L. unfold CreatePoolUseCase.cbAfterAt. rewrite nth_error_modify_same.
  destruct (nth_error l i) eqn:E; [reflexivity|].
  apply nth_error_None in E. lia.
Qed.

Lemma at_modify_other (i k : nat) (g : PoolAllocation.t Q -> PoolAllocation.t Q) (l : allocs) :
  i <> k -> at_ (modify i g l) k = at_ l k.
Proof.
  intros N. unfold CreatePoolUseCase.cbAfterAt. now rewrite nth_error_modify_other.
Qed.

Lemma at_negative_in_range (l : allocs) (j : nat) :
  at_ l j < 0 -> (j < List.length l)%nat.
Proof.
  unfold CreatePoolUseCase.cbAfterAt. intros N.
  destruct (nth_error l j) eqn:E.
  - apply nth_error_Some. congruence.
  - exfalso. revert N. unfold int; simpl. apply Qlt_irrefl.
Qed.

Lemma at_positive_in_range (l : allocs) (i : nat) :
  0 < at_ l i -> (i < List.length l)%nat.
Proof.
  unfold CreatePoolUseCase.cbAfterAt. intros N.
  destruct (nth_error l i) eqn:E.
  - apply nth_error_Some. congruence.
  - exfalso. revert N. unfold int; simpl. apply Qlt_irrefl.
Qed.

(** The amount moved from a surplus [a > 0] to a deficit [b < 0]. *)
Lemma transfer_facts (a b : Q) :
  0 < a -> b < 0 ->
  let t := Q_min a (Qabs b) in
  0 < t /\ t <= a /\ t <= - b /\ (t == a \/ t == - b).
Proof.
  intros Pa Nb t. subst t. unfold Q_min.
  assert (E : Qabs b == - b) by (apply Qabs_neg; lra).
  destruct (Qle_bool a (Qabs b)) eqn:C.
  - apply Qle_bool_iff in C. rewrite E in C. repeat split; lra.
  - apply Q_le_false_iff in C. rewrite E in *. repeat split; lra.
Qed.

Lemma transferToDeficits_step (i j : nat) (l : allocs) :
  CreatePoolUseCase.transferToDeficits i (S j) l =
  if Q_lt (at_ l j) 0 then
    if Qeq_bool (at_ (afterTransfer i j l) i) 0 then afterTransfer i j l
    else CreatePoolUseCase.transferToDeficits i j (afterTransfer i j l)
  else CreatePoolUseCase.transferToDeficits i j l.
Proof. reflexivity. Qed.

Lemma afterTransfer_length (i j : nat) (l : allocs) :
  List.length (afterTransfer i j l) = List.length l.
Proof. unfold afterTransfer. now rewrite !modify_length. Qed.

(** The values after one transfer from a surplus [i] to a deficit [j]. *)
Lemma afterTransfer_values (i j : nat) (l : allocs) :
  0 < at_ l i -> at_ l j < 0 ->
  let t := Q_min (at_ l i) (Qabs (at_ l j)) in
  at_ (afterTransfer i j l) i = at_ l i - t
  /\ at_ (afterTransfer i j l) j = at_ l j + t
  /\ (forall k, k <> i -> k <> j -> at_ (afterTransfer i j l) k = at_ l k).
Proof.
  intros Pi Nj t.
  assert (Li := at_positive_in_range _ _ Pi).
  assert (Lj := at_negative_in_range _ _ Nj).
  assert (N : i <> j) by (intros ->; lra).
  unfold afterTransfer. fold t. repeat split.
  - rewrite at_modify_other by auto. now rewrite at_modify_same.
  - rewrite at_modify_same by (now rewrite modify_length).
    now rewrite at_modify_other.
  - intros k Ki Kj. now rewrite !at_modify_other by auto.
Qed.


Lemma sumCbAfter_cons (a : PoolAllocation.t Q) (l : allocs) :
  sumCbAfter (a :: l) == PoolAllocation.cbAfter a + sumCbAfter l.
Proof. apply (fold_sum_cons (@PoolAllocation.cbAfter Q)). Qed.

Lemma at_cons_S (a : PoolAllocation.t Q) (l : allocs) (i : nat) :
  at_ (a :: l) (S i) = at_ l i.
Proof. reflexivity. Qed.

Lemma sum_modify (i : nat) (f : Q -> Q) (l : allocs) :
  (i < List.length l)%nat ->
  sumCbAfter (modify i (CreatePoolUseCase.setCbAfter f) l)
  == sumCbAfter l - at_ l i + f (at_ l i).
Proof.
  revert i. induction l as [|a rest IH]; intros [|i] L; simpl in L; try lia.
  - simpl modify. rewrite !sumCbAfter_cons.
    unfold CreatePoolUseCase.cbAfterAt; simpl. lra.
  - simpl modify. rewrite !sumCbAfter_cons, at_cons_S, IH by lia. lra.
Qed.

Lemma afterTransfer_spec (i j : nat) (l : allocs) :
  0 < at_ l i -> at_ l j < 0 ->
  let l' := afterTransfer i j l in
  sumCbAfter l' == sumCbAfter l
  /\ (forall m, 0 <= at_ l m -> 0 <= at_ l' m)
  /\ (forall m, at_ l m <= 0 -> at_ l' m <= 0)
  /\ 0 <= at_ l' i
  /\ (at_ l' i == 0 \/ at_ l' j == 0)
  /\ (Forall between l -> Forall between l').
Proof.
  intros Pi Nj l'.
  destruct (afterTransfer_values _ _ _ Pi Nj) as (Vi & Vj & Vk).
  destruct (transfer_facts Pi Nj) as (T0 & Ti & Tj & Tm).
  fold l' in Vi, Vj, Vk.
  set (t := Q_min (at_ l i) (Qabs (at_ l j))) in *.
  assert (Li := at_positive_in_range _ _ Pi).
  assert (Lj := at_negative_in_range _ _ Nj).
  assert (N : i <> j) by (intros ->; lra).
  repeat split.
  - unfold l', afterTransfer. fold t.
    rewrite sum_modify by (now rewrite modify_length).
    rewrite at_modify_other by auto.
    rewrite sum_modify by auto. lra.
  - intros m Pm. destruct (Nat.eq_dec m i) as [->|Mi]; [rewrite Vi; lra|].
    destruct (Nat.eq_dec m j) as [->|Mj]; [lra|]. now rewrite Vk.
  - intros m Pm. destruct (Nat.eq_dec m i) as [->|Mi]; [lra|].
    destruct (Nat.eq_dec m j) as [->|Mj]; [rewrite Vj; lra|]. now rewrite Vk.
  - rewrite Vi. lra.
  - rewrite Vi, Vj. destruct Tm; [left|right]; lra.
  - intros B. unfold l', afterTransfer. fold t.
    apply Forall_modify; [apply Forall_modify; [exact B|]|].
    + intros a E Ba. unfold between in *. simpl.
      assert (V : at_ l i = PoolAllocation.cbAfter a)
        by (unfold CreatePoolUseCase.cbAfterAt; now rewrite E).
      rewrite V in *. destruct Ba; [left|right]; lra.
    + intros a E Ba. rewrite nth_error_modify_other in E by auto.
      unfold between in *. simpl.
      assert (V : at_ l j = PoolAllocation.cbAfter a)
        by (unfold CreatePoolUseCase.cbAfterAt; now rewrite E).
      rewrite V in *. destruct Ba; [left|right]; lra.
Qed.

(** The inner loop for a surplus ship [i]. *)
Lemma transferToDeficits_spec (i k : nat) (l : allocs) :
  0 < at_ l i ->
  let l' := CreatePoolUseCase.transferToDeficits i k l in
  List.length l' = List.length l
  /\ sumCbAfter l' == sumCbAfter l
  /\ (forall m, 0 <= at_ l m -> 0 <= at_ l' m)
  /\ (forall m, at_ l m <= 0 -> at_ l' m <= 0)
  /\ (at_ l' i == 0 \/ forall j, (j < k)%nat -> 0 <= at_ l' j)
  /\ (Forall between l -> Forall between l').
Proof.
  revert l. induction k as [|j IH]; intros l Pi l'.
  - subst l'. simpl. repeat split; auto; try reflexivity. right. intros; lia.
  - subst l'. rewrite transferToDeficits_step.
    destruct (Q_lt (at_ l j) 0) eqn:Nj.
    + apply Q_lt_iff in Nj.
      destruct (afterTransfer_spec _ _ _ Pi Nj) as (S2 & S3 & S4 & S5 & S6 & S7).
      destruct (Qeq_bool (at_ (afterTransfer i j l) i) 0) eqn:Z.
      * apply Qeq_bool_iff in Z.
        repeat split; auto using afterTransfer_length.
      * apply Qeq_bool_neq in Z.
        assert (Pi' : 0 < at_ (afterTransfer i j l) i) by lra.
        destruct (IH _ Pi') as (L & Sm & Np & Nn & Post & B).
        repeat split; auto.
        -- now rewrite L, afterTransfer_length.
        -- now rewrite Sm.
        -- destruct Post as [Zi|All]; [left; exact Zi|right].
           intros m Lm. destruct (Nat.eq_dec m j) as [->|Mj].
           ++ apply Np. destruct S6; lra.
           ++ apply All. lia.
    + apply Q_lt_false_iff in Nj.
      destruct (IH _ Pi) as (L & Sm & Np & Nn & Post & B).
      repeat split; auto.
      destruct Post as [Zi|All]; [left; exact Zi|right].
      intros m Lm. destruct (Nat.eq_dec m j) as [->|Mj].
      * apply Np. exact Nj.
      * apply All. lia.
Qed.

Lemma at_out_of_range (l : allocs) (j : nat) :
  (List.length l <= j)%nat -> at_ l j = 0.
Proof.
  intros L. unfold CreatePoolUseCase.cbAfterAt.
  apply nth_error_None in L. now rewrite L.
Qed.

(** One turn of the outer loop. *)
Lemma transferSurplus_spec (l : allocs) (i : nat) :
  let l' := CreatePoolUseCase.transferSurplus l i in
  List.length l' = List.length l
  /\ sumCbAfter l' == sumCbAfter l
  /\ (forall m, 0 <= at_ l m -> 0 <= at_ l' m)
  /\ (forall m, at_ l m <= 0 -> at_ l' m <= 0)
  /\ (at_ l' i <= 0 \/ forall j, 0 <= at_ l' j)
  /\ (Forall between l -> Forall between l').
Proof.
  intros l'. subst l'. unfold CreatePoolUseCase.transferSurplus.
  change (@js_lt Q exact (int 0) (at_ l i)) with (Q_lt 0 (at_ l i)).
  destruct (Q_lt 0 (at_ l i)) eqn:Pi.
  - apply Q_lt_iff in Pi.
    destruct (transferToDeficits_spec i (List.length l) l Pi) as (L & Sm & Np & Nn & Post & B).
    repeat split; auto.
    destruct Post as [Zi|All]; [left; lra|right].
    intros j. destruct (Nat.lt_ge_cases j (List.length l)) as [Lj|Lj]; [now apply All|].
    rewrite at_out_of_range by (now rewrite L). apply Qle_refl.
  - apply Q_lt_false_iff in Pi.
    repeat split; auto; try reflexivity.
Qed.

(** The outer loop over the first [m] ships. *)
Lemma transferAll_spec (m : nat) (l : allocs) :
  let l' := fold_left CreatePoolUseCase.transferSurplus (seq 0 m) l in
  List.length l' = List.length l
  /\ sumCbAfter l' == sumCbAfter l
  /\ ((forall i, (i < m)%nat -> at_ l' i <= 0) \/ forall j, 0 <= at_ l' j)
  /\ (Forall between l -> Forall between l').
Proof.
  induction m as [|m IH]; intros l'.
  - subst l'. simpl. repeat split; auto; try reflexivity. left. intros; lia.
  - subst l'. rewrite seq_S, fold_left_app. simpl.
    set (l1 := fold_left CreatePoolUseCase.transferSurplus (seq 0 m) l) in *.
    destruct IH as (L1 & S1 & I1 & B1).
    destruct (transferSurplus_spec l1 m) as (L & Sm & Np & Nn & Post & B).
    repeat split; auto.
    + now rewrite L.
    + now rewrite Sm.
    + destruct I1 as [Neg|All]; [|right; intros j; apply Np, All].
      destruct Post as [Zm|All]; [left|right; exact All].
      intros i Li. destruct (Nat.eq_dec i m) as [->|Mi]; [exact Zm|].
      apply Nn, Neg. lia.
Qed.

Lemma sum_nonpos (l : allocs) :
  (forall i, at_ l i <= 0) -> sumCbAfter l <= 0.
Proof.
  induction l as [|a rest IH]; intros N.
  - unfold sumCbAfter; simpl. apply Qle_refl.
  - rewrite sumCbAfter_cons.
    pose proof (N O) as N0. unfold CreatePoolUseCase.cbAfterAt in N0; simpl in N0.
    assert (sumCbAfter rest <= 0) by (apply IH; intros i; apply (N (S i))).
    lra.
Qed.

Lemma nonpos_sum_zero (l : allocs) :
  (forall i, at_ l i <= 0) -> 0 <= sumCbAfter l -> forall i, 0 <= at_ l i.
Proof.
  induction l as [|a rest IH]; intros N P i.
  - rewrite at_out_of_range by (simpl; lia). apply Qle_refl.
  - rewrite sumCbAfter_cons in P.
    pose proof (N O) as N0. unfold CreatePoolUseCase.cbAfterAt in N0; simpl in N0.
    assert (R : sumCbAfter rest <= 0) by (apply sum_nonpos; intros k; apply (N (S k))).
    destruct i as [|i].
    + unfold CreatePoolUseCase.cbAfterAt; simpl. lra.
    + rewrite at_cons_S. apply IH; [intros k; apply (N (S k))|lra].
Qed.

Lemma at_all_Forall (P : Q -> Prop) (l : allocs) :
  (forall i, P (at_ l i)) -> Forall (fun a => P (PoolAllocation.cbAfter a)) l.
Proof.
  intros A. apply Forall_forall. intros a I.
  apply In_nth_error in I. destruct I as [i E].
  specialize (A i). unfold CreatePoolUseCase.cbAfterAt in A. now rewrite E in A.
Qed.

Lemma fold_sum_map {A B : Type} (f : B -> Q) (g : A -> B) (l : list A) (a : Q) :
  fold_left (fun sum x => sum + f x) (map g l) a
  = fold_left (fun sum x => sum + f (g x)) l a.
Proof.
  revert a. induction l as [|x rest IH]; intros a; simpl; auto.
Qed.

Lemma fold_sum_Permutation {A : Type} (f : A -> Q) (l l' : list A) :
  Permutation l l' ->
  fold_left (fun sum x => sum + f x) l 0 == fold_left (fun sum x => sum + f x) l' 0.
Proof.
  induction 1 as [|x l l' P IH|x y l|l l' l'' P1 IH1 P2 IH2].
  - reflexivity.
  - rewrite !fold_sum_cons, IH. reflexivity.
  - rewrite !fold_sum_cons. lra.
  - now rewrite IH1.
Qed.

Lemma totalCB_sortedCopy (members : list (PoolMemberInput.t Q)) :
  CreatePoolUseCase.totalCB (sortedCopy members) == CreatePoolUseCase.totalCB members.
Proof.
  apply (fold_sum_Permutation (@PoolMemberInput.cbBefore Q)).
  apply Array_sort_Permutation.
Qed.

Lemma sumCbBefore_identity (l : allocs) :
  sumCbBefore l = fold_left (fun sum p => sum + snd p) (map identity l) 0.
Proof. unfold sumCbBefore. now rewrite fold_sum_map. Qed.

(** What [greedyAllocate] returns in exact arithmetic. *)
Lemma greedyAllocate_exact (members : list (PoolMemberInput.t Q)) :
  let allocations := CreatePoolUseCase.greedyAllocate members in
  sumCbAfter allocations == CreatePoolUseCase.totalCB members
  /\ sumCbBefore allocations == CreatePoolUseCase.totalCB members
  /\ Forall between allocations
  /\ (0 <= CreatePoolUseCase.totalCB members ->
      Forall (fun a => 0 <= PoolAllocation.cbAfter a) allocations).
Proof.
  intros allocations.
  assert (B : sumCbBefore allocations == CreatePoolUseCase.totalCB members).
  { subst allocations. rewrite sumCbBefore_identity, greedyAllocate_identity.
    rewrite fold_sum_map. apply totalCB_sortedCopy. }
  subst allocations. unfold CreatePoolUseCase.greedyAllocate in *.
  fold (sortedCopy members) in *.
  set (initial := map (fun m => PoolAllocation.mk (PoolMemberInput.shipId m)
                                  (PoolMemberInput.cbBefore m)
                                  (PoolMemberInput.cbBefore m))
                      (sortedCopy members)) in *.
  destruct (transferAll_spec (List.length initial) initial) as (L & Sm & Inv & Bt).
  assert (I : sumCbAfter initial == CreatePoolUseCase.totalCB members).
  { unfold initial, sumCbAfter. rewrite fold_sum_map. apply totalCB_sortedCopy. }
  repeat split.
  - now rewrite Sm.
  - exact B.
  - apply Bt. unfold initial. apply Forall_forall. intros a In.
    apply in_map_iff in In. destruct In as (m & <- & _). unfold between; simpl.
    destruct (Qlt_le_dec (PoolMemberInput.cbBefore m) 0); [right|left]; lra.
  - intros P. apply (at_all_Forall (fun v => 0 <= v)).
    destruct Inv as [Neg|All]; [|exact All].
    apply nonpos_sum_zero.
    + intros i. destruct (Nat.lt_ge_cases i (List.length initial)) as [Li|Li].
      * now apply Neg.
      * rewrite at_out_of_range by (now rewrite L). apply Qle_refl.
    + rewrite Sm, I. exact P.
Qed.

Lemma checkAllocations_nonneg (originalMap : list (string * Q)) (l : allocs) :
  Forall (fun a => 0 <= PoolAllocation.cbAfter a) l ->
  CreatePoolUseCase.checkAllocations originalMap l = inr tt.
Proof.
  induction 1 as [|a rest Pa F IH]; simpl; [reflexivity|].
  unfold CreatePoolUseCase.checkAllocation.
  destruct (Map_get originalMap (PoolAllocation.shipId a)) as [before|]; [|exact IH].
  change (@js_lt Q exact) with Q_lt. change (@int Q exact 0) with 0.
  destruct (Q_lt before 0) eqn:N; simpl.
  - apply Q_lt_iff in N.
    destruct (Q_lt (PoolAllocation.cbAfter a) before) eqn:W.
    + apply Q_lt_iff in W. lra.
    + simpl. destruct (Q_lt 0 before) eqn:P; simpl; [apply Q_lt_iff in P; lra|exact IH].
  - destruct (Q_lt 0 before) eqn:P; simpl; [|exact IH].
    destruct (Q_lt (PoolAllocation.cbAfter a) 0) eqn:W; [|exact IH].
    apply Q_lt_iff in W. lra.
Qed.

Lemma accepted_exact (members : list (PoolMemberInput.t Q)) :
  CreatePoolUseCase.accepted members = true <->
  (2 <= List.length members)%nat /\ 0 <= CreatePoolUseCase.totalCB members.
Proof.
  unfold CreatePoolUseCase.accepted.
  rewrite andb_true_iff, !negb_true_iff, Nat.ltb_ge.
  change (@js_lt Q exact) with Q_lt. change (@int Q exact 0) with 0.
  now rewrite Q_lt_false_iff.
Qed.

(** An accepted list passes the pooling rules and gets its pool. *)
Lemma execute_accepted_exact (S : Type) (poolRepo : IPoolRepository.t Q S)
  (command : CreatePoolCommand.t Q) (s : S) :
  let members := CreatePoolCommand.members command in
  CreatePoolUseCase.accepted members = true ->
  CreatePoolUseCase.validatePoolingRules members
    (CreatePoolUseCase.greedyAllocate members) = inr tt
  /\ exists poolId,
      fst (CreatePoolUseCase.execute poolRepo command s)
      = inr (poolId, CreatePoolUseCase.greedyAllocate members).
Proof.
  intros members Acc.
  assert (V : CreatePoolUseCase.validatePoolingRules members
                (CreatePoolUseCase.greedyAllocate members) = inr tt).
  { apply checkAllocations_nonneg. apply greedyAllocate_exact.
    now apply accepted_exact. }
  split; [exact V|].
  rewrite create_pool_run. fold members.
  unfold CreatePoolUseCase.accepted in Acc.
  apply andb_true_iff in Acc. destruct Acc as [A1 A2].
  apply negb_true_iff in A1. apply negb_true_iff in A2.
  rewrite A1, A2, V. simpl. eexists. reflexivity.
Qed.

(** In exact arithmetic every accepted run conserves the total. *)
Lemma conserved_exact (S : Type) (poolRepo : IPoolRepository.t Q S)
  (command : CreatePoolCommand.t Q) (s : S) :
  CreatePoolUseCase.accepted (CreatePoolCommand.members command) = true ->
  conserved poolRepo command s.
Proof.
  intros Acc.
  destruct (execute_accepted_exact poolRepo command s Acc) as [_ [poolId E]].
  destruct (greedyAllocate_exact (CreatePoolCommand.members command)) as (A & B & _).
  exists poolId, (CreatePoolUseCase.greedyAllocate (CreatePoolCommand.members command)).
  split; [exact E|].
  change (@js_eq Q exact) with Qeq_bool. rewrite !Qeq_bool_iff.
  split; [now rewrite A, B|exact A].
Qed.

End ExactAllocator.

(** The pool of the specification's example, S001 with 1250.5 and S002
    with -800: S002 is fully covered and S001 keeps 450.5, in exact
    arithmetic and on doubles. *)
Example sample_pool_allocation :
  map (fun a => (PoolAllocation.shipId a, Qred (PoolAllocation.cbAfter a)))
      (CreatePoolUseCase.greedyAllocate samplePool)
  = [("S001"%string, 901 # 2); ("S002"%string, 0)]
  /\ CreatePoolUseCase.greedyAllocate samplePoolF
     = [PoolAllocation.mk "S001" (lit 12505 10) (lit 4505 10);
        PoolAllocation.mk "S002" (int (-800)) (int 0)].
Proof. split; vm_compute; reflexivity. Qed.

(** C1 as the specification words it fails on doubles: the pool
    [-0.2, -0.1, 0.8] is accepted and [execute] returns its allocation,
    which leaves ship C with 0.5000000000000001 and the others with 0,
    while the [cbBefore] sum to 0.5.  The sum of [cbAfter] is not the
    sum of [cbBefore], neither as doubles added in list order, nor as
    the numbers the doubles stand for (compared in units of [2^-1074]). *)
Lemma pool_conservation_fails_on_doubles :
  CreatePoolUseCase.accepted roundingPool = true
  /\ exists poolId allocations,
       fst (CreatePoolUseCase.execute Memory.poolRepo
              (CreatePoolCommand.mk (int 2025) roundingPool) emptyStore)
       = inr (poolId, allocations)
       /\ map (@PoolAllocation.cbBefore float) allocations
          = [lit 8 10; lit (-1) 10; lit (-2) 10]
       /\ map (@PoolAllocation.cbAfter float) allocations
          = [lit 5000000000000001 10000000000000000; int 0; int 0]
       /\ sumCbBefore allocations = lit 5 10
       /\ CreatePoolUseCase.totalCB roundingPool = lit 5 10
       /\ (sumCbAfter allocations === sumCbBefore allocations)%js = false
       /\ (sumCbAfter allocations === CreatePoolUseCase.totalCB roundingPool)%js
          = false
       /\ (Zsum (fun a => Fval (PoolAllocation.cbAfter a)) allocations
           =? Zsum (fun a => Fval (PoolAllocation.cbBefore a)) allocations)%Z
          = false.
Proof.
  split; [vm_compute; reflexivity|].
  do 2 eexists. split; [vm_compute; reflexivity|].
  repeat split; vm_compute; reflexivity.
Qed.

(** C2 as the specification words it fails on doubles.  The pool of the
    two infinities is accepted and its allocations are NaN, which is not
    [>= 0]; and the pool with a repeated ship is accepted and its
    allocation fails [validatePoolingRules] with MemberExitsNegative. *)
Lemma pool_fairness_fails_on_doubles :
  (CreatePoolUseCase.accepted infinitePool = true
   /\ existsb (fun a => negb (fair a)) (CreatePoolUseCase.greedyAllocate infinitePool)
      = true)
  /\ (CreatePoolUseCase.accepted repeatedShipPool = true
      /\ exists after : float,
           CreatePoolUseCase.validatePoolingRules repeatedShipPool
             (CreatePoolUseCase.greedyAllocate repeatedShipPool)
           = inl (MemberExitsNegative "A" after)
           /\ CreatePoolUseCase.execute Memory.poolRepo
                (CreatePoolCommand.mk (int 2025) repeatedShipPool) emptyStore
              = (inl (MemberExitsNegative "A" after), emptyStore)).
Proof.
  split; split; try (vm_compute; reflexivity).
  eexists. split; vm_compute; reflexivity.
Qed.

(** ** The laws of finite numbers hold on both instances *)

#[export] Instance f64_finite : JsFinite float.
Proof.
  split; simpl.
  - reflexivity.
  - intros a Fa. rewrite (f64_leb_val a a Fa Fa). apply Z.leb_refl.
  - intros a b c Fa Fb Fc.
    rewrite (f64_leb_val a b Fa Fb), (f64_leb_val b c Fb Fc), (f64_leb_val a c Fa Fc).
    rewrite !Z.leb_le. lia.
  - intros a Fa. destruct f64_zero_val as [F0 V0]. unfold int; simpl.
    rewrite (f64_leb_val _ _ F0 Fa), (f64_leb_val _ _ Fa F0), V0.
    apply orb_true_iff. rewrite !Z.leb_le. lia.
  - intros a b Fa Fb.
    rewrite (f64_leb_val a b Fa Fb), (f64_eqb_val b a Fb Fa), (f64_ltb_val a b Fa Fb).
    rewrite Z.leb_le, Z.eqb_neq, Z.ltb_lt. lia.
  - intros a b. apply f64_eq_le.
  - intros a b. apply f64_transfer.
  - intros a b. apply f64_transfer_covers.
Qed.

#[export] Instance exact_finite : JsFinite Q.
Proof.
  split; simpl; unfold int; simpl; auto.
  - intros a _. apply Qle_bool_iff. apply Qle_refl.
  - intros a b c _ _ _. rewrite !Qle_bool_iff. apply Qle_trans.
  - intros a _. apply orb_true_iff. rewrite !Qle_bool_iff.
    destruct (Qlt_le_dec a 0); [right; now apply Qlt_le_weak|now left].
  - intros a b _ _. rewrite Qle_bool_iff, Q_lt_iff. intros L N.
    apply Qeq_bool_neq in N. apply Qle_lteq in L. destruct L as [L|E]; [exact L|].
    exfalso. apply N. now symmetry.
  - intros a b E. apply Qeq_bool_iff in E. apply Qle_bool_iff. rewrite E. apply Qle_refl.
  - intros a b _ _. rewrite !Q_lt_iff. intros Pa Nb.
    destruct (transfer_facts Pa Nb) as (T0 & Ta & Tb & _).
    rewrite !Qle_bool_iff. repeat split; lra.
  - intros a b _ _. rewrite !Q_lt_iff. intros Pa Nb.
    destruct (transfer_facts Pa Nb) as (T0 & Ta & Tb & Tm).
    rewrite Qeq_bool_iff, Qle_bool_iff. destruct Tm; [left|right]; lra.
Qed.

(** ** The allocator on finite numbers: fairness *)

Section Fairness.
Context {num : Type} `{JsNumber num} {ord : JsOrder num} {fin : JsFinite num}.
Local Open Scope js_scope.

Local Abbreviation after_ := CreatePoolUseCase.cbAfterAt.

Lemma lt_irrefl (a : num) : (a <? a) = false.
Proof.
  destruct (a <? a) eqn:L; [|reflexivity].
  pose proof (lt_le _ _ L). pose proof (lt_not_ge _ _ L). congruence.
Qed.

Lemma positive_not_negative (a : num) : (int 0 <? a) = true -> (a <? int 0) = false.
Proof.
  intros P. destruct (a <? int 0) eqn:N; [|reflexivity].
  pose proof (lt_le _ _ N). pose proof (lt_not_ge _ _ P). congruence.
Qed.

Lemma positive_not_negative_rev (a : num) : (a <? int 0) = true -> (int 0 <? a) = false.
Proof.
  intros N. destruct (int 0 <? a) eqn:P; [|reflexivity].
  rewrite (positive_not_negative _ P) in N. discriminate.
Qed.

Lemma after_modify_same (i : nat) (f : num -> num) (l : list (PoolAllocation.t num)) :
  (i < List.length l)%nat ->
  after_ (modify i (CreatePoolUseCase.setCbAfter f) l) i = f (after_ l i).
Proof.
  intros L. unfold CreatePoolUseCase.cbAfterAt. rewrite nth_error_modify_same.
  destruct (nth_error l i) eqn:E; [reflexivity|].
  apply nth_error_None in E. lia.
Qed.

Lemma after_modify_other (i k : nat) (g : PoolAllocation.t num -> PoolAllocation.t num)
  (l : list (PoolAllocation.t num)) :
  i <> k -> after_ (modify i g l) k = after_ l k.
Proof.
  intros N. unfold CreatePoolUseCase.cbAfterAt. now rewrite nth_error_modify_other.
Qed.

Lemma after_nth (l : list (PoolAllocation.t num)) (i : nat) :
  (after_ l i <? int 0) = true \/ (int 0 <? after_ l i) = true ->
  exists a, nth_error l i = Some a /\ PoolAllocation.cbAfter a = after_ l i.
Proof.
  unfold CreatePoolUseCase.cbAfterAt.
  destruct (nth_error l i) as [a|]; [eauto|].
  rewrite lt_irrefl. intros [|]; discriminate.
Qed.

(** One transfer keeps every allocation settled and leaves the surplus
    ship at [a - t >= 0]. *)
Lemma transfer_settled (i j : nat) (l : list (PoolAllocation.t num)) :
  Forall settled l ->
  (int 0 <? after_ l i) = true -> (after_ l j <? int 0) = true ->
  let transfer := Math_min (after_ l i) (Math_abs (after_ l j)) in
  let l' := modify j (CreatePoolUseCase.setCbAfter (fun v => v + transfer))
              (modify i (CreatePoolUseCase.setCbAfter (fun v => v - transfer)) l) in
  Forall settled l'
  /\ after_ l' i = after_ l i - transfer
  /\ Number_isFinite (after_ l' i) = true
  /\ (int 0 <=? after_ l' i) = true.
Proof.
  intros S Pi Nj transfer l'.
  destruct (after_nth l i (or_intror Pi)) as (ai & Ei & Vi).
  destruct (after_nth l j (or_introl Nj)) as (aj & Ej & Vj).
  assert (N : i <> j).
  { intros ->. rewrite (positive_not_negative _ Pi) in Nj. discriminate. }
  assert (Li : (i < List.length l)%nat) by (apply nth_error_Some; congruence).
  pose proof (proj1 (Forall_forall settled l) S ai (nth_error_In _ _ Ei))
    as (Fbi & Fai & Bi).
  pose proof (proj1 (Forall_forall settled l) S aj (nth_error_In _ _ Ej))
    as (Fbj & Faj & Bj).
  rewrite Vi in Fai, Bi. rewrite Vj in Faj, Bj.
  destruct (transfer_bounds (after_ l i) (after_ l j) Fai Faj Pi Nj)
    as (T1 & T2 & T3 & T4 & T5 & T6).
  fold transfer in T1, T2, T3, T4, T5, T6.
  assert (V : after_ l' i = after_ l i - transfer).
  { unfold l'. rewrite after_modify_other by auto. now rewrite after_modify_same. }
  repeat split; try (rewrite V; assumption); [|exact V].
  unfold l'. apply Forall_modify; [apply Forall_modify; [exact S|]|].
  - intros a E _. rewrite Ei in E. injection E as <-.
    unfold settled. simpl. rewrite Vi. repeat split; auto.
    destruct Bi as [[B0 B1]|[B0 B1]].
    + left. split; [exact T2|].
      apply (le_trans _ (after_ l i)); auto.
    + pose proof (lt_not_ge _ _ Pi). congruence.
  - intros a E _. rewrite nth_error_modify_other in E by auto.
    rewrite Ej in E. injection E as <-.
    unfold settled. simpl. rewrite Vj. repeat split; auto.
    destruct Bj as [[B0 B1]|[B0 B1]].
    + pose proof (lt_not_ge _ _ Nj). congruence.
    + right. split; [|exact T6].
      apply (le_trans _ (after_ l j)); auto.
Qed.

(** The loops keep every allocation settled, together with any other
    property of the list that one transfer keeps. *)
Section Loops.
Variable kept : list (PoolAllocation.t num) -> Prop.
Hypothesis kept_transfer :
  forall (i j : nat) (l : list (PoolAllocation.t num)),
    Forall settled l -> kept l ->
    (int 0 <? after_ l i) = true -> (after_ l j <? int 0) = true ->
    let transfer := Math_min (after_ l i) (Math_abs (after_ l j)) in
    kept (modify j (CreatePoolUseCase.setCbAfter (fun v => v + transfer))
            (modify i (CreatePoolUseCase.setCbAfter (fun v => v - transfer)) l)).

Lemma transferToDeficits_kept (i k : nat) (l : list (PoolAllocation.t num)) :
  Forall settled l -> kept l -> (int 0 <? after_ l i) = true ->
  Forall settled (CreatePoolUseCase.transferToDeficits i k l)
  /\ kept (CreatePoolUseCase.transferToDeficits i k l).
Proof.
  revert l. induction k as [|j IH]; intros l S K Pi; simpl; [now split|].
  destruct (after_ l j <? int 0) eqn:Nj; [|now apply IH].
  destruct (@transfer_settled i j l S Pi Nj) as (S' & V & F & P).
  pose proof (@kept_transfer i j l S K Pi Nj) as K'.
  match goal with
  | |- Forall settled (if ?c then _ else _) /\ _ => destruct c eqn:Z
  end; [now split|].
  apply IH; [exact S'|exact K'|].
  apply le_neq_lt; auto. apply finite_zero.
Qed.

Lemma transferSurplus_kept (l : list (PoolAllocation.t num)) (i : nat) :
  Forall settled l -> kept l ->
  Forall settled (CreatePoolUseCase.transferSurplus l i)
  /\ kept (CreatePoolUseCase.transferSurplus l i).
Proof.
  intros S K. unfold CreatePoolUseCase.transferSurplus.
  destruct (int 0 <? after_ l i) eqn:P; [|now split].
  now apply transferToDeficits_kept.
Qed.

Lemma transferAll_kept (indices : list nat) (l : list (PoolAllocation.t num)) :
  Forall settled l -> kept l ->
  Forall settled (fold_left CreatePoolUseCase.transferSurplus indices l)
  /\ kept (fold_left CreatePoolUseCase.transferSurplus indices l).
Proof.
  revert l. induction indices as [|i rest IH]; intros l S K; simpl; [now split|].
  destruct (transferSurplus_kept i S K) as [S' K']. now apply IH.
Qed.

End Loops.

Lemma initial_settled (members : list (PoolMemberInput.t num)) :
  Forall (fun m => Number_isFinite (PoolMemberInput.cbBefore m) = true) members ->
  Forall settled
    (map (fun m => PoolAllocation.mk (PoolMemberInput.shipId m)
                     (PoolMemberInput.cbBefore m) (PoolMemberInput.cbBefore m))
         (sortedCopy members)).
Proof.
  intros F. apply Forall_forall. intros a I.
  apply in_map_iff in I. destruct I as (m & <- & I).
  assert (Fm : Number_isFinite (PoolMemberInput.cbBefore m) = true).
  { apply (proj1 (Forall_forall _ members) F).
    eapply Permutation_in; [apply Array_sort_Permutation|exact I]. }
  unfold settled. simpl. repeat split; auto.
  pose proof (le_refl _ Fm). pose proof (zero_total _ Fm) as Z.
  apply orb_true_iff in Z. destruct Z; [left|right]; auto.
Qed.

Lemma greedyAllocate_settled (members : list (PoolMemberInput.t num)) :
  Forall (fun m => Number_isFinite (PoolMemberInput.cbBefore m) = true) members ->
  Forall settled (CreatePoolUseCase.greedyAllocate members).
Proof.
  intros F. unfold CreatePoolUseCase.greedyAllocate. fold (sortedCopy members).
  apply (transferAll_kept (fun _ => True)); auto using initial_settled.
Qed.

(** *** No surplus is left beside a deficit *)

Lemma after_finite (l : list (PoolAllocation.t num)) (m : nat) :
  Forall settled l -> Number_isFinite (after_ l m) = true.
Proof.
  intros S. unfold CreatePoolUseCase.cbAfterAt.
  destruct (nth_error l m) as [a|] eqn:E; [|apply finite_zero].
  apply (proj1 (Forall_forall settled l) S a (nth_error_In _ _ E)).
Qed.

Lemma after_past_end (l : list (PoolAllocation.t num)) (m : nat) :
  (List.length l <= m)%nat -> after_ l m = int 0.
Proof.
  intros L. unfold CreatePoolUseCase.cbAfterAt.
  apply nth_error_None in L. now rewrite L.
Qed.

Lemma not_negative (a : num) :
  Number_isFinite a = true -> (a <? int 0) = false -> (int 0 <=? a) = true.
Proof.
  intros F N. pose proof (zero_total _ F) as Z. apply orb_true_iff in Z.
  destruct Z as [P|L]; [exact P|].
  destruct (int 0 === a) eqn:E; [now apply eq_le|].
  rewrite (le_neq_lt _ _ F finite_zero L E) in N. discriminate.
Qed.

Lemma not_positive (a : num) :
  Number_isFinite a = true -> (int 0 <? a) = false -> (a <=? int 0) = true.
Proof.
  intros F N. pose proof (zero_total _ F) as Z. apply orb_true_iff in Z.
  destruct Z as [P|L]; [|exact L].
  destruct (a === int 0) eqn:E; [now apply eq_le|].
  rewrite (le_neq_lt _ _ finite_zero F P E) in N. discriminate.
Qed.

(** One transfer turns no ship from one side of zero to the other, and
    empties the surplus or fills the deficit. *)
Lemma transfer_signs (i j : nat) (l : list (PoolAllocation.t num)) :
  Forall settled l ->
  (int 0 <? after_ l i) = true -> (after_ l j <? int 0) = true ->
  let transfer := Math_min (after_ l i) (Math_abs (after_ l j)) in
  let l' := modify j (CreatePoolUseCase.setCbAfter (fun v => v + transfer))
              (modify i (CreatePoolUseCase.setCbAfter (fun v => v - transfer)) l) in
  (forall m, (int 0 <=? after_ l m) = true -> (int 0 <=? after_ l' m) = true)
  /\ (forall m, (after_ l m <=? int 0) = true -> (after_ l' m <=? int 0) = true)
  /\ ((after_ l' i === int 0) = true \/ (int 0 <=? after_ l' j) = true).
Proof.
  intros S Pi Nj transfer l'.
  destruct (after_nth l i (or_intror Pi)) as (ai & Ei & _).
  destruct (after_nth l j (or_introl Nj)) as (aj & Ej & _).
  assert (N : i <> j).
  { intros ->. rewrite (positive_not_negative _ Pi) in Nj. discriminate. }
  assert (Li : (i < List.length l)%nat) by (apply nth_error_Some; congruence).
  assert (Lj : (j < List.length l)%nat) by (apply nth_error_Some; congruence).
  pose proof (after_finite i S) as Fi. pose proof (after_finite j S) as Fj.
  destruct (transfer_bounds _ _ Fi Fj Pi Nj) as (_ & T2 & _ & _ & _ & T6).
  pose proof (transfer_covers _ _ Fi Fj Pi Nj) as Tc.
  fold transfer in T2, T6, Tc.
  assert (Vi : after_ l' i = after_ l i - transfer).
  { unfold l'. rewrite after_modify_other by auto. now rewrite after_modify_same. }
  assert (Vj : after_ l' j = after_ l j + transfer).
  { unfold l'. rewrite after_modify_same by (now rewrite modify_length).
    now rewrite after_modify_other by auto. }
  assert (Vk : forall m, m <> i -> m <> j -> after_ l' m = after_ l m).
  { intros m Mi Mj. unfold l'. now rewrite !after_modify_other by auto. }
  split; [|split].
  - intros m Pm. destruct (Nat.eq_dec m i) as [->|Mi]; [now rewrite Vi|].
    destruct (Nat.eq_dec m j) as [->|Mj]; [|now rewrite Vk].
    rewrite (lt_not_ge _ _ Nj) in Pm. discriminate.
  - intros m Pm. destruct (Nat.eq_dec m j) as [->|Mj]; [now rewrite Vj|].
    destruct (Nat.eq_dec m i) as [->|Mi]; [|now rewrite Vk].
    rewrite (lt_not_ge _ _ Pi) in Pm. discriminate.
  - rewrite Vi, Vj. exact Tc.
Qed.

(** The inner loop for a surplus ship [i]: it ends with the surplus
    emptied, or with no deficit left among the ships it visited. *)
Lemma transferToDeficits_covers (i k : nat) (l : list (PoolAllocation.t num)) :
  Forall settled l -> (int 0 <? after_ l i) = true ->
  let l' := CreatePoolUseCase.transferToDeficits i k l in
  (forall m, (int 0 <=? after_ l m) = true -> (int 0 <=? after_ l' m) = true)
  /\ (forall m, (after_ l m <=? int 0) = true -> (after_ l' m <=? int 0) = true)
  /\ ((after_ l' i <=? int 0) = true
      \/ forall j, (j < k)%nat -> (int 0 <=? after_ l' j) = true).
Proof.
  revert l. induction k as [|j IH]; intros l S Pi; simpl.
  - repeat split; auto. right. intros; lia.
  - destruct (after_ l j <? int 0) eqn:Nj.
    + destruct (@transfer_settled i j l S Pi Nj) as (S' & V & F & P).
      destruct (@transfer_signs i j l S Pi Nj) as (Np & Nn & Tc).
      match goal with
      | |- context [if ?c then _ else _] => destruct c eqn:Z
      end.
      * repeat split; auto. left. now apply eq_le.
      * assert (Pi' : (int 0 <? after_
                         (modify j (CreatePoolUseCase.setCbAfter
                                      (fun v => v + Math_min (after_ l i) (Math_abs (after_ l j))))
                            (modify i (CreatePoolUseCase.setCbAfter
                                         (fun v => v - Math_min (after_ l i) (Math_abs (after_ l j))))
                               l)) i) = true)
          by (apply le_neq_lt; auto; apply finite_zero).
        destruct (IH _ S' Pi') as (Np' & Nn' & Post).
        repeat split; auto.
        destruct Post as [Zi|All]; [left; exact Zi|right].
        intros m Lm. destruct (Nat.eq_dec m j) as [->|Mj]; [|apply All; lia].
        apply Np'. destruct Tc as [Tz|Tj]; [congruence|exact Tj].
    + destruct (IH _ S Pi) as (Np & Nn & Post).
      repeat split; auto.
      destruct Post as [Zi|All]; [left; exact Zi|right].
      intros m Lm. destruct (Nat.eq_dec m j) as [->|Mj]; [|apply All; lia].
      apply Np. apply not_negative; [now apply after_finite|exact Nj].
Qed.

Lemma transferSurplus_length (l : list (PoolAllocation.t num)) (i : nat) :
  List.length (CreatePoolUseCase.transferSurplus l i) = List.length l.
Proof.
  rewrite <- (length_map identity), transferSurplus_identity. apply length_map.
Qed.

(** One turn of the outer loop. *)
Lemma transferSurplus_covers (l : list (PoolAllocation.t num)) (i : nat) :
  Forall settled l ->
  let l' := CreatePoolUseCase.transferSurplus l i in
  (forall m, (int 0 <=? after_ l m) = true -> (int 0 <=? after_ l' m) = true)
  /\ (forall m, (after_ l m <=? int 0) = true -> (after_ l' m <=? int 0) = true)
  /\ ((after_ l' i <=? int 0) = true \/ forall j, (int 0 <=? after_ l' j) = true).
Proof.
  intros S l'. pose proof (transferSurplus_length l i) as L. fold l' in L.
  unfold l', CreatePoolUseCase.transferSurplus in *.
  destruct (int 0 <? after_ l i) eqn:Pi.
  - destruct (@transferToDeficits_covers i (List.length l) l S Pi) as (Np & Nn & Post).
    repeat split; auto.
    destruct Post as [Zi|All]; [left; exact Zi|right].
    intros j. destruct (Nat.lt_ge_cases j (List.length l)) as [Lj|Lj]; [now apply All|].
    rewrite after_past_end by (now rewrite L). apply le_refl, finite_zero.
  - repeat split; auto. left. apply not_positive; [now apply after_finite|exact Pi].
Qed.

(** The outer loop over the first [m] ships. *)
Lemma transferAll_covers (m : nat) (l : list (PoolAllocation.t num)) :
  Forall settled l ->
  let l' := fold_left CreatePoolUseCase.transferSurplus (seq 0 m) l in
  (forall i, (i < m)%nat -> (after_ l' i <=? int 0) = true)
  \/ forall j, (int 0 <=? after_ l' j) = true.
Proof.
  intros S. induction m as [|m IH]; intros l'.
  - left. intros; lia.
  - subst l'. rewrite seq_S, fold_left_app. simpl.
    set (l1 := fold_left CreatePoolUseCase.transferSurplus (seq 0 m) l) in *.
    assert (S1 : Forall settled l1)
      by (apply (transferAll_kept (fun _ => True)); auto).
    destruct (@transferSurplus_covers l1 m S1) as (Np & Nn & Post).
    destruct IH as [Neg|All]; [|right; intros j; apply Np, All].
    destruct Post as [Zm|All]; [left|right; exact All].
    intros i Li. destruct (Nat.eq_dec i m) as [->|Mi]; [exact Zm|].
    apply Nn, Neg. lia.
Qed.

(** The allocation of finite values holds no ship above zero, or none
    below. *)
Lemma greedyAllocate_covers (members : list (PoolMemberInput.t num)) :
  Forall (fun m => Number_isFinite (PoolMemberInput.cbBefore m) = true) members ->
  Forall (fun a => (PoolAllocation.cbAfter a <=? int 0) = true)
    (CreatePoolUseCase.greedyAllocate members)
  \/ Forall (fun a => (int 0 <=? PoolAllocation.cbAfter a) = true)
       (CreatePoolUseCase.greedyAllocate members).
Proof.
  intros F. unfold CreatePoolUseCase.greedyAllocate. fold (sortedCopy members).
  set (initial := map _ (sortedCopy members)).
  pose proof (initial_settled F) as S. fold initial in S.
  pose proof (fold_transferSurplus_identity (seq 0 (List.length initial)) initial) as I.
  apply (f_equal (@List.length _)) in I. rewrite !length_map in I.
  destruct (@transferAll_covers (List.length initial) initial S) as [Neg|All];
    [left|right]; apply Forall_forall; intros a In;
    apply In_nth_error in In; destruct In as [i E].
  - assert (Li : (i < List.length initial)%nat)
      by (rewrite <- I; apply nth_error_Some; congruence).
    specialize (Neg i Li). unfold CreatePoolUseCase.cbAfterAt in Neg.
    now rewrite E in Neg.
  - specialize (All i). unfold CreatePoolUseCase.cbAfterAt in All.
    now rewrite E in All.
Qed.

(** On finite numbers, doubles among them, the allocator leaves no
    surplus beside a deficit: its output never holds both a ship with
    [cbAfter > 0] and a ship with [cbAfter < 0]. *)
Theorem allocation_leaves_no_pair (members : list (PoolMemberInput.t num)) :
  Forall (fun m => Number_isFinite (PoolMemberInput.cbBefore m) = true) members ->
  let allocations := CreatePoolUseCase.greedyAllocate members in
  existsb (fun a => PoolAllocation.cbAfter a >? int 0) allocations
  && existsb (fun a => PoolAllocation.cbAfter a <? int 0) allocations
  = false.
Proof.
  intros F allocations. subst allocations.
  destruct (greedyAllocate_covers F) as [Neg|All].
  - apply andb_false_intro1.
    destruct (existsb _ _) eqn:E; [|reflexivity].
    apply existsb_exists in E. destruct E as (a & I & P).
    pose proof (proj1 (Forall_forall _ _) Neg a I) as N. cbv beta in N.
    rewrite (lt_not_ge _ _ P) in N. discriminate.
  - apply andb_false_intro2.
    destruct (existsb _ _) eqn:E; [|reflexivity].
    apply existsb_exists in E. destruct E as (a & I & N).
    pose proof (proj1 (Forall_forall _ _) All a I) as P. cbv beta in P.
    rewrite (lt_not_ge _ _ N) in P. discriminate.
Qed.

Lemma settled_fair (a : PoolAllocation.t num) : settled a -> fair a = true.
Proof.
  intros (Fb & Fa & B). unfold fair, js_ge. apply andb_true_iff. split.
  - destruct (PoolAllocation.cbBefore a <? int 0) eqn:N; [|reflexivity]. simpl.
    destruct B as [[B0 B1]|[B0 B1]]; [|exact B0].
    pose proof (le_trans _ _ _ finite_zero Fa Fb B0 B1).
    pose proof (lt_not_ge _ _ N). congruence.
  - destruct (int 0 <? PoolAllocation.cbBefore a) eqn:P; [|reflexivity]. simpl.
    destruct B as [[B0 B1]|[B0 B1]]; [exact B0|].
    pose proof (le_trans _ _ _ Fb Fa finite_zero B0 B1).
    pose proof (lt_not_ge _ _ P). congruence.
Qed.

(** With pairwise distinct keys the map is the entry list, and finds
    each entry. *)
Lemma Map_set_fresh (m : list (string * num)) (k : string) (v : num) :
  ~ In k (map fst m) -> Map_set m k v = m ++ [(k, v)].
Proof.
  induction m as [|[k' v'] rest IH]; simpl; [reflexivity|].
  intros N. destruct (String.eqb_spec k' k) as [->|_]; [tauto|].
  rewrite IH by tauto. reflexivity.
Qed.

Lemma Map_new_distinct (entries acc : list (string * num)) :
  NoDup (map fst (acc ++ entries)) ->
  fold_left (fun m kv => Map_set m (fst kv) (snd kv)) entries acc = acc ++ entries.
Proof.
  revert acc. induction entries as [|[k v] rest IH]; intros acc N; simpl.
  - now rewrite app_nil_r.
  - rewrite Map_set_fresh.
    + rewrite IH; rewrite <- app_assoc; [reflexivity|exact N].
    + rewrite map_app in N. simpl in N. apply NoDup_remove_2 in N.
      intros I. apply N. apply in_or_app. now left.
Qed.

Lemma Map_get_distinct (entries : list (string * num)) (k : string) (v : num) :
  NoDup (map fst entries) -> In (k, v) entries -> Map_get entries k = Some v.
Proof.
  unfold Map_get. induction entries as [|[k' v'] rest IH]; simpl; [tauto|].
  intros N [E|I].
  - injection E as -> ->. now rewrite String.eqb_refl.
  - inversion N as [|? ? N1 N2]; subst.
    destruct (String.eqb_spec k' k) as [->|_]; [|now apply IH].
    exfalso. apply N1. apply in_map_iff. exists (k, v). auto.
Qed.

Lemma checkAllocations_fair (originalMap : list (string * num))
  (l : list (PoolAllocation.t num)) :
  Forall (fun a => fair a = true
                   /\ Map_get originalMap (PoolAllocation.shipId a)
                      = Some (PoolAllocation.cbBefore a)) l ->
  CreatePoolUseCase.checkAllocations originalMap l = inr tt.
Proof.
  induction 1 as [|a rest [Fa Ga] _ IH]; simpl; [reflexivity|].
  unfold CreatePoolUseCase.checkAllocation. rewrite Ga.
  unfold fair, js_ge in Fa. apply andb_true_iff in Fa. destruct Fa as [F1 F2].
  destruct (PoolAllocation.cbBefore a <? int 0) eqn:N; simpl in *.
  - rewrite (le_not_gt _ _ F1). simpl.
    rewrite (positive_not_negative_rev _ N). exact IH.
  - destruct (int 0 <? PoolAllocation.cbBefore a) eqn:P; simpl in *; [|exact IH].
    rewrite (le_not_gt _ _ F2). exact IH.
Qed.

Lemma Map_set_values (P : num -> Prop) (m : list (string * num)) (k : string) (v : num) :
  Forall (fun kv => P (snd kv)) m -> P v ->
  Forall (fun kv => P (snd kv)) (Map_set m k v).
Proof.
  intros F Pv. induction F as [|[k' v'] rest Px F IH]; simpl.
  - now constructor.
  - destruct (String.eqb k' k); constructor; auto.
Qed.

Lemma Map_new_values (P : num -> Prop) (entries : list (string * num)) :
  Forall (fun kv => P (snd kv)) entries ->
  Forall (fun kv => P (snd kv)) (Map_new entries).
Proof.
  unfold Map_new.
  generalize (@nil (string * num)) (Forall_nil (fun kv : string * num => P (snd kv))).
  induction entries as [|[k v] rest IH]; intros acc A F; simpl; [exact A|].
  inversion F as [|? ? Pv Fr]; subst. apply IH; [|exact Fr].
  now apply Map_set_values.
Qed.

Lemma Map_get_values (P : num -> Prop) (m : list (string * num)) (k : string) (v : num) :
  Forall (fun kv => P (snd kv)) m -> Map_get m k = Some v -> P v.
Proof.
  unfold Map_get. intros F G.
  destruct (find (fun kv => String.eqb (fst kv) k) m) as [[k' v']|] eqn:E; [|discriminate].
  injection G as <-. apply find_some in E.
  exact (proj1 (Forall_forall _ _) F _ (proj1 E)).
Qed.

(** Allocations that end at or above zero pass the two rules, whatever
    finite value the map holds for the ship. *)
Lemma checkAllocations_covered (originalMap : list (string * num))
  (l : list (PoolAllocation.t num)) :
  Forall (fun kv => Number_isFinite (snd kv) = true) originalMap ->
  Forall (fun a => Number_isFinite (PoolAllocation.cbAfter a) = true
                   /\ (int 0 <=? PoolAllocation.cbAfter a) = true) l ->
  CreatePoolUseCase.checkAllocations originalMap l = inr tt.
Proof.
  intros Fm. induction 1 as [|a rest [Fa Pa] _ IH]; simpl; [reflexivity|].
  unfold CreatePoolUseCase.checkAllocation.
  destruct (Map_get originalMap (PoolAllocation.shipId a)) as [before|] eqn:G;
    [|exact IH].
  pose proof (@Map_get_values (fun v => Number_isFinite v = true) _ _ _ Fm G) as Fb.
  simpl in Fb.
  destruct (before <? int 0) eqn:N; simpl.
  - destruct (PoolAllocation.cbAfter a <? before) eqn:W; simpl.
    + pose proof (le_trans _ _ _ finite_zero Fa Fb Pa (lt_le _ _ W)) as C.
      rewrite (lt_not_ge _ _ N) in C. discriminate.
    + rewrite (positive_not_negative_rev _ N). exact IH.
  - destruct (int 0 <? before) eqn:P; simpl; [|exact IH].
    destruct (PoolAllocation.cbAfter a <? int 0) eqn:W; [|exact IH].
    rewrite (lt_not_ge _ _ W) in Pa. discriminate.
Qed.

(** An allocation of finite values that ends at or above zero passes
    the validation. *)
Lemma validatePoolingRules_covered (members : list (PoolMemberInput.t num)) :
  Forall (fun m => Number_isFinite (PoolMemberInput.cbBefore m) = true) members ->
  Forall (fun a => (int 0 <=? PoolAllocation.cbAfter a) = true)
    (CreatePoolUseCase.greedyAllocate members) ->
  CreatePoolUseCase.validatePoolingRules members
    (CreatePoolUseCase.greedyAllocate members) = inr tt.
Proof.
  intros F P. unfold CreatePoolUseCase.validatePoolingRules.
  apply checkAllocations_covered.
  - apply (Map_new_values (fun v => Number_isFinite v = true)).
    apply Forall_forall. intros kv I. apply in_map_iff in I.
    destruct I as (m & <- & I). simpl.
    exact (proj1 (Forall_forall _ _) F m I).
  - pose proof (greedyAllocate_settled F) as S.
    apply Forall_forall. intros a I. split.
    + apply (proj1 (Forall_forall _ _) S a I).
    + exact (proj1 (Forall_forall _ _) P a I).
Qed.

(** The allocation of finite values of distinct ships passes the
    validation. *)
Lemma validatePoolingRules_finite (members : list (PoolMemberInput.t num)) :
  Forall (fun m => Number_isFinite (PoolMemberInput.cbBefore m) = true) members ->
  NoDup (map (@PoolMemberInput.shipId num) members) ->
  CreatePoolUseCase.validatePoolingRules members
    (CreatePoolUseCase.greedyAllocate members) = inr tt.
Proof.
  intros F N.
  unfold CreatePoolUseCase.validatePoolingRules, Map_new.
  fold (entriesOf members).
  assert (Nk : NoDup (map fst (entriesOf members)))
    by (unfold entriesOf; rewrite map_map; exact N).
  rewrite (Map_new_distinct (entriesOf members) [] Nk). simpl.
  apply checkAllocations_fair.
  apply Forall_forall. intros a I. split.
  - apply settled_fair.
    exact (proj1 (Forall_forall _ _) (greedyAllocate_settled F) a I).
  - apply Map_get_distinct; [exact Nk|].
    assert (Ia : In (identity a)
                   (map identity (CreatePoolUseCase.greedyAllocate members)))
      by (apply in_map; exact I).
    rewrite greedyAllocate_identity in Ia.
    apply in_map_iff in Ia. destruct Ia as (m & E & Im).
    unfold entriesOf. apply in_map_iff. exists m. split; [exact E|].
    eapply Permutation_in; [apply Array_sort_Permutation|exact Im].
Qed.

(** C2 (amended).  On any numbers that satisfy the laws above, doubles
    among them: if every [cbBefore] of the list is finite, then every
    allocation that [greedyAllocate] produces is fair (a ship with
    negative [cbBefore] ends with [cbAfter >= cbBefore], one with
    positive [cbBefore] with [cbAfter >= 0]); and if moreover no ship is
    named twice, the allocation passes [validatePoolingRules], so that
    [execute] can only fail on its two preconditions, never with
    MemberExitsWorse or MemberExitsNegative. *)
Theorem pool_fairness_finite (members : list (PoolMemberInput.t num)) :
  Forall (fun m => Number_isFinite (PoolMemberInput.cbBefore m) = true) members ->
  Forall (fun a => fair a = true) (CreatePoolUseCase.greedyAllocate members)
  /\ (NoDup (map (@PoolMemberInput.shipId num) members) ->
      CreatePoolUseCase.validatePoolingRules members
        (CreatePoolUseCase.greedyAllocate members) = inr tt
      /\ forall (S : Type) (poolRepo : IPoolRepository.t num S) (year : num) (s : S)
                (e : Exception num),
          fst (CreatePoolUseCase.execute poolRepo (CreatePoolCommand.mk year members) s)
          = inl e ->
          e = PoolMinimumMembers \/ e = PoolNegativeTotal).
Proof.
  intros F. split.
  - eapply Forall_impl; [|exact (greedyAllocate_settled F)]. apply settled_fair.
  - intros N. pose proof (validatePoolingRules_finite F N) as V.
    split; [exact V|].
    intros S poolRepo year s e. rewrite create_pool_run. simpl.
    destruct (List.length members <? 2)%nat; simpl; [intros [= <-]; now left|].
    destruct (CreatePoolUseCase.totalCB members <? int 0); simpl;
      [intros [= <-]; now right|].
    rewrite V. simpl. discriminate.
Qed.

End Fairness.

(** The pool of the specification's example on doubles: both values are
    finite and the two ships are distinct. *)
Lemma pool_fairness_finite_witness :
  Forall (fun a => fair a = true) (CreatePoolUseCase.greedyAllocate samplePoolF)
  /\ CreatePoolUseCase.validatePoolingRules samplePoolF
       (CreatePoolUseCase.greedyAllocate samplePoolF) = inr tt.
Proof.
  assert (F : Forall (fun m => Number_isFinite (PoolMemberInput.cbBefore m) = true)
                samplePoolF)
    by (repeat constructor).
  assert (N : NoDup (map (@PoolMemberInput.shipId float) samplePoolF)).
  { simpl. repeat constructor; simpl; intuition discriminate. }
  destruct (pool_fairness_finite (ord := f64_order) (fin := f64_finite) F) as [A B].
  split; [exact A|]. exact (proj1 (B N)).
Defined.

(** On doubles, for the pool [-0.2, -0.1, 0.8], whose transfers round. *)
Lemma allocation_leaves_no_pair_witness :
  existsb (fun a => PoolAllocation.cbAfter a >? int 0)%js
    (CreatePoolUseCase.greedyAllocate roundingPool)
  && existsb (fun a => PoolAllocation.cbAfter a <? int 0)%js
       (CreatePoolUseCase.greedyAllocate roundingPool)
  = false.
Proof.
  apply (allocation_leaves_no_pair (ord := f64_order) (fin := f64_finite)).
  repeat constructor.
Defined.

(** ** The allocator on doubles that do not round: conservation *)

Section AlignedDoubles.
Local Open Scope Z_scope.

Lemma Zsum_map {A B : Type} (f : B -> Z) (h : A -> B) (l : list A) :
  Zsum f (map h l) = Zsum (fun a => f (h a)) l.
Proof. induction l as [|a rest IH]; simpl; [reflexivity|]. now rewrite IH. Qed.

Lemma Zsum_Permutation {A : Type} (f : A -> Z) (l l' : list A) :
  Permutation l l' -> Zsum f l = Zsum f l'.
Proof. induction 1; simpl; lia. Qed.

Lemma Zsum_le {A : Type} (f f' : A -> Z) (l : list A) :
  Forall (fun a => f a <= f' a) l -> Zsum f l <= Zsum f' l.
Proof. induction 1; simpl; lia. Qed.

Lemma Zsum_nonneg {A : Type} (f : A -> Z) (l : list A) :
  (forall a, 0 <= f a) -> 0 <= Zsum f l.
Proof.
  intros P. induction l as [|a rest IH]; simpl; [lia|]. specialize (P a). lia.
Qed.

Lemma Zsum_In {A : Type} (f : A -> Z) (l : list A) (a : A) :
  (forall x, 0 <= f x) -> In a l -> f a <= Zsum f l.
Proof.
  intros P. induction l as [|x rest IH]; simpl; [tauto|].
  pose proof (Zsum_nonneg f rest P). pose proof (P x).
  intros [->|I]; [lia|]. specialize (IH I). lia.
Qed.

Lemma Zsum_modify {A : Type} (f : A -> Z) (i : nat) (h : A -> A) (l : list A) (a : A) :
  nth_error l i = Some a -> Zsum f (modify i h l) = Zsum f l - f a + f (h a).
Proof.
  revert i. induction l as [|x rest IH]; intros [|i]; simpl; try discriminate.
  - intros [= ->]. lia.
  - intros E. rewrite (IH i E). lia.
Qed.

(** Adding up values of the grid whose magnitudes stay below [2^(53+g)]
    gives their sum. *)
Lemma f64_fold_sum (g : Z) {A : Type} (f : A -> float) (l : list A) (acc : float) :
  0 <= g <= 2045 ->
  PrimFloat.is_finite acc = true -> (2 ^ g | Fval acc) ->
  Forall (fun a => PrimFloat.is_finite (f a) = true /\ (2 ^ g | Fval (f a))) l ->
  Z.abs (Fval acc) + Zsum (fun a => Z.abs (Fval (f a))) l < 2 ^ (53 + g) ->
  let total := fold_left (fun sum a => PrimFloat.add sum (f a)) l acc in
  PrimFloat.is_finite total = true
  /\ Fval total = Fval acc + Zsum (fun a => Fval (f a)) l.
Proof.
  intros G Fa Da F. revert acc Fa Da.
  induction F as [|a rest [Fx Dx] _ IH]; intros acc Fa Da L;
    change (Zsum ?h (?x :: ?r)) with (h x + Zsum h r) in *; simpl fold_left.
  - split; [exact Fa|unfold Zsum; simpl; lia].
  - cbv beta in L. pose proof (Zsum_nonneg (fun a => Z.abs (Fval (f a))) rest
                  (fun a => Z.abs_nonneg _)) as P.
    destruct (f64_add_exact acc (f a) g Fa Fx G Da Dx ltac:(lia)) as [Fs Vs].
    destruct (IH (PrimFloat.add acc (f a)) Fs) as [Ft Vt].
    + rewrite Vs. now apply Z.divide_add_r.
    + rewrite Vs. lia.
    + split; [exact Ft|]. rewrite Vt, Vs. lia.
Qed.

(** What [settled] says of the values. *)
Lemma settled_val (a : PoolAllocation.t float) :
  settled a ->
  PrimFloat.is_finite (PoolAllocation.cbBefore a) = true
  /\ PrimFloat.is_finite (PoolAllocation.cbAfter a) = true
  /\ Z.abs (Fval (PoolAllocation.cbAfter a)) <= Z.abs (Fval (PoolAllocation.cbBefore a)).
Proof.
  intros (Fb & Fa & B). simpl in Fb, Fa.
  destruct f64_zero_val as [F0 V0].
  repeat split; auto.
  unfold int in B; simpl in B.
  rewrite (f64_leb_val _ _ F0 Fa), (f64_leb_val _ _ Fa Fb),
    (f64_leb_val _ _ Fb Fa), (f64_leb_val _ _ Fa F0), V0 in B.
  rewrite !Z.leb_le in B. lia.
Qed.

Lemma gridded_transfer (g total : Z) (i j : nat) (l : list (PoolAllocation.t float)) :
  0 <= g <= 2045 ->
  Forall settled l -> gridded g total l ->
  (int 0 <? CreatePoolUseCase.cbAfterAt l i)%js = true ->
  (CreatePoolUseCase.cbAfterAt l j <? int 0)%js = true ->
  let transfer :=
    Math_min (CreatePoolUseCase.cbAfterAt l i)
      (Math_abs (CreatePoolUseCase.cbAfterAt l j)) in
  gridded g total
    (modify j (CreatePoolUseCase.setCbAfter (fun v => (v + transfer)%js))
       (modify i (CreatePoolUseCase.setCbAfter (fun v => (v - transfer)%js)) l)).
Proof.
  intros G S [Gr Sum] Pi Nj transfer.
  destruct (after_nth l i (or_intror Pi)) as (ai & Ei & Vi).
  destruct (after_nth l j (or_introl Nj)) as (aj & Ej & Vj).
  assert (N : i <> j).
  { intros ->. rewrite (positive_not_negative _ Pi) in Nj. discriminate. }
  destruct (settled_val (proj1 (Forall_forall _ _) S ai (nth_error_In _ _ Ei)))
    as (_ & Fai & Ai).
  destruct (settled_val (proj1 (Forall_forall _ _) S aj (nth_error_In _ _ Ej)))
    as (_ & Faj & Aj).
  destruct (proj1 (Forall_forall _ _) Gr ai (nth_error_In _ _ Ei)) as [Di Bi].
  destruct (proj1 (Forall_forall _ _) Gr aj (nth_error_In _ _ Ej)) as [Dj Bj].
  set (x := CreatePoolUseCase.cbAfterAt l i) in *.
  set (y := CreatePoolUseCase.cbAfterAt l j) in *.
  rewrite Vi in Fai, Ai, Di. rewrite Vj in Faj, Aj, Dj.
  destruct f64_zero_val as [F0 V0].
  unfold int in Pi, Nj; simpl in Pi, Nj.
  rewrite (f64_ltb_val _ _ F0 Fai), V0 in Pi. apply Z.ltb_lt in Pi.
  rewrite (f64_ltb_val _ _ Faj F0), V0 in Nj. apply Z.ltb_lt in Nj.
  destruct (f64_abs_val y Faj) as [Fab Vab].
  destruct (f64_min_val x (PrimFloat.abs y) Fai Fab) as [Ft Vt].
  change (f64_min x (PrimFloat.abs y)) with transfer in Ft, Vt.
  rewrite Vab in Vt.
  assert (Dt : (2 ^ g | Fval transfer)).
  { rewrite Vt. destruct (Z.min_spec (Fval x) (Z.abs (Fval y))) as [[_ ->]|[_ ->]];
      [exact Di|now apply Z.divide_abs_r]. }
  destruct (f64_sub_exact x transfer g Fai Ft G Di Dt ltac:(lia)) as [Fs Vs].
  destruct (f64_add_exact y transfer g Faj Ft G Dj Dt ltac:(lia)) as [Fd Vd].
  assert (Ej' : nth_error
                  (modify i (CreatePoolUseCase.setCbAfter (fun v => (v - transfer)%js)) l) j
                = Some aj)
    by (rewrite nth_error_modify_other by auto; exact Ej).
  split.
  - apply Forall_modify; [apply Forall_modify; [exact Gr|]|].
    + intros a E _. rewrite Ei in E. injection E as <-. simpl.
      rewrite Vi. split; [|exact Bi].
      change (2 ^ g | Fval (PrimFloat.sub x transfer)). rewrite Vs.
      now apply Z.divide_sub_r.
    + intros a E _. rewrite Ej' in E. injection E as <-. simpl.
      rewrite Vj. split; [|exact Bj].
      change (2 ^ g | Fval (PrimFloat.add y transfer)). rewrite Vd.
      now apply Z.divide_add_r.
  - rewrite (@Zsum_modify _ _ j _ _ aj Ej'), (@Zsum_modify _ _ i _ l ai Ei). simpl.
    rewrite Vi, Vj.
    change (Fval (x - transfer)%js) with (Fval (PrimFloat.sub x transfer)).
    change (Fval (y + transfer)%js) with (Fval (PrimFloat.add y transfer)).
    rewrite Vs, Vd. lia.
Qed.

Lemma aligned_values (k : Z) (members : list (PoolMemberInput.t float))
  (m : PoolMemberInput.t float) :
  aligned k members -> In m members ->
  PrimFloat.is_finite (PoolMemberInput.cbBefore m) = true
  /\ (2 ^ (k + 1074) | Fval (PoolMemberInput.cbBefore m))
  /\ Z.abs (Fval (PoolMemberInput.cbBefore m)) < 2 ^ (53 + (k + 1074)).
Proof.
  intros (K & Al & L) I.
  destruct (proj1 (Forall_forall _ _) Al m I) as [F D].
  repeat split; [exact F| |].
  - apply Z.mod_divide; [|exact D]. pose proof (pow2_pos (k + 1074)). lia.
  - pose proof (Zsum_In (fun m => Z.abs (Fval (PoolMemberInput.cbBefore m))) members m
                  (fun _ => Z.abs_nonneg _) I) as B.
    cbv beta in B. replace (53 + (k + 1074)) with (53 + k + 1074) by lia. lia.
Qed.

(** The allocation of aligned members is settled, on the grid, and its
    [cbAfter] sum to the sum of the members' [cbBefore]. *)
Lemma greedyAllocate_gridded (k : Z) (members : list (PoolMemberInput.t float)) :
  aligned k members ->
  Forall settled (CreatePoolUseCase.greedyAllocate members)
  /\ gridded (k + 1074) (Zsum (fun m => Fval (PoolMemberInput.cbBefore m)) members)
       (CreatePoolUseCase.greedyAllocate members).
Proof.
  intros Al. pose proof Al as (K & Fm & L).
  assert (F : Forall (fun m => Number_isFinite (PoolMemberInput.cbBefore m) = true) members).
  { eapply Forall_impl; [|exact Fm]. intros m [Fi _]. exact Fi. }
  unfold CreatePoolUseCase.greedyAllocate. fold (sortedCopy members).
  apply (transferAll_kept
           (gridded (k + 1074) (Zsum (fun m => Fval (PoolMemberInput.cbBefore m)) members))).
  - intros i j l S Kp Pi Nj. apply gridded_transfer; auto. lia.
  - now apply initial_settled.
  - split.
    + apply Forall_forall. intros a I.
      apply in_map_iff in I. destruct I as (m & <- & I). simpl.
      assert (Im : In m members)
        by (eapply Permutation_in; [|exact I]; apply Array_sort_Permutation).
      destruct (@aligned_values k members m Al Im) as (_ & D & B). now split.
    + rewrite Zsum_map. simpl. apply Zsum_Permutation, Array_sort_Permutation.
Qed.

(** The sums over the allocation of aligned members, and over the
    members, are all the same number. *)
Lemma aligned_sums (k : Z) (members : list (PoolMemberInput.t float)) :
  aligned k members ->
  let allocations := CreatePoolUseCase.greedyAllocate members in
  (sumCbAfter allocations === sumCbBefore allocations)%js = true
  /\ (sumCbAfter allocations === CreatePoolUseCase.totalCB members)%js = true.
Proof.
  intros Al allocations. pose proof Al as (K & Fm & L).
  destruct (greedyAllocate_gridded Al) as (St & Gr & Sum). fold allocations in St, Gr, Sum.
  set (g := k + 1074) in *.
  assert (G : 0 <= g <= 2045) by (unfold g; lia).
  destruct f64_zero_val as [F0 V0].
  assert (D0 : (2 ^ g | Fval (f64_lit 0 1))) by (rewrite V0; apply Z.divide_0_r).
  (* every allocation carries a member's value *)
  assert (From : forall a, In a allocations ->
                   exists m, In m members
                     /\ PoolMemberInput.cbBefore m = PoolAllocation.cbBefore a).
  { intros a I.
    assert (Ia : In (identity a) (map identity allocations)) by (apply in_map; exact I).
    unfold allocations in Ia. rewrite greedyAllocate_identity in Ia.
    apply in_map_iff in Ia. destruct Ia as (m & E & Im). exists m. split.
    - eapply Permutation_in; [|exact Im]. apply Array_sort_Permutation.
    - unfold identity in E. congruence. }
  (* sums of a function of [cbBefore] over the allocation and the members *)
  assert (Same : forall phi : float -> Z,
             Zsum (fun a => phi (PoolAllocation.cbBefore a)) allocations
             = Zsum (fun m => phi (PoolMemberInput.cbBefore m)) members).
  { intros phi.
    transitivity (Zsum (fun p : string * float => phi (snd p)) (map identity allocations)).
    - now rewrite Zsum_map.
    - unfold allocations. rewrite greedyAllocate_identity, Zsum_map. simpl.
      apply Zsum_Permutation, Array_sort_Permutation. }
  assert (Lb : Zsum (fun a => Z.abs (Fval (PoolAllocation.cbBefore a))) allocations
               < 2 ^ (53 + g)).
  { rewrite (Same (fun x => Z.abs (Fval x))). unfold g.
    replace (53 + (k + 1074)) with (53 + k + 1074) by lia. exact L. }
  assert (La : Zsum (fun a => Z.abs (Fval (PoolAllocation.cbAfter a))) allocations
               < 2 ^ (53 + g)).
  { eapply Z.le_lt_trans; [|exact Lb]. apply Zsum_le.
    eapply Forall_impl; [|exact St]. intros a Sa. apply (settled_val Sa). }
  destruct (@f64_fold_sum g _ (@PoolAllocation.cbAfter float) allocations (f64_lit 0 1)
              G F0 D0) as [Fa Va].
  { apply Forall_forall. intros a I. split.
    - apply (settled_val (proj1 (Forall_forall _ _) St a I)).
    - apply (proj1 (Forall_forall _ _) Gr a I). }
  { rewrite V0. simpl Z.abs. lia. }
  destruct (@f64_fold_sum g _ (@PoolAllocation.cbBefore float) allocations (f64_lit 0 1)
              G F0 D0) as [Fb Vb].
  { apply Forall_forall. intros a I. split.
    - apply (settled_val (proj1 (Forall_forall _ _) St a I)).
    - destruct (From a I) as (m & Im & <-). apply (@aligned_values k members m Al Im). }
  { rewrite V0. simpl Z.abs. lia. }
  destruct (@f64_fold_sum g _ (@PoolMemberInput.cbBefore float) members (f64_lit 0 1)
              G F0 D0) as [Ft Vt].
  { apply Forall_forall. intros m Im.
    destruct (@aligned_values k members m Al Im) as (Fi & D & _). now split. }
  { rewrite V0. simpl Z.abs. unfold g.
    replace (53 + (k + 1074)) with (53 + k + 1074) by lia. lia. }
  change (fold_left (fun sum a => PrimFloat.add sum (PoolAllocation.cbAfter a))
            allocations (f64_lit 0 1)) with (sumCbAfter allocations) in Fa, Va.
  change (fold_left (fun sum a => PrimFloat.add sum (PoolAllocation.cbBefore a))
            allocations (f64_lit 0 1)) with (sumCbBefore allocations) in Fb, Vb.
  change (fold_left (fun sum m => PrimFloat.add sum (PoolMemberInput.cbBefore m))
            members (f64_lit 0 1)) with (CreatePoolUseCase.totalCB members) in Ft, Vt.
  rewrite V0 in Va, Vb, Vt. rewrite Sum in Va. rewrite (Same Fval) in Vb.
  simpl js_eq.
  rewrite (f64_eqb_val _ _ Fa Fb), (f64_eqb_val _ _ Fa Ft).
  split; apply Z.eqb_eq; lia.
Qed.

Lemma Zsum_nonpos_zero {A : Type} (f : A -> Z) (l : list A) :
  Forall (fun a => f a <= 0) l -> 0 <= Zsum f l -> Forall (fun a => f a = 0) l.
Proof.
  induction 1 as [|a rest Na F IH]; intros P; [constructor|].
  change (Zsum f (a :: rest)) with (f a + Zsum f rest) in P.
  assert (R : Zsum f rest <= 0).
  { clear IH P. induction F as [|x r Nx _ IHr]; [unfold Zsum; simpl; lia|].
    change (Zsum f (x :: r)) with (f x + Zsum f r). lia. }
  constructor; [lia|]. apply IH. lia.
Qed.

(** The total that [execute] computes for aligned members is their sum. *)
Lemma aligned_total (k : Z) (members : list (PoolMemberInput.t float)) :
  aligned k members ->
  PrimFloat.is_finite (CreatePoolUseCase.totalCB members) = true
  /\ Fval (CreatePoolUseCase.totalCB members)
     = Zsum (fun m => Fval (PoolMemberInput.cbBefore m)) members.
Proof.
  intros Al. pose proof Al as (K & Fm & L).
  destruct f64_zero_val as [F0 V0].
  assert (G : 0 <= k + 1074 <= 2045) by lia.
  assert (D0 : (2 ^ (k + 1074) | Fval (f64_lit 0 1))) by (rewrite V0; apply Z.divide_0_r).
  destruct (@f64_fold_sum (k + 1074) _ (@PoolMemberInput.cbBefore float) members
              (f64_lit 0 1) G F0 D0) as [Ft Vt].
  - apply Forall_forall. intros m Im.
    destruct (@aligned_values k members m Al Im) as (Fi & D & _). now split.
  - rewrite V0. simpl Z.abs.
    replace (53 + (k + 1074)) with (53 + k + 1074) by lia. lia.
  - rewrite V0 in Vt. split; [exact Ft|exact Vt].
Qed.

(** An accepted list of aligned members is allocated with no deficit
    left. *)
Lemma aligned_covered (k : Z) (members : list (PoolMemberInput.t float)) :
  aligned k members ->
  (CreatePoolUseCase.totalCB members <? int 0)%js = false ->
  Forall (fun a => (int 0 <=? PoolAllocation.cbAfter a)%js = true)
    (CreatePoolUseCase.greedyAllocate members).
Proof.
  intros Al T. pose proof Al as (K & Fm & L).
  assert (F : Forall (fun m => Number_isFinite (PoolMemberInput.cbBefore m) = true) members).
  { eapply Forall_impl; [|exact Fm]. intros m [Fi _]. exact Fi. }
  destruct (greedyAllocate_covers F) as [Neg|All]; [|exact All].
  destruct (greedyAllocate_gridded Al) as (St & _ & Sum).
  destruct (aligned_total Al) as [Ft Vt].
  destruct f64_zero_val as [F0 V0].
  unfold int in T; simpl in T.
  rewrite (f64_ltb_val _ _ Ft F0), V0 in T. apply Z.ltb_ge in T.
  assert (Fin : forall a, In a (CreatePoolUseCase.greedyAllocate members) ->
                  PrimFloat.is_finite (PoolAllocation.cbAfter a) = true).
  { intros a I. apply (settled_val (proj1 (Forall_forall _ _) St a I)). }
  assert (Z0 : Forall (fun a => Fval (PoolAllocation.cbAfter a) = 0)
                 (CreatePoolUseCase.greedyAllocate members)).
  { apply Zsum_nonpos_zero; [|rewrite Sum, <- Vt; exact T].
    apply Forall_forall. intros a I.
    pose proof (proj1 (Forall_forall _ _) Neg a I) as N.
    unfold int in N; simpl in N.
    rewrite (f64_leb_val _ _ (Fin a I) F0), V0 in N. now apply Z.leb_le in N. }
  apply Forall_forall. intros a I.
  pose proof (proj1 (Forall_forall _ _) Z0 a I) as Z.
  unfold int; simpl.
  rewrite (f64_leb_val _ _ F0 (Fin a I)), V0, Z. reflexivity.
Qed.

(** On doubles every accepted run on aligned members conserves the
    total. *)
Lemma conserved_aligned (S : Type) (poolRepo : IPoolRepository.t float S)
  (command : CreatePoolCommand.t float) (s : S) (k : Z) :
  CreatePoolUseCase.accepted (CreatePoolCommand.members command) = true ->
  aligned k (CreatePoolCommand.members command) ->
  conserved poolRepo command s.
Proof.
  intros Acc Al. set (members := CreatePoolCommand.members command) in *.
  assert (F : Forall (fun m => Number_isFinite (PoolMemberInput.cbBefore m) = true) members).
  { eapply Forall_impl; [|exact (proj1 (proj2 Al))]. intros m [Fi _]. exact Fi. }
  unfold CreatePoolUseCase.accepted in Acc.
  apply andb_true_iff in Acc. destruct Acc as [A1 A2].
  apply negb_true_iff in A1. apply negb_true_iff in A2.
  pose proof (validatePoolingRules_covered F (aligned_covered Al A2)) as V.
  destruct (aligned_sums Al) as [A B].
  unfold conserved. rewrite create_pool_run. fold members.
  cbv zeta. rewrite A1, A2, V. simpl fst.
  do 2 eexists. split; [reflexivity|]. split; assumption.
Qed.

End AlignedDoubles.

(** C1 (amended).  A run of [execute] on an accepted member list (at
    least two members, sum of [cbBefore] not below zero) returns the
    allocation and conserves the total, the sum of [cbAfter] being [===]
    the sum of [cbBefore]:
    - in exact arithmetic, for every accepted list;
    - on doubles, for every accepted list whose [cbBefore] are all
      multiples of one power of two [2^k], with [-1074 <= k <= 971],
      and have magnitudes summing to less than [2^(53+k)], so that no
      addition or subtraction rounds or overflows. *)
Theorem pool_conservation :
  (forall (S : Type) (poolRepo : IPoolRepository.t Q S)
          (command : CreatePoolCommand.t Q) (s : S),
     CreatePoolUseCase.accepted (CreatePoolCommand.members command) = true ->
     conserved poolRepo command s)
  /\ (forall (S : Type) (poolRepo : IPoolRepository.t float S)
             (command : CreatePoolCommand.t float) (s : S) (k : Z),
        CreatePoolUseCase.accepted (CreatePoolCommand.members command) = true ->
        aligned k (CreatePoolCommand.members command) ->
        conserved poolRepo command s).
Proof.
  split.
  - intros S poolRepo command s. apply conserved_exact.
  - intros S poolRepo command s k. apply conserved_aligned.
Qed.

(** The example of the specification, S001 with 1250.5 and S002 with
    -800, in exact arithmetic and on doubles (multiples of [2^-1]). *)
Lemma pool_conservation_witness :
  conserved Memory.poolRepo (CreatePoolCommand.mk (int 2025) samplePool) emptyStore
  /\ conserved Memory.poolRepo (CreatePoolCommand.mk (int 2025) samplePoolF) emptyStore.
Proof.
  split.
  - apply (proj1 pool_conservation). vm_compute. reflexivity.
  - apply (proj2 pool_conservation _ _ _ _ (-1)%Z).
    + vm_compute. reflexivity.
    + split; [lia|]. split.
      * repeat constructor; vm_compute; reflexivity.
      * vm_compute. reflexivity.
Defined.

(** ** Creating a pool: the total that is checked and the sum *)

Lemma totalCB_Qsum (members : list (PoolMemberInput.t Q)) :
  (CreatePoolUseCase.totalCB members == Qsum (@PoolMemberInput.cbBefore Q) members)%Q.
Proof.
  induction members as [|m rest IH]; [reflexivity|].
  unfold CreatePoolUseCase.totalCB in *.
  rewrite (fold_sum_cons (@PoolMemberInput.cbBefore Q)).
  simpl Qsum. rewrite <- IH. reflexivity.
Qed.

(** C5 (amended).  [execute] fails with PoolMinimumMembers exactly when
    the list has fewer than two members; with two or more it fails with
    PoolNegativeTotal exactly when the total that it computes, the
    left-to-right [reduce] of the [cbBefore] from [0], is below zero (the
    length is checked first); both are [ValidationError]s; a computed
    total of zero passes both checks; and on either failure the store is
    what it was, so no pool was persisted and the result carries no
    allocation.  The computed total is the sum of the members'
    [cbBefore]
    - in exact arithmetic, for every list;
    - on doubles, for every list whose [cbBefore] are all multiples of
      one power of two [2^k], with [-1074 <= k <= 971], and have
      magnitudes summing to less than [2^(53+k)];
    so that there the run fails with PoolNegativeTotal exactly when the
    sum is below zero, and a sum of zero is accepted. *)
Theorem create_pool_preconditions :
  (forall (num S : Type) (N : JsNumber num) (ord : JsOrder num)
          (poolRepo : IPoolRepository.t num S) (command : CreatePoolCommand.t num)
          (s : S),
     let members := CreatePoolCommand.members command in
     let run := CreatePoolUseCase.execute poolRepo command s in
     (fst run = inl PoolMinimumMembers <-> (List.length members < 2)%nat)
     /\ ((2 <= List.length members)%nat ->
         (fst run = inl PoolNegativeTotal <->
          (CreatePoolUseCase.totalCB members <? int 0)%js = true))
     /\ isValidationError (PoolMinimumMembers : Exception num) = true
     /\ isValidationError (PoolNegativeTotal : Exception num) = true
     /\ ((2 <= List.length members)%nat ->
         (CreatePoolUseCase.totalCB members === int 0)%js = true ->
         CreatePoolUseCase.accepted members = true
         /\ fst run <> inl PoolMinimumMembers /\ fst run <> inl PoolNegativeTotal)
     /\ (fst run = inl PoolMinimumMembers \/ fst run = inl PoolNegativeTotal ->
         snd run = s))
  /\ (forall (S : Type) (poolRepo : IPoolRepository.t Q S)
             (command : CreatePoolCommand.t Q) (s : S),
        let members := CreatePoolCommand.members command in
        let run := CreatePoolUseCase.execute poolRepo command s in
        let sum := Qsum (@PoolMemberInput.cbBefore Q) members in
        (CreatePoolUseCase.totalCB members == sum)%Q
        /\ ((2 <= List.length members)%nat ->
            (fst run = inl PoolNegativeTotal <-> (sum < 0)%Q)
            /\ ((sum == 0)%Q -> CreatePoolUseCase.accepted members = true)))
  /\ (forall (S : Type) (poolRepo : IPoolRepository.t float S)
             (command : CreatePoolCommand.t float) (s : S) (k : Z),
        let members := CreatePoolCommand.members command in
        let run := CreatePoolUseCase.execute poolRepo command s in
        let sum := Zsum (fun m => Fval (PoolMemberInput.cbBefore m)) members in
        aligned k members ->
        PrimFloat.is_finite (CreatePoolUseCase.totalCB members) = true
        /\ Fval (CreatePoolUseCase.totalCB members) = sum
        /\ ((2 <= List.length members)%nat ->
            (fst run = inl PoolNegativeTotal <-> (sum < 0)%Z)
            /\ (sum = 0%Z -> CreatePoolUseCase.accepted members = true))).
Proof.
  split; [|split].
  - intros num S N ord poolRepo command s. apply create_pool_checks.
  - intros S poolRepo command s members run sum.
    pose proof (totalCB_Qsum members) as E. fold sum in E.
    split; [exact E|]. intros L.
    destruct (create_pool_checks (ord := exact_order) poolRepo command s)
      as (_ & T & _ & _ & Z & _).
    fold members run in T, Z. specialize (T L). specialize (Z L).
    change (@js_lt Q exact) with Q_lt in T. change (@js_eq Q exact) with Qeq_bool in Z.
    change (@int Q exact 0) with 0%Q in T, Z.
    split.
    + rewrite T, Q_lt_iff, E. reflexivity.
    + intros Z0. apply Z. apply Qeq_bool_iff. now rewrite E.
  - intros S poolRepo command s k members run sum Al.
    destruct (aligned_total Al) as [Ft Vt]. fold sum in Vt.
    split; [exact Ft|]. split; [exact Vt|]. intros L.
    destruct (create_pool_checks (ord := f64_order) poolRepo command s)
      as (_ & T & _ & _ & Z & _).
    fold members run in T, Z. specialize (T L). specialize (Z L).
    destruct f64_zero_val as [F0 V0].
    unfold int in T, Z; simpl in T, Z.
    rewrite (f64_ltb_val _ _ Ft F0), V0, Vt in T.
    rewrite (f64_eqb_val _ _ Ft F0), V0, Vt in Z.
    split.
    + rewrite T. apply Z.ltb_lt.
    + intros Z0. apply Z. now apply Z.eqb_eq.
Qed.

(** On doubles: the pool of 100 and -100, whose sum is zero, is
    accepted. *)
Lemma create_pool_preconditions_witness :
  CreatePoolUseCase.accepted
    [member "S001" (int 100 : float); member "S002" (int (-100))] = true.
Proof.
  apply (proj2 (proj2 create_pool_preconditions) _ Memory.poolRepo
           (CreatePoolCommand.mk (int 2025)
              [member "S001" (int 100 : float); member "S002" (int (-100))])
           emptyStore 0%Z).
  - split; [lia|]. split.
    + repeat constructor; vm_compute; reflexivity.
    + vm_compute. reflexivity.
  - simpl. lia.
  - vm_compute. reflexivity.
Defined.

(** C5 as the specification words it fails on doubles, where the total
    is rounded at every addition.  The values of [-1.5, -1.2, 1.2, 1.5]
    sum to zero, and [execute] rejects the pool with PoolNegativeTotal
    (it accepts the same members in reverse order); the values of
    [-3, 0.1, 2.9] sum to a number below zero, and [execute] accepts the
    pool and returns an allocation.  The sums are those of the numbers
    the doubles stand for, in units of [2^-1074]. *)
Lemma create_pool_sum_fails_on_doubles :
  (forallb (fun m => PrimFloat.is_finite (PoolMemberInput.cbBefore m)) cancellingPool = true
   /\ Zsum (fun m => Fval (PoolMemberInput.cbBefore m)) cancellingPool = 0%Z
   /\ CreatePoolUseCase.execute Memory.poolRepo
        (CreatePoolCommand.mk (int 2025) cancellingPool) emptyStore
      = (inl PoolNegativeTotal, emptyStore)
   /\ CreatePoolUseCase.accepted (rev cancellingPool) = true)
  /\ (forallb (fun m => PrimFloat.is_finite (PoolMemberInput.cbBefore m)) shortPool = true
      /\ (Zsum (fun m => Fval (PoolMemberInput.cbBefore m)) shortPool <? 0)%Z = true
      /\ CreatePoolUseCase.accepted shortPool = true
      /\ exists poolId allocations,
           fst (CreatePoolUseCase.execute Memory.poolRepo
                  (CreatePoolCommand.mk (int 2025) shortPool) emptyStore)
           = inr (poolId, allocations)).
Proof.
  split.
  - repeat split; vm_compute; reflexivity.
  - split; [vm_compute; reflexivity|]. split; [vm_compute; reflexivity|].
    split; [vm_compute; reflexivity|].
    do 2 eexists. vm_compute. reflexivity.
Qed.

(** ** Applying banked surplus on doubles *)

Unset Implicit Arguments.

Section LedgerShape.
Context {num : Type} `{JsNumber num}.
Local Open Scope js_scope.

Lemma entriesOf_applyToOldest (shipId : string) (year amount : num)
  (entries : list (BankEntry.t num)) :
  Memory.entriesOf shipId year (Memory.applyToOldest shipId year amount entries)
  = match Memory.entriesOf shipId year entries with
    | [] => []
    | e :: rest =>
      BankEntry.mk (BankEntry.shipId e) (BankEntry.year e) (BankEntry.amountGco2eq e)
        (BankEntry.appliedAmount e + amount) :: rest
    end.
Proof.
  induction entries as [|e rest IH]; simpl; [reflexivity|].
  destruct (Memory.sameKey shipId year (BankEntry.shipId e) (BankEntry.year e)) eqn:K;
    simpl; rewrite K; [reflexivity|exact IH].
Qed.

End LedgerShape.

Section AlignedLedger.
Local Open Scope Z_scope.

Lemma Zsum_abs_le {A : Type} (f h : A -> Z) (l : list A) :
  (forall a, Z.abs (f a) <= h a) -> Z.abs (Zsum f l) <= Zsum h l.
Proof.
  intros B. induction l as [|a rest IH]; simpl; [lia|]. specialize (B a). lia.
Qed.

Lemma Zsum_divide {A : Type} (d : Z) (f : A -> Z) (l : list A) :
  Forall (fun a => (d | f a)) l -> (d | Zsum f l).
Proof.
  induction 1 as [|a rest Da _ IH]; simpl; [apply Z.divide_0_r|].
  now apply Z.divide_add_r.
Qed.

(** The totals of entries on the grid of [2^g] units are their sums. *)
Lemma ledger_sums (g : Z) (entries : list (BankEntry.t float)) :
  0 <= g <= 2045 ->
  Forall (fun e =>
            (PrimFloat.is_finite (BankEntry.amountGco2eq e) = true
             /\ (2 ^ g | Fval (BankEntry.amountGco2eq e)))
            /\ PrimFloat.is_finite (BankEntry.appliedAmount e) = true
               /\ (2 ^ g | Fval (BankEntry.appliedAmount e))) entries ->
  Zsum (fun e => Z.abs (Fval (BankEntry.amountGco2eq e))
                 + Z.abs (Fval (BankEntry.appliedAmount e))) entries < 2 ^ (53 + g) ->
  (PrimFloat.is_finite (Memory.totalOf entries) = true
   /\ (2 ^ g | Fval (Memory.totalOf entries))
   /\ Fval (Memory.totalOf entries)
      = Zsum (fun e => Fval (BankEntry.amountGco2eq e) - Fval (BankEntry.appliedAmount e))
          entries)
  /\ PrimFloat.is_finite (Memory.appliedOf entries) = true
     /\ Fval (Memory.appliedOf entries)
        = Zsum (fun e => Fval (BankEntry.appliedAmount e)) entries.
Proof.
  intros G F L.
  set (size := fun e : BankEntry.t float =>
                 Z.abs (Fval (BankEntry.amountGco2eq e))
                 + Z.abs (Fval (BankEntry.appliedAmount e))) in *.
  assert (Sz : forall e, 0 <= size e) by (intros e; unfold size; lia).
  assert (U : Forall (fun e => PrimFloat.is_finite (Memory.unapplied e) = true
                               /\ (2 ^ g | Fval (Memory.unapplied e))
                               /\ Fval (Memory.unapplied e)
                                  = Fval (BankEntry.amountGco2eq e)
                                    - Fval (BankEntry.appliedAmount e)) entries).
  { apply Forall_forall. intros e I.
    destruct (proj1 (Forall_forall _ _) F e I) as [[Fa Da] [Fp Dp]].
    pose proof (Zsum_In size entries e Sz I) as B. unfold size in B at 1.
    destruct (f64_sub_exact _ _ g Fa Fp G Da Dp ltac:(lia)) as [Fu Vu].
    unfold Memory.unapplied. split; [exact Fu|]. split; [|exact Vu].
    change (@js_sub float f64) with PrimFloat.sub. rewrite Vu. now apply Z.divide_sub_r. }
  destruct f64_zero_val as [F0 V0].
  assert (D0 : (2 ^ g | Fval (f64_lit 0 1))) by (rewrite V0; apply Z.divide_0_r).
  split.
  - destruct (@f64_fold_sum g _ (@Memory.unapplied float f64) entries (f64_lit 0 1)
                G F0 D0) as [Ft Vt].
    + eapply Forall_impl; [|exact U]. intros e (Fu & Du & _). now split.
    + rewrite V0.
      change (0 + Zsum (fun e => Z.abs (Fval (Memory.unapplied e))) entries < 2 ^ (53 + g)).
      assert (Zsum (fun e => Z.abs (Fval (Memory.unapplied e))) entries <= Zsum size entries).
      { apply Zsum_le. eapply Forall_impl; [|exact U].
        intros e (_ & _ & ->). unfold size. lia. }
      lia.
    + rewrite V0 in Vt.
      assert (E : Zsum (fun e => Fval (Memory.unapplied e)) entries
                  = Zsum (fun e => Fval (BankEntry.amountGco2eq e)
                                   - Fval (BankEntry.appliedAmount e)) entries).
      { clear -U. induction U as [|e rest (_ & _ & Ve) _ IH]; [reflexivity|].
        change (Zsum ?h (?x :: ?r)) with (h x + Zsum h r). cbv beta.
        rewrite Ve, IH. reflexivity. }
      split; [exact Ft|]. split.
      * change (Memory.totalOf entries)
          with (fold_left (fun sum e => PrimFloat.add sum (Memory.unapplied e)) entries
                  (f64_lit 0 1)).
        rewrite Vt. simpl. apply Zsum_divide.
        eapply Forall_impl; [|exact U]. intros e (_ & Du & _). exact Du.
      * change (Memory.totalOf entries)
          with (fold_left (fun sum e => PrimFloat.add sum (Memory.unapplied e)) entries
                  (f64_lit 0 1)).
        rewrite Vt, <- E. lia.
  - destruct (@f64_fold_sum g _ (@BankEntry.appliedAmount float) entries (f64_lit 0 1)
                G F0 D0) as [Ft Vt].
    + eapply Forall_impl; [|exact F]. intros e [_ P]. exact P.
    + rewrite V0.
      change (0 + Zsum (fun e => Z.abs (Fval (BankEntry.appliedAmount e))) entries
              < 2 ^ (53 + g)).
      assert (Zsum (fun e => Z.abs (Fval (BankEntry.appliedAmount e))) entries
              <= Zsum size entries).
      { apply Zsum_le. apply Forall_forall. intros e _. unfold size. lia. }
      lia.
    + rewrite V0 in Vt. split; [exact Ft|].
      change (Memory.appliedOf entries)
        with (fold_left (fun sum e => PrimFloat.add sum (BankEntry.appliedAmount e)) entries
                (f64_lit 0 1)).
      rewrite Vt. lia.
Qed.


Lemma multipleOf_grid (k : Z) (x : float) :
  -1074 <= k -> multipleOf k x ->
  PrimFloat.is_finite x = true /\ (2 ^ (k + 1074) | Fval x).
Proof.
  intros K [Fx Dx]. split; [exact Fx|].
  apply Z.mod_divide in Dx; [exact Dx|].
  pose proof (pow2_pos (k + 1074) ltac:(lia)). lia.
Qed.

(** On doubles that do not round, a successful [applyBanked] moves the
    amount from the unapplied total to the applied total. *)
Lemma apply_banked_aligned (command : ApplyBankedCommand.t float) (s : Store.t float)
  (k : Z) :
  let shipId := ApplyBankedCommand.shipId command in
  let year := ApplyBankedCommand.year command in
  let amount := ApplyBankedCommand.amount command in
  let s' := snd (runApply command s) in
  alignedLedger k amount (Memory.entriesOf shipId year (Store.bankEntries s)) ->
  fst (runApply command s) = inr tt ->
  PrimFloat.eqb (Memory.totalApplied shipId year s')
    (PrimFloat.add (Memory.totalApplied shipId year s) amount) = true
  /\ PrimFloat.eqb (Memory.getTotalBanked shipId year s')
       (PrimFloat.sub (Memory.getTotalBanked shipId year s) amount) = true
  /\ PrimFloat.leb (f64_lit 0 1) (Memory.getTotalBanked shipId year s') = true.
Proof.
  intros shipId year amount s' (K & Am & Fe & B). subst s'.
  unfold runApply, ApplyBankedUseCase.execute, bind, read, throw. simpl.
  fold shipId year amount.
  unfold Memory.getTotalBanked, Memory.totalApplied.
  set (entries := Memory.entriesOf shipId year (Store.bankEntries s)) in *.
  set (g := k + 1074) in *.
  assert (G : 0 <= g <= 2045) by (unfold g; lia).
  replace (53 + k + 1074) with (53 + g) in B by (unfold g; lia).
  destruct (multipleOf_grid k amount (proj1 K) Am) as [Fm Dm]. fold g in Dm.
  assert (F : Forall (fun e =>
                        (PrimFloat.is_finite (BankEntry.amountGco2eq e) = true
                         /\ (2 ^ g | Fval (BankEntry.amountGco2eq e)))
                        /\ PrimFloat.is_finite (BankEntry.appliedAmount e) = true
                           /\ (2 ^ g | Fval (BankEntry.appliedAmount e))) entries).
  { eapply Forall_impl; [|exact Fe]. intros e [Ma Mp].
    split; apply multipleOf_grid; auto; lia. }
  set (size := fun e : BankEntry.t float =>
                 Z.abs (Fval (BankEntry.amountGco2eq e))
                 + Z.abs (Fval (BankEntry.appliedAmount e))) in *.
  assert (Sz : 0 <= Zsum size entries) by (apply Zsum_nonneg; intros e; unfold size; lia).
  destruct (ledger_sums g entries G F ltac:(fold size; lia)) as [(Ft & Dt & Vt) (Fp & Vp)].
  destruct f64_zero_val as [F0 V0].
  destruct (PrimFloat.leb (Memory.totalOf entries) (f64_lit 0 1)) eqn:P;
    simpl; [discriminate|].
  destruct (PrimFloat.ltb (Memory.totalOf entries) amount) eqn:Gt; simpl; [discriminate|].
  intros _.
  rewrite (f64_leb_val _ _ Ft F0), V0 in P. apply Z.leb_gt in P.
  rewrite (f64_ltb_val _ _ Ft Fm) in Gt. apply Z.ltb_ge in Gt.
  rewrite entriesOf_applyToOldest. fold entries.
  destruct entries as [|e rest] eqn:E; [simpl in Vt; lia|].
  inversion F as [|? ? [[Fa Da] [Fq Dq]] Fr]; subst.
  change (Zsum ?h (?x :: ?r)) with (h x + Zsum h r) in *. cbv beta in *.
  assert (Sr : 0 <= Zsum size rest) by (apply Zsum_nonneg; intros x; unfold size; lia).
  unfold size in B at 1.
  destruct (f64_add_exact (BankEntry.appliedAmount e) amount g Fq Fm G Dq Dm ltac:(lia))
    as [Fq' Vq'].
  set (e' := BankEntry.mk (BankEntry.shipId e) (BankEntry.year e)
               (BankEntry.amountGco2eq e)
               (PrimFloat.add (BankEntry.appliedAmount e) amount)).
  change (@js_add float f64) with PrimFloat.add.
  fold e'.
  destruct (ledger_sums g (e' :: rest) G) as [(Ft' & Dt' & Vt') (Fp' & Vp')].
  { constructor; [|exact Fr].
    unfold e'; cbn [BankEntry.amountGco2eq BankEntry.appliedAmount]. repeat split; auto.
    rewrite Vq'. now apply Z.divide_add_r. }
  { change (Zsum ?h (?x :: ?r)) with (h x + Zsum h r). cbv beta.
    unfold e'; cbn [BankEntry.amountGco2eq BankEntry.appliedAmount].
    rewrite Vq'. fold size. lia. }
  change (Zsum ?h (?x :: ?r)) with (h x + Zsum h r) in *. cbv beta in *.
  unfold e' in *; cbn [BankEntry.amountGco2eq BankEntry.appliedAmount] in Vt', Vp'.
  rewrite Vq' in Vt', Vp'.
  assert (At : Z.abs (Fval (Memory.totalOf (e :: rest))) <= size e + Zsum size rest).
  { rewrite Vt.
    pose proof (Zsum_abs_le
                  (fun e => Fval (BankEntry.amountGco2eq e) - Fval (BankEntry.appliedAmount e))
                  size rest ltac:(intros x; unfold size; lia)).
    unfold size at 1. lia. }
  assert (Ap : Z.abs (Fval (Memory.appliedOf (e :: rest))) <= size e + Zsum size rest).
  { rewrite Vp.
    pose proof (Zsum_abs_le (fun e => Fval (BankEntry.appliedAmount e))
                  size rest ltac:(intros x; unfold size; lia)).
    unfold size at 1. lia. }
  unfold size in At at 1. unfold size in Ap at 1.
  assert (Dp : (2 ^ g | Fval (Memory.appliedOf (e :: rest)))).
  { rewrite Vp. apply Z.divide_add_r; [exact Dq|]. apply Zsum_divide.
    eapply Forall_impl; [|exact Fr]. intros x [_ [_ D]]. exact D. }
  destruct (f64_add_exact (Memory.appliedOf (e :: rest)) amount g Fp Fm G Dp Dm ltac:(lia))
    as [F1 V1].
  destruct (f64_sub_exact (Memory.totalOf (e :: rest)) amount g Ft Fm G Dt Dm ltac:(lia))
    as [F2 V2].
  split; [|split].
  - rewrite (f64_eqb_val _ _ Fp' F1), V1, Vp', Vp. apply Z.eqb_eq. lia.
  - rewrite (f64_eqb_val _ _ Ft' F2), V2, Vt', Vt. apply Z.eqb_eq. lia.
  - rewrite (f64_leb_val _ _ F0 Ft'), V0, Vt'. apply Z.leb_le. lia.
Qed.

End AlignedLedger.

Set Implicit Arguments.




(** ** Signs in binary64 *)

Unset Implicit Arguments.

Section Binary64Signs.
Local Open Scope Z_scope.

Lemma shr_record_of_loc_m (m : Z) (l : location) : shr_m (shr_record_of_loc m l) = m.
Proof. destruct l as [|[]]; reflexivity. Qed.

Lemma shr_fexp_nonneg (m e : Z) (l : location) :
  0 <= m -> 0 <= shr_m (fst (shr_fexp prec emax m e l)).
Proof.
  intros P. unfold shr_fexp, shr.
  destruct (fexp prec emax (Zdigits2 m + e) - e) as [|p|p]; simpl fst;
    rewrite ?shr_record_of_loc_m; auto.
  destruct (iter_shr_spec p (shr_record_of_loc m l)) as [V _];
    [now rewrite shr_record_of_loc_m|].
  rewrite V, shr_record_of_loc_m. apply Z.div_pos; [exact P|].
  apply Z.pow_pos_nonneg; lia.
Qed.

Lemma round_nearest_even_nonneg (m : Z) (l : location) :
  0 <= m -> 0 <= round_nearest_even m l.
Proof.
  intros P. destruct l as [|[]]; simpl; try lia. destruct (Z.even m); lia.
Qed.

(** Rounding keeps the sign it is given. *)
Lemma binary_round_aux_carries (s : bool) (m e : Z) (l : location) :
  0 <= m -> SFcarries s (binary_round_aux prec emax s m e l) = true.
Proof.
  intros P. unfold binary_round_aux.
  pose proof (shr_fexp_nonneg m e l P) as P1.
  destruct (shr_fexp prec emax m e l) as [mrs' e']. simpl fst in P1.
  pose proof (shr_fexp_nonneg _ e' loc_Exact
                (round_nearest_even_nonneg _ (loc_of_shr_record mrs') P1)) as P2.
  destruct (shr_fexp prec emax
              (round_nearest_even (shr_m mrs') (loc_of_shr_record mrs')) e' loc_Exact)
    as [mrs'' e'']. simpl fst in P2.
  destruct (shr_m mrs'') as [|q|q]; simpl.
  - apply Bool.eqb_reflx.
  - match goal with |- context [if ?c then _ else _] => destruct c end;
      simpl; apply Bool.eqb_reflx.
  - lia.
Qed.

Lemma binary_round_carries (s : bool) (m : positive) (e : Z) :
  SFcarries s (binary_round prec emax s m e) = true.
Proof.
  unfold binary_round.
  destruct (shl_align m e (fexp prec emax (Zpos (digits2_pos m) + e))) as [mz ez].
  apply binary_round_aux_carries. lia.
Qed.

Lemma carries_notneg (x : spec_float) : SFcarries false x = true -> SFnotneg x = true.
Proof. destruct x as [s|s| |s m e]; try destruct s; simpl; auto. Qed.

Lemma carries_notpos (x : spec_float) : SFcarries true x = true -> SFnotpos x = true.
Proof. destruct x as [s|s| |s m e]; try destruct s; simpl; auto. Qed.

Lemma SFmul_notneg (x y : spec_float) :
  SFnotneg x = true -> SFnotneg y = true -> SFnotneg (SFmul prec emax x y) = true.
Proof.
  destruct x as [sx|sx| |sx mx ex], y as [sy|sy| |sy my ey];
    try destruct sx; try destruct sy; simpl; try discriminate; auto.
  intros _ _. apply carries_notneg, binary_round_aux_carries. lia.
Qed.

Lemma SFmul_notpos (x y : spec_float) :
  SFnotpos x = true -> SFnotneg y = true -> SFnotpos (SFmul prec emax x y) = true.
Proof.
  destruct x as [sx|sx| |sx mx ex], y as [sy|sy| |sy my ey];
    try destruct sx; try destruct sy; simpl; try discriminate; auto.
  intros _ _. apply carries_notpos, binary_round_aux_carries. lia.
Qed.

Lemma SFdiv_core_nonneg (mx my : positive) (ex ey : Z) :
  0 <= fst (fst (SFdiv_core_binary prec emax (Zpos mx) ex (Zpos my) ey)).
Proof.
  unfold SFdiv_core_binary.
  set (s := ex - ey - _).
  set (m' := match s with Zpos _ => Z.shiftl (Zpos mx) s | Z0 => Zpos mx | Zneg _ => 0 end).
  assert (P : 0 <= m').
  { unfold m'. destruct s; try lia. apply Z.shiftl_nonneg. lia. }
  pose proof (Z.div_pos m' (Zpos my) P ltac:(lia)) as Q.
  unfold Z.div in Q. destruct (Z.div_eucl m' (Zpos my)) as [q r]. exact Q.
Qed.

Lemma SFdiv_notneg (x y : spec_float) :
  SFnotneg x = true -> SFnotpos y = false -> SFnotneg (SFdiv prec emax x y) = true.
Proof.
  destruct x as [sx|sx| |sx mx ex], y as [sy|sy| |sy my ey];
    try destruct sx; try destruct sy; simpl; try discriminate; auto.
  intros _ _. pose proof (SFdiv_core_nonneg mx my ex ey) as P.
  destruct (SFdiv_core_binary prec emax (Zpos mx) ex (Zpos my) ey) as [[mz ez] lz].
  apply carries_notneg, binary_round_aux_carries. exact P.
Qed.

Lemma SFdiv_notpos (x y : spec_float) :
  SFnotpos x = true -> SFnotpos y = false -> SFnotpos (SFdiv prec emax x y) = true.
Proof.
  destruct x as [sx|sx| |sx mx ex], y as [sy|sy| |sy my ey];
    try destruct sx; try destruct sy; simpl; try discriminate; auto.
  intros _ _. pose proof (SFdiv_core_nonneg mx my ex ey) as P.
  destruct (SFdiv_core_binary prec emax (Zpos mx) ex (Zpos my) ey) as [[mz ez] lz].
  apply carries_notpos, binary_round_aux_carries. exact P.
Qed.

Lemma binary_normalize_sign (z e : Z) :
  (0 <= z -> SFnotneg (binary_normalize prec emax z e false) = true)
  /\ (z <= 0 -> SFnotpos (binary_normalize prec emax z e false) = true).
Proof.
  destruct z as [|p|p]; simpl; split; intros P; auto; try lia.
  - apply carries_notneg, binary_round_carries.
  - apply carries_notpos, binary_round_carries.
Qed.

(** The value that [SFsub] rounds, for two numbers. *)
Lemma SFsub_finite (sx sy : bool) (mx my : positive) (ex ey : Z) :
  bounded prec emax mx ex = true -> bounded prec emax my ey = true ->
  exists z e,
    SFsub prec emax (S754_finite sx mx ex) (S754_finite sy my ey)
    = binary_normalize prec emax z e false
    /\ z * 2 ^ (e + 1074)
       = SFval (S754_finite sx mx ex) - SFval (S754_finite sy my ey)
    /\ 0 < 2 ^ (e + 1074)
    /\ -1074 <= e.
Proof.
  intros Vx Vy.
  pose proof (bounded_facts _ _ Vx) as (Rx & _).
  pose proof (bounded_facts _ _ Vy) as (Ry & _).
  unfold SFsub. set (ez := Z.min ex ey).
  pose proof (shl_align_value mx ex ez ltac:(lia)) as A.
  pose proof (shl_align_value my ey ez ltac:(lia)) as B.
  set (a := Zpos (fst (shl_align mx ex ez))) in *.
  set (b := Zpos (fst (shl_align my ey ez))) in *.
  exists (cond_Zopp sx a - cond_Zopp sy b), ez. split; [reflexivity|]. split; [|split].
  - unfold SFval. rewrite <- A, <- B. destruct sx, sy; unfold cond_Zopp; ring.
  - apply pow2_pos. lia.
  - lia.
Qed.

Lemma SFleb_val (x y : spec_float) :
  valid_binary x = true -> valid_binary y = true ->
  SFfinite x = true -> SFfinite y = true ->
  SFleb x y = (SFval x <=? SFval y).
Proof.
  intros Vx Vy Fx Fy. unfold SFleb. rewrite (SFcompare_val x y Vx Vy Fx Fy).
  unfold Z.leb. destruct (SFval x ?= SFval y); reflexivity.
Qed.

Lemma SFsub_notneg (x y : spec_float) :
  valid_binary x = true -> valid_binary y = true ->
  SFleb y x = true -> SFnotneg (SFsub prec emax x y) = true.
Proof.
  intros Vx Vy.
  destruct x as [sx|sx| |sx mx ex], y as [sy|sy| |sy my ey];
    try (try destruct sx; try destruct sy; simpl; try discriminate; auto; fail).
  intros L. rewrite (SFleb_val _ _ Vy Vx eq_refl eq_refl) in L. apply Z.leb_le in L.
  destruct (SFsub_finite sx sy mx my ex ey Vx Vy) as (z & e & -> & V & P & _).
  apply (binary_normalize_sign z e). nia.
Qed.

Lemma SFsub_notpos (x y : spec_float) :
  valid_binary x = true -> valid_binary y = true ->
  SFleb x y = true -> SFnotpos (SFsub prec emax x y) = true.
Proof.
  intros Vx Vy.
  destruct x as [sx|sx| |sx mx ex], y as [sy|sy| |sy my ey];
    try (try destruct sx; try destruct sy; simpl; try discriminate; auto; fail).
  intros L. rewrite (SFleb_val _ _ Vx Vy eq_refl eq_refl) in L. apply Z.leb_le in L.
  destruct (SFsub_finite sx sy mx my ex ey Vx Vy) as (z & e & -> & V & P & _).
  apply (binary_normalize_sign z e). nia.
Qed.

(** Comparisons with zero read the sign. *)
Lemma f64_ltb_zero (a : float) :
  PrimFloat.ltb a (f64_lit 0 1) = negb (SFnotneg (Prim2SF a))
  /\ PrimFloat.ltb (f64_lit 0 1) a = negb (SFnotpos (Prim2SF a)).
Proof.
  rewrite !ltb_spec. change (Prim2SF (f64_lit 0 1)) with (S754_zero false).
  destruct (Prim2SF a) as [s|s| |s m e]; try destruct s; split; reflexivity.
Qed.

Lemma f64_not_neg (a : float) :
  PrimFloat.ltb a (f64_lit 0 1) = false <-> SFnotneg (Prim2SF a) = true.
Proof.
  rewrite (proj1 (f64_ltb_zero a)). destruct (SFnotneg (Prim2SF a)); simpl; intuition congruence.
Qed.

Lemma f64_not_pos (a : float) :
  PrimFloat.ltb (f64_lit 0 1) a = false <-> SFnotpos (Prim2SF a) = true.
Proof.
  rewrite (proj2 (f64_ltb_zero a)). destruct (SFnotpos (Prim2SF a)); simpl; intuition congruence.
Qed.

Lemma f64_pos (a : float) :
  PrimFloat.ltb (f64_lit 0 1) a = true <-> SFnotpos (Prim2SF a) = false.
Proof.
  rewrite (proj2 (f64_ltb_zero a)). destruct (SFnotpos (Prim2SF a)); simpl; intuition congruence.
Qed.

(** Rounding a value that is not zero never gives zero. *)
Lemma binary_round_positive (d : positive) (ez : Z) :
  -1074 <= ez -> SFnotpos (binary_round prec emax false d ez) = false.
Proof.
  intros E. unfold binary_round, shl_align.
  change (Zpos (digits2_pos d)) with (Zdigits d).
  set (E0 := fexp prec emax (Zdigits d + ez)) in *.
  assert (E0v : E0 = Z.max (Zdigits d + ez - 53) (-1074)) by (unfold E0; apply fexp_eq).
  destruct (E0 - ez) as [|p|k] eqn:N.
  - rewrite binary_round_aux_canonical by (fold E0; lia).
    destruct (ez <=? 971); reflexivity.
  - assert (D : 53 < Zdigits d) by lia.
    destruct (binary_round_aux_shift false d ez E D) as (m1 & _ & _ & ->).
    repeat match goal with |- context [if ?c then _ else _] => destruct c end;
      reflexivity.
  - assert (C : fexp prec emax (Zdigits (Pos.iter xO d k) + E0) = E0).
    { rewrite iter_xO_digits. unfold E0. f_equal. lia. }
    rewrite binary_round_aux_canonical by exact C.
    destruct (E0 <=? 971); reflexivity.
Qed.

Lemma SFsub_pos (x y : spec_float) :
  valid_binary x = true -> valid_binary y = true ->
  SFfinite x = true -> SFfinite y = true ->
  SFval y < SFval x -> SFnotpos (SFsub prec emax x y) = false.
Proof.
  intros Vx Vy Fx Fy.
  destruct x as [sx|sx| |sx mx ex], y as [sy|sy| |sy my ey]; try discriminate;
    intros L; cbn [SFval] in L.
  - pose proof (scaled_nonneg my ey). destruct sy; unfold cond_Zopp in L;
      [reflexivity|lia].
  - pose proof (scaled_nonneg mx ex). destruct sx; unfold cond_Zopp in L;
      [lia|reflexivity].
  - destruct (SFsub_finite sx sy mx my ex ey Vx Vy) as (z & e & -> & V & P & E).
    unfold SFval in V.
    destruct z as [|m|m]; [nia| |nia].
    simpl. now apply binary_round_positive.
Qed.

(** The sign of a difference is the order of its operands. *)
Lemma f64_sub_pos (a b : float) :
  PrimFloat.is_finite a = true -> PrimFloat.is_finite b = true ->
  PrimFloat.ltb (f64_lit 0 1) (PrimFloat.sub b a) = (Fval a <? Fval b).
Proof.
  intros Fa Fb. destruct (Z.ltb_spec (Fval a) (Fval b)) as [L|L].
  - apply f64_pos. rewrite sub_spec. rewrite is_finite_spec in Fa, Fb.
    apply SFsub_pos; auto using Prim2SF_valid.
  - apply f64_not_pos. rewrite sub_spec.
    apply SFsub_notpos; auto using Prim2SF_valid.
    rewrite <- leb_spec, (f64_leb_val b a Fb Fa). now apply Z.leb_le.
Qed.

Lemma SFmul_pos (x y : spec_float) :
  SFnotpos x = false -> SFnotpos y = false -> SFcarries false (SFmul prec emax x y) = true.
Proof.
  destruct x as [sx|sx| |sx mx ex], y as [sy|sy| |sy my ey];
    try destruct sx; try destruct sy; simpl; try discriminate; auto.
  intros _ _. apply binary_round_aux_carries. lia.
Qed.

Lemma f64_nonneg (a : float) :
  SFcarries false (Prim2SF a) = true -> PrimFloat.leb (f64_lit 0 1) a = true.
Proof.
  rewrite leb_spec. change (Prim2SF (f64_lit 0 1)) with (S754_zero false).
  destruct (Prim2SF a) as [s|s| |s m e]; try destruct s; simpl; auto.
Qed.

End Binary64Signs.

Set Implicit Arguments.

#[export] Instance f64_sign : JsSign float.
Proof.
  split; simpl; unfold int; simpl.
  - intros a b L. apply f64_not_neg. rewrite sub_spec. rewrite leb_spec in L.
    apply SFsub_notneg; auto using Prim2SF_valid.
  - intros a b L. apply f64_not_pos. rewrite sub_spec. rewrite leb_spec in L.
    apply SFsub_notpos; auto using Prim2SF_valid.
  - intros a b A B. apply f64_not_neg. rewrite mul_spec.
    apply SFmul_notneg; now apply f64_not_neg.
  - intros a b A B. apply f64_not_pos. rewrite mul_spec.
    apply SFmul_notpos; [now apply f64_not_pos|now apply f64_not_neg].
  - intros a b A B. apply f64_not_neg. rewrite div_spec.
    apply SFdiv_notneg; [now apply f64_not_neg|now apply f64_pos].
  - intros a b A B. apply f64_not_pos. rewrite div_spec.
    apply SFdiv_notpos; [now apply f64_not_pos|now apply f64_pos].
  - intros a b A B. apply f64_nonneg. rewrite mul_spec.
    apply SFmul_pos; now apply f64_pos.
  - repeat constructor.
Qed.

#[export] Instance exact_sign : JsSign Q.
Proof.
  split; simpl; unfold int; simpl.
  - intros a b L. apply Qle_bool_iff in L. apply Q_lt_false_iff. lra.
  - intros a b L. apply Qle_bool_iff in L. apply Q_lt_false_iff. lra.
  - intros a b A B. apply Q_lt_false_iff in A. apply Q_lt_false_iff in B.
    apply Q_lt_false_iff. now apply Qmult_le_0_compat.
  - intros a b A B. apply Q_lt_false_iff in A. apply Q_lt_false_iff in B.
    apply Q_lt_false_iff.
    assert (P : (0 <= (- a) * b)%Q) by (apply Qmult_le_0_compat; lra).
    lra.
  - intros a b A B. apply Q_lt_false_iff in A. apply Q_lt_iff in B.
    apply Q_lt_false_iff. apply Qle_shift_div_l; lra.
  - intros a b A B. apply Q_lt_false_iff in A. apply Q_lt_iff in B.
    apply Q_lt_false_iff. apply Qle_shift_div_r; lra.
  - intros a b A B. apply Q_lt_iff in A. apply Q_lt_iff in B.
    apply Qle_bool_iff. apply Qmult_le_0_compat; lra.
  - repeat constructor.
Qed.

(** ** Routes and balances: signs *)

Section BalanceSign.
Context {num : Type} `{JsNumber num} {ord : JsOrder num} {sgn : JsSign num}.
Local Open Scope js_scope.

Lemma constant_positive (c : num) :
  In c [int 41000; int 1000000; lit 3114 1000; lit 2750 1000; lit 3206 1000] ->
  (int 0 <? c) = true.
Proof. apply (proj1 (Forall_forall _ _) constants_positive). Qed.

Lemma emissionFactors_positive (f : FuelType) : (int 0 <? Route.emissionFactors f) = true.
Proof. apply constant_positive. destruct f; simpl; auto 10. Qed.

Lemma greater_not_less (a b : num) : (a <? b) = true -> (b <? a) = false.
Proof.
  intros L. destruct (b <? a) eqn:G; [|reflexivity].
  pose proof (lt_le _ _ G). pose proof (lt_not_ge _ _ L). congruence.
Qed.

(** What the constructor's checks leave: both are above zero. *)
Lemma validate_positive (r : Route.t num) :
  Route.validate r = inr tt ->
  (Route.ghgIntensity r <=? int 0) = false /\ (Route.fuelConsumption r <=? int 0) = false.
Proof.
  unfold Route.validate.
  destruct (Route.ghgIntensity r <=? int 0); [discriminate|].
  destruct (Route.fuelConsumption r <=? int 0); [discriminate|]. auto.
Qed.

Lemma validate_consumption (r : Route.t num) :
  Route.validate r = inr tt -> (Route.fuelConsumption r <? int 0) = false.
Proof.
  intros V. destruct (validate_positive r V) as [_ C].
  destruct (Route.fuelConsumption r <? int 0) eqn:L; [|reflexivity].
  apply lt_le in L. congruence.
Qed.

(** The energy in scope and the total emissions of a route that passed
    the constructor's checks are never below zero, whatever rounding
    does; and when the fuel consumption is above zero (so not NaN, which
    the checks let through) they are numbers at or above zero. *)
Theorem route_quantities_not_negative (r : Route.t num) :
  Route.validate r = inr tt ->
  ((Route.calculateEnergyInScope r <? int 0) = false
   /\ (Route.calculateTotalEmissions r <? int 0) = false)
  /\ ((Route.fuelConsumption r >? int 0) = true ->
      (int 0 <=? Route.calculateEnergyInScope r) = true
      /\ (int 0 <=? Route.calculateTotalEmissions r) = true).
Proof.
  intros V. pose proof (validate_consumption r V) as C.
  unfold Route.calculateEnergyInScope, Route.calculateTotalEmissions.
  assert (E : (int 0 <? int 41000) = true) by (apply constant_positive; simpl; auto 10).
  pose proof (emissionFactors_positive (Route.fuelType r)) as F.
  split; split.
  - apply mul_not_neg; [exact C|]. now apply greater_not_less.
  - apply mul_not_neg; [exact C|]. now apply greater_not_less.
  - now apply mul_pos_nonneg.
  - now apply mul_pos_nonneg.
Qed.

(** The sign of the balance that the formula gives a route. *)
Lemma balance_sign (r : Route.t num) (targetIntensity : num) :
  Route.validate r = inr tt ->
  let cbValue :=
    ((targetIntensity - Route.ghgIntensity r) * Route.calculateEnergyInScope r)
    / int 1000000 in
  ((Route.ghgIntensity r <=? targetIntensity) = true -> (cbValue <? int 0) = false)
  /\ ((targetIntensity <=? Route.ghgIntensity r) = true -> (int 0 <? cbValue) = false).
Proof.
  intros V cbValue. subst cbValue.
  assert (E : (Route.calculateEnergyInScope r <? int 0) = false).
  { apply mul_not_neg; [now apply validate_consumption|].
    apply greater_not_less, constant_positive. simpl; auto 10. }
  assert (M : (int 0 <? int 1000000) = true) by (apply constant_positive; simpl; auto 10).
  split; intros L.
  - apply div_not_neg; [|exact M]. apply mul_not_neg; [|exact E].
    now apply sub_not_neg.
  - apply div_not_pos; [|exact M]. apply mul_not_pos; [|exact E].
    now apply sub_not_pos.
Qed.

(** What [computeCB] returns for a route that the repository finds. *)
Lemma compute_cb_returns (S : Type) (routeRepo : IRouteRepository.t num S)
  (complianceRepo : IComplianceRepository.t num S)
  (command : ComputeCBCommand.t num) (s : S) (route : Route.t num) :
  IRouteRepository.findByRouteId routeRepo (ComputeCBCommand.routeId command) s
  = Some route ->
  fst (ComputeCBUseCase.execute routeRepo complianceRepo command s)
  = inr (ComplianceBalance.mk
           (((ComputeCBUseCase.getTargetIntensity (ComputeCBCommand.year command)
              - Route.ghgIntensity route) * Route.calculateEnergyInScope route)
            / int 1000000)
           (ComputeCBCommand.year command) (ComputeCBCommand.shipId command)).
Proof.
  intros F. unfold ComputeCBUseCase.execute, bind, read, write, throw, ret. rewrite F.
  destruct (IComplianceRepository.save _ _ _) as [saved s']. reflexivity.
Qed.

(** [computeCB] never gives a deficit to a route whose intensity is at
    or below the year's target, and never a surplus to one at or above
    it: for a route that passed the constructor's checks, the returned
    balance is not [isDeficit] in the first case and not [isSurplus] in
    the second, on doubles as in exact arithmetic. *)
Theorem compute_cb_sign (S : Type) (routeRepo : IRouteRepository.t num S)
  (complianceRepo : IComplianceRepository.t num S)
  (command : ComputeCBCommand.t num) (s : S) (route : Route.t num) :
  IRouteRepository.findByRouteId routeRepo (ComputeCBCommand.routeId command) s
  = Some route ->
  Route.validate route = inr tt ->
  let targetIntensity :=
    ComputeCBUseCase.getTargetIntensity (ComputeCBCommand.year command) in
  exists balance,
    fst (ComputeCBUseCase.execute routeRepo complianceRepo command s) = inr balance
    /\ ((Route.ghgIntensity route <=? targetIntensity) = true ->
        ComplianceBalance.isDeficit balance = false)
    /\ ((targetIntensity <=? Route.ghgIntensity route) = true ->
        ComplianceBalance.isSurplus balance = false).
Proof.
  intros F V targetIntensity.
  rewrite (compute_cb_returns routeRepo complianceRepo command s F).
  eexists. split; [reflexivity|].
  unfold ComplianceBalance.isDeficit, ComplianceBalance.isSurplus. simpl.
  apply (balance_sign route targetIntensity V).
Qed.

End BalanceSign.

(** On doubles, route R002 (intensity 88) in 2025: no deficit. *)
Lemma compute_cb_sign_witness :
  exists balance,
    fst (ComputeCBUseCase.execute Memory.routeRepo Memory.complianceRepo computeR002
           (storeWithRoute (int 88 : float) (int 4800))) = inr balance
    /\ ComplianceBalance.isDeficit balance = false.
Proof.
  destruct (compute_cb_sign (ord := f64_order) (sgn := f64_sign)
              Memory.routeRepo Memory.complianceRepo computeR002
              (storeWithRoute (int 88 : float) (int 4800)) (route := routeR002))
    as (balance & E & D & _); [reflexivity|reflexivity|].
  exists balance. split; [exact E|]. apply D. reflexivity.
Defined.

(** On doubles, routes R001 and R002. *)
Lemma route_quantities_not_negative_witness :
  ((Route.calculateEnergyInScope routeR001 <? int 0)%js = false
   /\ (Route.calculateTotalEmissions routeR001 <? int 0)%js = false)
  /\ ((int 0 <=? Route.calculateEnergyInScope routeR002)%js = true
      /\ (int 0 <=? Route.calculateTotalEmissions routeR002)%js = true).
Proof.
  split.
  - apply (route_quantities_not_negative (ord := f64_order) (sgn := f64_sign)).
    reflexivity.
  - apply (route_quantities_not_negative (ord := f64_order) (sgn := f64_sign));
      reflexivity.
Defined.

(** ** Comparing routes with the baseline *)

Section CompareRoutes.
Context {num : Type} `{JsNumber num}.
Local Open Scope js_scope.

Lemma map_filter_key {A B : Type} (f : A -> B) (p : B -> bool) (l : list A) :
  map f (filter (fun x => p (f x)) l) = filter p (map f l).
Proof.
  induction l as [|x rest IH]; simpl; [reflexivity|].
  destruct (p (f x)); simpl; now rewrite IH.
Qed.

(** [CompareRoutesUseCase.execute] fails with the plain [Error]
    "No baseline route set" when the repository has no baseline, whatever
    routes it holds.  Otherwise it returns the baseline's id and
    intensity, the target 89.3368, and one comparison for each route of
    [findAll()] whose [routeId] is not the baseline's, in the
    repository's order: the baseline is never compared with itself, and
    a route that shares its [routeId] is left out too.  Each comparison
    carries its route's id and intensity, and its [compliant] flag is
    [ghgIntensity <= target] for the target returned.  The store is left
    as it was. *)
Theorem compare_routes_lists_the_others (S : Type) (routeRepo : IRouteQueries.t num S)
  (s : S) :
  match IRouteQueries.findBaseline routeRepo s with
  | None =>
    CompareRoutesUseCase.execute routeRepo s = (inl (Error (Text "No baseline route set")), s)
  | Some baseline =>
    let allRoutes := IRouteQueries.findAll routeRepo None s in
    let others :=
      filter (fun r => negb (String.eqb (Route.routeId r) (Route.routeId baseline)))
        allRoutes in
    exists result,
      CompareRoutesUseCase.execute routeRepo s = (inr result, s)
      /\ ComparisonResult.baseline result
         = ComparisonBaseline.mk (Route.routeId baseline) (Route.ghgIntensity baseline)
      /\ ComparisonResult.target result = lit 893368 10000
      /\ map (@Comparison.routeId num) (ComparisonResult.comparisons result)
         = filter (fun id => negb (String.eqb id (Route.routeId baseline)))
             (map (@Route.routeId num) allRoutes)
      /\ map (@Comparison.ghgIntensity num) (ComparisonResult.comparisons result)
         = map (@Route.ghgIntensity num) others
      /\ ~ In (Route.routeId baseline)
            (map (@Comparison.routeId num) (ComparisonResult.comparisons result))
      /\ Forall (fun c => Comparison.compliant c
                          = (Comparison.ghgIntensity c <=? ComparisonResult.target result))
           (ComparisonResult.comparisons result)
  end.
Proof.
  unfold CompareRoutesUseCase.execute, bind, read, throw, ret.
  destruct (IRouteQueries.findBaseline routeRepo s) as [baseline|]; [|reflexivity].
  cbv zeta. set (allRoutes := IRouteQueries.findAll routeRepo None s).
  set (others := filter _ allRoutes).
  eexists. split; [reflexivity|]. simpl.
  assert (Ids : map (@Comparison.routeId num)
                  (map (CompareRoutesUseCase.compare baseline) others)
                = filter (fun id => negb (String.eqb id (Route.routeId baseline)))
                    (map (@Route.routeId num) allRoutes)).
  { rewrite map_map. simpl. unfold others.
    apply (map_filter_key (@Route.routeId num)
             (fun id => negb (String.eqb id (Route.routeId baseline)))). }
  repeat split.
  - exact Ids.
  - rewrite map_map. reflexivity.
  - rewrite Ids. intros I. apply filter_In in I. destruct I as [_ N].
    rewrite String.eqb_refl in N. discriminate.
  - apply Forall_forall. intros c I. apply in_map_iff in I.
    destruct I as (r & <- & _). reflexivity.
Qed.

End CompareRoutes.

(** ** The comparison's target and the balance of 2025 *)

Lemma target_2025_f64 (year : float) :
  listed year = false \/ year = int 2025 ->
  ComputeCBUseCase.getTargetIntensity year = CompareRoutesUseCase.target.
Proof.
  intros [L| ->]; [|vm_compute; reflexivity].
  unfold ComputeCBUseCase.getTargetIntensity. rewrite (unlisted_reduction _ L).
  vm_compute. reflexivity.
Qed.

Lemma target_2025_exact (year : Q) :
  listed year = false \/ year = int 2025 ->
  (ComputeCBUseCase.getTargetIntensity year == CompareRoutesUseCase.target)%Q.
Proof.
  intros [L| ->]; [|vm_compute; reflexivity].
  unfold ComputeCBUseCase.getTargetIntensity. rewrite (unlisted_reduction _ L).
  vm_compute. reflexivity.
Qed.

(** The two use cases agree on 2025.  The target that
    [CompareRoutesUseCase] compares with, the constant 89.3368, is the
    target that [ComputeCBUseCase] computes for 2025 and for every year
    that is not in its table: the same double, and the same rational.
    Hence a route that passed the constructor's checks and that the
    comparison marks [compliant] never gets a deficit from [computeCB]
    for such a year. *)
Theorem compliant_route_has_no_deficit :
  (forall (year : float) (baseline route : Route.t float)
          (S : Type) (routeRepo : IRouteRepository.t float S)
          (complianceRepo : IComplianceRepository.t float S)
          (command : ComputeCBCommand.t float) (s : S),
     listed year = false \/ year = int 2025 ->
     ComputeCBUseCase.getTargetIntensity year = CompareRoutesUseCase.target
     /\ (Route.validate route = inr tt ->
         Comparison.compliant (CompareRoutesUseCase.compare baseline route) = true ->
         ComputeCBCommand.year command = year ->
         IRouteRepository.findByRouteId routeRepo (ComputeCBCommand.routeId command) s
         = Some route ->
         exists balance,
           fst (ComputeCBUseCase.execute routeRepo complianceRepo command s) = inr balance
           /\ ComplianceBalance.isDeficit balance = false))
  /\ (forall (year : Q) (baseline route : Route.t Q)
             (S : Type) (routeRepo : IRouteRepository.t Q S)
             (complianceRepo : IComplianceRepository.t Q S)
             (command : ComputeCBCommand.t Q) (s : S),
        listed year = false \/ year = int 2025 ->
        (ComputeCBUseCase.getTargetIntensity year == CompareRoutesUseCase.target)%Q
        /\ (Route.validate route = inr tt ->
            Comparison.compliant (CompareRoutesUseCase.compare baseline route) = true ->
            ComputeCBCommand.year command = year ->
            IRouteRepository.findByRouteId routeRepo (ComputeCBCommand.routeId command) s
            = Some route ->
            exists balance,
              fst (ComputeCBUseCase.execute routeRepo complianceRepo command s) = inr balance
              /\ ComplianceBalance.isDeficit balance = false)).
Proof.
  split.
  - intros year baseline route S routeRepo complianceRepo command s Y.
    pose proof (@target_2025_f64 year Y) as T. split; [exact T|].
    intros V C <- F. rewrite (compute_cb_returns routeRepo complianceRepo command s F).
    eexists. split; [reflexivity|].
    destruct (balance_sign (ord := f64_order) (sgn := f64_sign) route
                (ComputeCBUseCase.getTargetIntensity (ComputeCBCommand.year command)) V)
      as [D _].
    apply D. rewrite T. exact C.
  - intros year baseline route S routeRepo complianceRepo command s Y.
    pose proof (@target_2025_exact year Y) as T. split; [exact T|].
    intros V C <- F. rewrite (compute_cb_returns routeRepo complianceRepo command s F).
    eexists. split; [reflexivity|].
    destruct (balance_sign (ord := exact_order) (sgn := exact_sign) route
                (ComputeCBUseCase.getTargetIntensity (ComputeCBCommand.year command)) V)
      as [D _].
    apply D. simpl in C. apply Qle_bool_iff in C. apply Qle_bool_iff.
    rewrite T. exact C.
Qed.

(** On doubles: R002, intensity 88, is compliant against R001 and gets
    no deficit for 2025. *)
Lemma compliant_route_has_no_deficit_witness :
  Comparison.compliant (CompareRoutesUseCase.compare routeR001 routeR002) = true
  /\ exists balance,
       fst (ComputeCBUseCase.execute Memory.routeRepo Memory.complianceRepo computeR002
              (storeWithRoute (int 88 : float) (int 4800))) = inr balance
       /\ ComplianceBalance.isDeficit balance = false.
Proof.
  split; [reflexivity|].
  apply (proj2 (proj1 compliant_route_has_no_deficit (int 2025) routeR001 routeR002
                  _ Memory.routeRepo Memory.complianceRepo computeR002
                  (storeWithRoute (int 88) (int 4800)) (or_intror eq_refl)));
    reflexivity.
Defined.

(** ** Balances: adding and subtracting *)

(** [add] and [subtract] keep the year and the ship, and undo each
    other: in exact arithmetic always, and on doubles when the balance
    and the amount are multiples of one power of two [2^k], with
    [-1074 <= k <= 971], whose magnitudes sum to less than [2^(53+k)],
    so that nothing rounds or overflows. *)
Theorem balance_add_subtract :
  (forall (balance : ComplianceBalance.t Q) (amount : Q),
     let there := ComplianceBalance.add balance amount in
     let back := ComplianceBalance.subtract there amount in
     let under := ComplianceBalance.add (ComplianceBalance.subtract balance amount) amount in
     (ComplianceBalance.value back === ComplianceBalance.value balance)%js = true
     /\ (ComplianceBalance.value under === ComplianceBalance.value balance)%js = true
     /\ (ComplianceBalance.year back, ComplianceBalance.shipId back)
        = (ComplianceBalance.year balance, ComplianceBalance.shipId balance)
     /\ (ComplianceBalance.year under, ComplianceBalance.shipId under)
        = (ComplianceBalance.year balance, ComplianceBalance.shipId balance))
  /\ (forall (balance : ComplianceBalance.t float) (amount : float) (k : Z),
        (-1074 <= k <= 971)%Z ->
        multipleOf k (ComplianceBalance.value balance) -> multipleOf k amount ->
        (Z.abs (Fval (ComplianceBalance.value balance)) + Z.abs (Fval amount)
         < 2 ^ (53 + k + 1074))%Z ->
        let there := ComplianceBalance.add balance amount in
        let back := ComplianceBalance.subtract there amount in
        let under :=
          ComplianceBalance.add (ComplianceBalance.subtract balance amount) amount in
        (ComplianceBalance.value back === ComplianceBalance.value balance)%js = true
        /\ (ComplianceBalance.value under === ComplianceBalance.value balance)%js = true
        /\ (ComplianceBalance.year back, ComplianceBalance.shipId back)
           = (ComplianceBalance.year balance, ComplianceBalance.shipId balance)
        /\ (ComplianceBalance.year under, ComplianceBalance.shipId under)
           = (ComplianceBalance.year balance, ComplianceBalance.shipId balance)).
Proof.
  split.
  - intros [v y sh] amount. simpl. repeat split; apply Qeq_bool_iff; ring.
  - intros [v y sh] amount k K [Fv Dv] [Fa Da] B.
    cbv zeta. unfold ComplianceBalance.add, ComplianceBalance.subtract.
    cbn [ComplianceBalance.value ComplianceBalance.year ComplianceBalance.shipId] in *.
    change (@js_add float f64) with PrimFloat.add.
    change (@js_sub float f64) with PrimFloat.sub.
    change (@js_eq float f64) with PrimFloat.eqb.
    set (g := (k + 1074)%Z) in *.
    assert (G : (0 <= g <= 2045)%Z) by (unfold g; lia).
    assert (P : (0 < 2 ^ g)%Z) by (apply Z.pow_pos_nonneg; lia).
    apply Z.mod_divide in Dv; [|lia]. apply Z.mod_divide in Da; [|lia].
    replace (53 + k + 1074)%Z with (53 + g)%Z in B by (unfold g; lia).
    destruct (f64_add_exact v amount g Fv Fa G Dv Da ltac:(lia)) as [F1 V1].
    destruct (f64_sub_exact (PrimFloat.add v amount) amount g F1 Fa G) as [F2 V2].
    { rewrite V1. now apply Z.divide_add_r. }
    { exact Da. }
    { rewrite V1. lia. }
    destruct (f64_sub_exact v amount g Fv Fa G Dv Da ltac:(lia)) as [F3 V3].
    destruct (f64_add_exact (PrimFloat.sub v amount) amount g F3 Fa G) as [F4 V4].
    { rewrite V3. now apply Z.divide_sub_r. }
    { exact Da. }
    { rewrite V3. lia. }
    repeat split.
    + rewrite (f64_eqb_val _ _ F2 Fv), V2, V1. apply Z.eqb_eq. lia.
    + rewrite (f64_eqb_val _ _ F4 Fv), V4, V3. apply Z.eqb_eq. lia.
Qed.

(** On doubles: 1250.5 and 800, multiples of [2^-1]. *)
Lemma balance_add_subtract_witness :
  let balance := ComplianceBalance.mk (lit 12505 10 : float) (int 2025) "S001" in
  (ComplianceBalance.value
     (ComplianceBalance.subtract (ComplianceBalance.add balance (int 800)) (int 800))
   === ComplianceBalance.value balance)%js = true.
Proof.
  intros balance.
  apply (proj2 balance_add_subtract balance (int 800) (-1)%Z).
  - lia.
  - split; vm_compute; reflexivity.
  - split; vm_compute; reflexivity.
  - vm_compute. reflexivity.
Defined.

(** ** The allocator: what every ship ends with *)

Section AllocationBounds.
Context {num : Type} `{JsNumber num} {ord : JsOrder num} {fin : JsFinite num}.
Local Open Scope js_scope.

(** For finite values, doubles among them, the allocator gives every ship
    a finite [cbAfter] between zero and its [cbBefore]: a surplus ship
    ends in [[0, cbBefore]], so it only gives and never more than it
    has; a deficit ship ends in [[cbBefore, 0]], so it only receives and
    never more than it lacks. *)
Theorem allocation_stays_between (members : list (PoolMemberInput.t num)) :
  Forall (fun m => Number_isFinite (PoolMemberInput.cbBefore m) = true) members ->
  Forall (fun a =>
            Number_isFinite (PoolAllocation.cbAfter a)
            && (((int 0 <=? PoolAllocation.cbAfter a)
                 && (PoolAllocation.cbAfter a <=? PoolAllocation.cbBefore a))
                || ((PoolAllocation.cbBefore a <=? PoolAllocation.cbAfter a)
                    && (PoolAllocation.cbAfter a <=? int 0)))
            = true)
    (CreatePoolUseCase.greedyAllocate members).
Proof.
  intros F. eapply Forall_impl; [|exact (greedyAllocate_settled F)].
  intros a (_ & Fa & [[B0 B1]|[B0 B1]]); rewrite Fa, B0, B1; simpl;
    [reflexivity|apply orb_true_r].
Qed.

End AllocationBounds.

(** On doubles, for the pool [-0.2, -0.1, 0.8], whose transfers round. *)
Lemma allocation_stays_between_witness :
  Forall (fun a =>
            Number_isFinite (PoolAllocation.cbAfter a)
            && (((int 0 <=? PoolAllocation.cbAfter a)
                 && (PoolAllocation.cbAfter a <=? PoolAllocation.cbBefore a))
                || ((PoolAllocation.cbBefore a <=? PoolAllocation.cbAfter a)
                    && (PoolAllocation.cbAfter a <=? int 0)))%js
            = true)
    (CreatePoolUseCase.greedyAllocate roundingPool).
Proof.
  apply (allocation_stays_between (ord := f64_order) (fin := f64_finite)).
  repeat constructor.
Defined.

(** A pool that [execute] accepts is allocated with no deficit left:
    every ship ends with [cbAfter >= 0].  This holds in exact
    arithmetic for every accepted list, and on doubles for every
    accepted list whose values are multiples of one power of two [2^k],
    with [-1074 <= k <= 971], and have magnitudes summing to less than
    [2^(53+k)]. *)
Theorem accepted_pool_covers_deficits :
  (forall members : list (PoolMemberInput.t Q),
     CreatePoolUseCase.accepted members = true ->
     Forall (fun a => (int 0 <=? PoolAllocation.cbAfter a)%js = true)
       (CreatePoolUseCase.greedyAllocate members))
  /\ (forall (members : list (PoolMemberInput.t float)) (k : Z),
        CreatePoolUseCase.accepted members = true ->
        aligned k members ->
        Forall (fun a => (int 0 <=? PoolAllocation.cbAfter a)%js = true)
          (CreatePoolUseCase.greedyAllocate members)).
Proof.
  split.
  - intros members Acc. apply accepted_exact in Acc. destruct Acc as [_ T].
    destruct (greedyAllocate_exact members) as (_ & _ & _ & P).
    eapply Forall_impl; [|exact (P T)].
    intros a Pa. now apply Qle_bool_iff.
  - intros members k Acc Al. apply aligned_covered with (k := k); [exact Al|].
    unfold CreatePoolUseCase.accepted in Acc. apply andb_true_iff in Acc.
    destruct Acc as [_ T]. now apply negb_true_iff in T.
Qed.

(** The pool of the specification's example, in exact arithmetic and on
    doubles. *)
Lemma accepted_pool_covers_deficits_witness :
  Forall (fun a => (int 0 <=? PoolAllocation.cbAfter a)%js = true)
    (CreatePoolUseCase.greedyAllocate samplePool)
  /\ Forall (fun a => (int 0 <=? PoolAllocation.cbAfter a)%js = true)
       (CreatePoolUseCase.greedyAllocate samplePoolF).
Proof.
  split.
  - apply (proj1 accepted_pool_covers_deficits). vm_compute. reflexivity.
  - apply (proj2 accepted_pool_covers_deficits samplePoolF (-1)%Z).
    + vm_compute. reflexivity.
    + split; [lia|]. split.
      * repeat constructor; vm_compute; reflexivity.
      * vm_compute. reflexivity.
Defined.

(** ** NaN and the checks *)

Unset Implicit Arguments.

Section NaN.

Lemma f64_nan_compares (a b : float) :
  PrimFloat.is_nan a = true ->
  PrimFloat.ltb a b = false /\ PrimFloat.leb a b = false
  /\ PrimFloat.ltb b a = false /\ PrimFloat.leb b a = false.
Proof.
  rewrite is_nan_spec, !ltb_spec, !leb_spec. unfold SFltb, SFleb.
  destruct (Prim2SF a); try discriminate. intros _.
  destruct (Prim2SF b); repeat split; reflexivity.
Qed.

Lemma f64_nan_add (a b : float) :
  PrimFloat.is_nan a = true \/ PrimFloat.is_nan b = true ->
  PrimFloat.is_nan (PrimFloat.add a b) = true.
Proof.
  rewrite !is_nan_spec, add_spec.
  destruct (Prim2SF a) as [sa|sa| |sa ma ea], (Prim2SF b) as [sb|sb| |sb mb eb];
    simpl; intros [N|N]; try discriminate; reflexivity.
Qed.

Lemma totalCB_nan (members : list (PoolMemberInput.t float)) (acc : float) :
  PrimFloat.is_nan acc = true
  \/ Exists (fun m => PrimFloat.is_nan (PoolMemberInput.cbBefore m) = true) members ->
  PrimFloat.is_nan
    (fold_left (fun sum m => PrimFloat.add sum (PoolMemberInput.cbBefore m)) members acc)
  = true.
Proof.
  revert acc. induction members as [|m rest IH]; intros acc [N|E]; simpl.
  - exact N.
  - inversion E.
  - apply IH. left. apply f64_nan_add. now left.
  - apply IH. inversion E as [? ? Nm|? ? Er]; subst.
    + left. apply f64_nan_add. now right.
    + now right.
Qed.

End NaN.

Set Implicit Arguments.

(** On doubles NaN passes every check, because a comparison with NaN is
    false.  A route whose intensity, consumption and year are each NaN
    or pass their check is created.  [bankSurplus] banks any amount
    against a record whose balance is NaN, and banks the amount NaN
    against any balance above zero.  And the sum of a member list that
    holds a NaN is NaN, so with two members or more the list passes both
    preconditions of [createPool], whatever the other balances are. *)
Theorem nan_passes_the_checks :
  (forall props : RouteProps.t float,
     PrimFloat.is_nan (RouteProps.ghgIntensity props) = true
     \/ (RouteProps.ghgIntensity props <=? int 0)%js = false ->
     PrimFloat.is_nan (RouteProps.fuelConsumption props) = true
     \/ (RouteProps.fuelConsumption props <=? int 0)%js = false ->
     PrimFloat.is_nan (RouteProps.year props) = true
     \/ (RouteProps.year props <? int 2024)%js = false ->
     Route.create props = inr (routeOf props))
  /\ (forall (S : Type) (complianceRepo : IComplianceRepository.t float S)
             (bankRepo : IBankRepository.t float S)
             (command : BankSurplusCommand.t float) (s : S)
             (r : ComplianceRecord.t float),
        IComplianceRepository.findByShipAndYear complianceRepo
          (BankSurplusCommand.shipId command) (BankSurplusCommand.year command) s
        = Some r ->
        PrimFloat.is_nan (ComplianceRecord.cbGco2eq r) = true
        \/ ((ComplianceRecord.cbGco2eq r >? int 0)%js = true
            /\ PrimFloat.is_nan (BankSurplusCommand.amount command) = true) ->
        BankSurplusUseCase.execute complianceRepo bankRepo command s
        = (inr tt,
           IBankRepository.create bankRepo
             (NewBankEntry.mk (BankSurplusCommand.shipId command)
                (BankSurplusCommand.year command)
                (BankSurplusCommand.amount command)) s))
  /\ (forall members : list (PoolMemberInput.t float),
        Exists (fun m => PrimFloat.is_nan (PoolMemberInput.cbBefore m) = true) members ->
        PrimFloat.is_nan (CreatePoolUseCase.totalCB members) = true
        /\ ((2 <= List.length members)%nat -> CreatePoolUseCase.accepted members = true)).
Proof.
  split; [|split].
  - intros props G C Y.
    assert (G' : (RouteProps.ghgIntensity props <=? int 0)%js = false)
      by (destruct G as [N|G]; [apply (f64_nan_compares _ _ N)|exact G]).
    assert (C' : (RouteProps.fuelConsumption props <=? int 0)%js = false)
      by (destruct C as [N|C]; [apply (f64_nan_compares _ _ N)|exact C]).
    assert (Y' : (RouteProps.year props <? int 2024)%js = false)
      by (destruct Y as [N|Y]; [apply (f64_nan_compares _ _ N)|exact Y]).
    unfold Route.create, Route.new, Route.validate, routeOf.
    cbn [Route.ghgIntensity Route.fuelConsumption Route.year].
    rewrite G', C', Y'. reflexivity.
  - intros S complianceRepo bankRepo command s r F N.
    unfold BankSurplusUseCase.execute, bind, read, throw, write_. rewrite F.
    destruct N as [N|[P N]].
    + destruct (f64_nan_compares _ (int 0) N) as (_ & L & _).
      destruct (f64_nan_compares _ (BankSurplusCommand.amount command) N) as (L' & _).
      change (@js_le float f64) with PrimFloat.leb.
      change (@js_lt float f64) with PrimFloat.ltb.
      rewrite L, L'. reflexivity.
    + destruct (f64_nan_compares _ (ComplianceRecord.cbGco2eq r) N) as (_ & _ & L' & _).
      rewrite (lt_not_ge (JsOrder := f64_order) _ _ P).
      change (@js_lt float f64) with PrimFloat.ltb.
      rewrite L'. reflexivity.
  - intros members E.
    assert (N : PrimFloat.is_nan (CreatePoolUseCase.totalCB members) = true)
      by (apply totalCB_nan; now right).
    split; [exact N|]. intros L.
    unfold CreatePoolUseCase.accepted. apply andb_true_iff. split.
    + apply negb_true_iff. apply Nat.ltb_ge. exact L.
    + apply negb_true_iff. apply (f64_nan_compares _ _ N).
Qed.

(** A pool of NaN and a deficit of 5 is accepted. *)
Lemma nan_passes_the_checks_witness :
  CreatePoolUseCase.accepted [member "A" PrimFloat.nan; member "B" (int (-5))] = true.
Proof.
  apply (proj2 (proj2 nan_passes_the_checks)
           [member "A" PrimFloat.nan; member "B" (int (-5))]).
  - constructor. reflexivity.
  - simpl. lia.
Defined.

(** ** The allocator: pools with nothing to transfer *)

Section NothingToTransfer.
Context {num : Type} `{JsNumber num} {ord : JsOrder num}.
Local Open Scope js_scope.

Local Abbreviation after' := CreatePoolUseCase.cbAfterAt.

Lemma zero_not_below_zero : (int 0 <? (int 0 : num)) = false.
Proof.
  destruct (int 0 <? (int 0 : num)) eqn:L; [|reflexivity].
  pose proof (lt_le _ _ L). pose proof (lt_not_ge _ _ L). congruence.
Qed.

Lemma after_Forall (P : num -> Prop) (l : list (PoolAllocation.t num)) (i : nat) :
  P (int 0) -> Forall (fun a => P (PoolAllocation.cbAfter a)) l -> P (after' l i).
Proof.
  intros P0 F. unfold CreatePoolUseCase.cbAfterAt.
  destruct (nth_error l i) as [a|] eqn:E; [|exact P0].
  exact (proj1 (Forall_forall _ _) F a (nth_error_In _ _ E)).
Qed.

Lemma transferToDeficits_no_deficit (i k : nat) (l : list (PoolAllocation.t num)) :
  Forall (fun a => (PoolAllocation.cbAfter a <? int 0) = false) l ->
  CreatePoolUseCase.transferToDeficits i k l = l.
Proof.
  intros F. induction k as [|j IH]; simpl; [reflexivity|].
  rewrite (@after_Forall (fun v => (v <? int 0) = false) l j zero_not_below_zero F).
  exact IH.
Qed.

Lemma transferAll_nothing (indices : list nat) (l : list (PoolAllocation.t num)) :
  Forall (fun a => (PoolAllocation.cbAfter a <? int 0) = false) l
  \/ Forall (fun a => (PoolAllocation.cbAfter a >? int 0) = false) l ->
  fold_left CreatePoolUseCase.transferSurplus indices l = l.
Proof.
  intros F. induction indices as [|i rest IH]; simpl; [reflexivity|].
  assert (E : CreatePoolUseCase.transferSurplus l i = l).
  { unfold CreatePoolUseCase.transferSurplus. destruct F as [F|F].
    - destruct (after' l i >? int 0); [|reflexivity].
      now apply transferToDeficits_no_deficit.
    - now rewrite (@after_Forall (fun v => (v >? int 0) = false) l i zero_not_below_zero F). }
  rewrite E. exact IH.
Qed.

(** A pool without a deficit, and a pool without a surplus, is returned
    as it came: when no member has [cbBefore < 0], or none has
    [cbBefore > 0], every allocation has [cbAfter = cbBefore].  NaN
    counts as neither. *)
Theorem allocation_with_nothing_to_transfer (members : list (PoolMemberInput.t num)) :
  Forall (fun m => (PoolMemberInput.cbBefore m <? int 0) = false) members
  \/ Forall (fun m => (PoolMemberInput.cbBefore m >? int 0) = false) members ->
  CreatePoolUseCase.greedyAllocate members
  = map (fun m => PoolAllocation.mk (PoolMemberInput.shipId m)
                    (PoolMemberInput.cbBefore m) (PoolMemberInput.cbBefore m))
        (sortedCopy members).
Proof.
  intros F. unfold CreatePoolUseCase.greedyAllocate. fold (sortedCopy members).
  apply transferAll_nothing.
  assert (T : forall P : num -> Prop,
            Forall (fun m => P (PoolMemberInput.cbBefore m)) members ->
            Forall (fun a => P (PoolAllocation.cbAfter a))
              (map (fun m => PoolAllocation.mk (PoolMemberInput.shipId m)
                               (PoolMemberInput.cbBefore m) (PoolMemberInput.cbBefore m))
                   (sortedCopy members))).
  { intros P Fm. apply Forall_forall. intros a I. apply in_map_iff in I.
    destruct I as (m & <- & I). simpl.
    apply (proj1 (Forall_forall _ _) Fm m).
    eapply Permutation_in; [|exact I]. apply Array_sort_Permutation. }
  destruct F as [F|F]; [left|right].
  - exact (T (fun v => (v <? int 0) = false) F).
  - exact (T (fun v => (v >? int 0) = false) F).
Qed.

End NothingToTransfer.

(** On doubles: two surpluses and a zero. *)
Lemma allocation_with_nothing_to_transfer_witness :
  CreatePoolUseCase.greedyAllocate
    [member "A" (int 3 : float); member "B" (int 0); member "C" (lit 75 10)]
  = [PoolAllocation.mk "C" (lit 75 10) (lit 75 10);
     PoolAllocation.mk "A" (int 3) (int 3);
     PoolAllocation.mk "B" (int 0) (int 0)].
Proof.
  rewrite (allocation_with_nothing_to_transfer (ord := f64_order)).
  - vm_compute. reflexivity.
  - left. repeat constructor.
Defined.

(** ** The allocator: the order of its output *)


Section InsertionSorted.
Context {num A : Type} `{JsNumber num}.
Variable compareFn : A -> A -> num.
Variable inScope : A -> Prop.
Variable mayPrecede : A -> A -> Prop.
Local Open Scope js_scope.

Hypothesis mayPrecede_trans : forall x y z,
  inScope x -> inScope y -> inScope z ->
  mayPrecede x y -> mayPrecede y z -> mayPrecede x z.
Hypothesis kept_before : forall x y,
  inScope x -> inScope y -> (compareFn x y >? int 0) = false -> mayPrecede x y.
Hypothesis moved_behind : forall x y,
  inScope x -> inScope y -> (compareFn x y >? int 0) = true -> mayPrecede y x.

Lemma insert_sorted (x : A) (l : list A) :
  inScope x -> Forall inScope l ->
  StronglySorted mayPrecede l -> StronglySorted mayPrecede (insert compareFn x l).
Proof.
  intros Px Pl Sl. induction Sl as [|y rest Sr IH Fy]; simpl.
  - repeat constructor.
  - inversion Pl as [|? ? Py Pr]; subst.
    destruct (compareFn x y >? int 0) eqn:C.
    + apply SSorted_cons; [apply IH; exact Pr|].
      apply (Permutation_Forall (Permutation_sym (insert_Permutation compareFn x rest))).
      apply Forall_cons; [apply moved_behind; assumption|exact Fy].
    + apply SSorted_cons; [apply SSorted_cons; assumption|].
      pose proof (kept_before Px Py C) as B.
      apply Forall_cons; [exact B|].
      apply Forall_forall. intros z Iz.
      apply (mayPrecede_trans Px Py); auto.
      * exact (proj1 (Forall_forall _ _) Pr z Iz).
      * exact (proj1 (Forall_forall _ _) Fy z Iz).
Qed.

Lemma Array_sort_sorted (l : list A) :
  Forall inScope l -> StronglySorted mayPrecede (Array_sort compareFn l).
Proof.
  induction 1 as [|x rest Px Pr IH]; simpl; [constructor|].
  apply insert_sorted; auto.
  apply (Permutation_Forall (Permutation_sym (Array_sort_Permutation compareFn rest))).
  exact Pr.
Qed.

End InsertionSorted.

Lemma StronglySorted_map {A B : Type} (f : A -> B) (R : B -> B -> Prop) (l : list A) :
  StronglySorted (fun x y => R (f x) (f y)) l <-> StronglySorted R (map f l).
Proof.
  induction l as [|x rest IH]; simpl; split; intros S; try constructor;
    inversion S as [|? ? Sr Fr]; subst.
  - apply IH. exact Sr.
  - apply Forall_forall. intros b I. apply in_map_iff in I. destruct I as (a & <- & I).
    exact (proj1 (Forall_forall _ _) Fr a I).
  - apply IH. exact Sr.
  - apply Forall_forall. intros a I.
    apply (proj1 (Forall_forall _ _) Fr (f a)). now apply in_map.
Qed.

(** The allocation lists the ships in descending order of [cbBefore]:
    no ship stands before one with a larger [cbBefore].  On doubles
    this holds for finite values, the comparator [b.cbBefore -
    a.cbBefore] having the sign of the order on them; in exact
    arithmetic always. *)
Theorem allocation_in_descending_order :
  (forall members : list (PoolMemberInput.t float),
     Forall (fun m => Number_isFinite (PoolMemberInput.cbBefore m) = true) members ->
     StronglySorted
       (fun a b => (PoolAllocation.cbBefore b <=? PoolAllocation.cbBefore a)%js = true)
       (CreatePoolUseCase.greedyAllocate members))
  /\ (forall members : list (PoolMemberInput.t Q),
        StronglySorted
          (fun a b => (PoolAllocation.cbBefore b <=? PoolAllocation.cbBefore a)%js = true)
          (CreatePoolUseCase.greedyAllocate members)).
Proof.
  split.
  - intros members F.
    apply (StronglySorted_map identity (fun p q : string * float => (snd q <=? snd p)%js = true)).
    rewrite greedyAllocate_identity.
    apply (StronglySorted_map
             (fun m : PoolMemberInput.t float =>
                (PoolMemberInput.shipId m, PoolMemberInput.cbBefore m))
             (fun p q : string * float => (snd q <=? snd p)%js = true)).
    simpl. unfold sortedCopy.
    apply Array_sort_sorted
      with (inScope := fun m => PrimFloat.is_finite (PoolMemberInput.cbBefore m) = true);
      [| | |exact F]; simpl.
    + intros x y z Fx Fy Fz.
      rewrite (f64_leb_val _ _ Fy Fx), (f64_leb_val _ _ Fz Fy), (f64_leb_val _ _ Fz Fx).
      rewrite !Z.leb_le. lia.
    + intros x y Fx Fy. unfold int; simpl.
      rewrite (f64_sub_pos _ _ Fx Fy), (f64_leb_val _ _ Fy Fx).
      rewrite Z.ltb_ge, Z.leb_le. auto.
    + intros x y Fx Fy. unfold int; simpl.
      rewrite (f64_sub_pos _ _ Fx Fy), (f64_leb_val _ _ Fx Fy).
      rewrite Z.ltb_lt, Z.leb_le. lia.
  - intros members.
    apply (StronglySorted_map identity (fun p q : string * Q => (snd q <=? snd p)%js = true)).
    rewrite greedyAllocate_identity.
    apply (StronglySorted_map
             (fun m : PoolMemberInput.t Q =>
                (PoolMemberInput.shipId m, PoolMemberInput.cbBefore m))
             (fun p q : string * Q => (snd q <=? snd p)%js = true)).
    simpl. unfold sortedCopy.
    apply Array_sort_sorted with (inScope := fun _ => True);
      [| | |apply Forall_forall; auto]; simpl.
    + intros x y z _ _ _. rewrite !Qle_bool_iff. intros; lra.
    + intros x y _ _. unfold int; simpl. rewrite Q_lt_false_iff, Qle_bool_iff. lra.
    + intros x y _ _. unfold int; simpl. rewrite Q_lt_iff, Qle_bool_iff. lra.
Qed.

(** On doubles, for the pool [-0.2, -0.1, 0.8]. *)
Lemma allocation_in_descending_order_witness :
  StronglySorted
    (fun a b => (PoolAllocation.cbBefore b <=? PoolAllocation.cbBefore a)%js = true)
    (CreatePoolUseCase.greedyAllocate roundingPool).
Proof.
  apply (proj1 allocation_in_descending_order). repeat constructor.
Defined.

(** ** The sorted working copy: what the language fixes *)

Unset Implicit Arguments.

(** *** Doubles that are not NaN, in order *)

Section ExtendedOrder.
Local Open Scope Z_scope.

(** Rounding a value below zero never gives zero. *)
Lemma binary_round_negative (d : positive) (ez : Z) :
  -1074 <= ez -> SFnotneg (binary_round prec emax true d ez) = false.
Proof.
  intros E. unfold binary_round, shl_align.
  change (Zpos (digits2_pos d)) with (Zdigits d).
  set (E0 := fexp prec emax (Zdigits d + ez)) in *.
  assert (E0v : E0 = Z.max (Zdigits d + ez - 53) (-1074)) by (unfold E0; apply fexp_eq).
  destruct (E0 - ez) as [|p|k] eqn:N.
  - rewrite binary_round_aux_canonical by (fold E0; lia).
    destruct (ez <=? 971); reflexivity.
  - assert (D : 53 < Zdigits d) by lia.
    destruct (binary_round_aux_shift true d ez E D) as (m1 & _ & _ & ->).
    repeat match goal with |- context [if ?c then _ else _] => destruct c end;
      reflexivity.
  - assert (C : fexp prec emax (Zdigits (Pos.iter xO d k) + E0) = E0).
    { rewrite iter_xO_digits. unfold E0. f_equal. lia. }
    rewrite binary_round_aux_canonical by exact C.
    destruct (E0 <=? 971); reflexivity.
Qed.

Lemma SFsub_neg (x y : spec_float) :
  valid_binary x = true -> valid_binary y = true ->
  SFfinite x = true -> SFfinite y = true ->
  SFval x < SFval y -> SFnotneg (SFsub prec emax x y) = false.
Proof.
  intros Vx Vy Fx Fy.
  destruct x as [sx|sx| |sx mx ex], y as [sy|sy| |sy my ey]; try discriminate;
    intros L; cbn [SFval] in L; try lia.
  - pose proof (scaled_nonneg my ey). destruct sy; unfold cond_Zopp in L;
      [lia|reflexivity].
  - pose proof (scaled_nonneg mx ex). destruct sx; unfold cond_Zopp in L;
      [reflexivity|lia].
  - destruct (SFsub_finite sx sy mx my ex ey Vx Vy) as (z & e & -> & V & P & E).
    unfold SFval in V.
    destruct z as [|m|m]; [nia|nia|].
    simpl. now apply binary_round_negative.
Qed.

(** Every number lies between the two infinities. *)
Lemma SFval_beyond (x : spec_float) :
  valid_binary x = true -> - beyond < SFval x < beyond.
Proof.
  assert (B : 0 < beyond) by (unfold beyond; apply pow2_pos; lia).
  destruct x as [s|s| |s m e]; cbn [SFval valid_binary]; intros V; try lia.
  pose proof (bounded_facts _ _ V) as (R & D & _).
  pose proof (scaled_bounds m e ltac:(lia)) as [_ U].
  pose proof (scaled_nonneg m e).
  assert (2 ^ (Zdigits m + e + 1074) <= beyond).
  { unfold beyond. apply pow2_le. pose proof (Zdigits_pos m). lia. }
  destruct s; unfold cond_Zopp; lia.
Qed.

Lemma SFext_finite (x : spec_float) : SFfinite x = true -> SFext x = SFval x.
Proof. destruct x; try discriminate; reflexivity. Qed.

(** The sign of a difference of two numbers, and of two doubles that
    are not NaN. *)
Lemma SFsub_sign_finite (x y : spec_float) :
  valid_binary x = true -> valid_binary y = true ->
  SFfinite x = true -> SFfinite y = true ->
  SFnotneg (SFsub prec emax x y) = negb (SFval x <? SFval y)
  /\ SFnotpos (SFsub prec emax x y) = negb (SFval y <? SFval x).
Proof.
  intros Vx Vy Fx Fy.
  pose proof (SFleb_val x y Vx Vy Fx Fy) as Lxy.
  pose proof (SFleb_val y x Vy Vx Fy Fx) as Lyx.
  split.
  - destruct (Z.ltb_spec (SFval x) (SFval y)) as [L|L]; simpl.
    + now apply SFsub_neg.
    + apply SFsub_notneg; auto. rewrite Lyx. now apply Z.leb_le.
  - destruct (Z.ltb_spec (SFval y) (SFval x)) as [L|L]; simpl.
    + now apply SFsub_pos.
    + apply SFsub_notpos; auto. rewrite Lxy. now apply Z.leb_le.
Qed.

Lemma SFsub_sign_ext (x y : spec_float) :
  valid_binary x = true -> valid_binary y = true ->
  x <> S754_nan -> y <> S754_nan ->
  SFnotneg (SFsub prec emax x y) = negb (SFext x <? SFext y)
  /\ SFnotpos (SFsub prec emax x y) = negb (SFext y <? SFext x).
Proof.
  intros Vx Vy Nx Ny.
  destruct (SFfinite x) eqn:Fx, (SFfinite y) eqn:Fy;
    [rewrite !SFext_finite by assumption; now apply SFsub_sign_finite| | |];
    pose proof (SFval_beyond x Vx) as Bx; pose proof (SFval_beyond y Vy) as By;
    assert (B : 0 < beyond) by (unfold beyond; apply pow2_pos; lia);
    destruct x as [sx|sx| |sx mx ex]; try congruence; try discriminate;
    destruct y as [sy|sy| |sy my ey]; try congruence; try discriminate;
    unfold SFext; cbn [SFsub SFval] in *;
    try destruct sx; try destruct sy; cbn [SFnotneg SFnotpos Bool.eqb negb cond_Zopp] in *;
    split; symmetry;
    first [apply negb_true_iff, Z.ltb_ge; lia | apply negb_false_iff, Z.ltb_lt; lia].
Qed.

Lemma f64_not_nan (a : float) : PrimFloat.is_nan a = false -> Prim2SF a <> S754_nan.
Proof. rewrite is_nan_spec. destruct (Prim2SF a); congruence. Qed.

(** On doubles that are not NaN the sign of a difference is the order
    of its operands. *)
Lemma f64_sub_sign (a b : float) :
  PrimFloat.is_nan a = false -> PrimFloat.is_nan b = false ->
  PrimFloat.ltb (PrimFloat.sub b a) (f64_lit 0 1) = (Fext b <? Fext a)
  /\ PrimFloat.ltb (f64_lit 0 1) (PrimFloat.sub b a) = (Fext a <? Fext b).
Proof.
  intros Na Nb.
  destruct (SFsub_sign_ext _ _ (Prim2SF_valid b) (Prim2SF_valid a)
              (f64_not_nan b Nb) (f64_not_nan a Na)) as [N P].
  rewrite (proj1 (f64_ltb_zero _)), (proj2 (f64_ltb_zero _)), sub_spec.
  unfold SF64sub. rewrite N, P.
  unfold Fext. rewrite !negb_involutive. split; reflexivity.
Qed.

End ExtendedOrder.

(** *** Sorting with a consistent comparator *)

Section StableSort.
Context {num A : Type} `{JsNumber num}.
Variable compareFn : A -> A -> num.
Variable inScope : A -> Prop.
Variable key : A -> Z.
Local Open Scope js_scope.

(** The comparator orders the elements in scope as [key] does, larger
    keys first. *)
Hypothesis before_key : forall x y,
  inScope x -> inScope y -> ordersBefore compareFn x y = (key y <? key x)%Z.
Hypothesis after_key : forall x y,
  inScope x -> inScope y -> ordersAfter compareFn x y = (key x <? key y)%Z.

Lemma equal_key (x y : A) :
  inScope x -> inScope y -> comparesEqual compareFn x y = (key x =? key y)%Z.
Proof.
  intros Px Py. unfold comparesEqual. rewrite (before_key x y Px Py), (after_key x y Px Py).
  destruct (Z.ltb_spec (key y) (key x)), (Z.ltb_spec (key x) (key y)),
    (Z.eqb_spec (key x) (key y)); simpl; try reflexivity; lia.
Qed.

Lemma consistent_key (l : list A) : Forall inScope l -> consistent compareFn l.
Proof.
  intros F a b c Ia Ib Ic.
  pose proof (proj1 (Forall_forall _ _) F) as P.
  pose proof (P a Ia) as Pa. pose proof (P b Ib) as Pb. pose proof (P c Ic) as Pc.
  rewrite !equal_key, !before_key, !after_key by assumption.
  rewrite !Z.eqb_eq, !Z.ltb_lt. repeat split; lia.
Qed.

(** Inserting [x] does not reorder the elements that satisfy [keep],
    provided [x] never moves past one of them when it satisfies [keep]. *)
Lemma filter_insert (keep : A -> bool) (x : A) (l : list A) :
  (forall y, In y l -> keep x = true -> keep y = true -> ordersAfter compareFn x y = false) ->
  filter keep (insert compareFn x l) = filter keep (x :: l).
Proof.
  induction l as [|y rest IH]; intros T; [reflexivity|].
  simpl insert. fold (ordersAfter compareFn x y).
  destruct (ordersAfter compareFn x y) eqn:C; [|reflexivity].
  simpl. simpl in IH. rewrite IH by (intros z Iz; apply T; now right).
  destruct (keep x) eqn:Kx, (keep y) eqn:Ky; try reflexivity.
  rewrite (T y (or_introl eq_refl) eq_refl Ky) in C. discriminate.
Qed.

Lemma filter_Array_sort (keep : A -> bool) (l : list A) :
  (forall x y, In x l -> In y l -> keep x = true -> keep y = true ->
               ordersAfter compareFn x y = false) ->
  filter keep (Array_sort compareFn l) = filter keep l.
Proof.
  induction l as [|x rest IH]; intros T; [reflexivity|].
  simpl Array_sort. rewrite filter_insert.
  - simpl. rewrite IH; [reflexivity|]. intros a b Ia Ib. apply T; now right.
  - intros y Iy. apply T; [now left|right].
    exact (Permutation_in _ (Array_sort_Permutation compareFn rest) Iy).
Qed.

Lemma StronglySorted_in {B : Type} (R R' : B -> B -> Prop) (l : list B) :
  (forall x y, In x l -> In y l -> R x y -> R' x y) ->
  StronglySorted R l -> StronglySorted R' l.
Proof.
  intros I S. induction S as [|x rest Sr IH Fx]; constructor.
  - apply IH. intros a b Ia Ib. apply I; now right.
  - apply Forall_forall. intros y Iy. apply I; [now left|now right|].
    exact (proj1 (Forall_forall _ _) Fx y Iy).
Qed.

(** The insertion sort returns an arrangement that the language allows. *)
Lemma Array_sort_allowed (l : list A) :
  Forall inScope l -> sortsTo compareFn l (Array_sort compareFn l).
Proof.
  intros F. pose proof (proj1 (Forall_forall _ _) F) as P.
  split; [apply Array_sort_Permutation|]. intros _. split.
  - apply (StronglySorted_in (fun x y => (key y <= key x)%Z)).
    + intros x y Ix Iy L.
      pose proof (Permutation_in _ (Array_sort_Permutation compareFn l) Ix) as Jx.
      pose proof (Permutation_in _ (Array_sort_Permutation compareFn l) Iy) as Jy.
      rewrite (before_key y x (P y Jy) (P x Jx)). apply Z.ltb_ge. exact L.
    + apply Array_sort_sorted with (inScope := inScope); [| | |exact F].
      * intros x y z _ _ _. lia.
      * intros x y Px Py C. fold (ordersAfter compareFn x y) in C.
        rewrite (after_key x y Px Py) in C. apply Z.ltb_ge in C. exact C.
      * intros x y Px Py C. fold (ordersAfter compareFn x y) in C.
        rewrite (after_key x y Px Py) in C. apply Z.ltb_lt in C. lia.
  - intros x Ix. apply filter_Array_sort. intros a b Ia Ib Ka Kb.
    rewrite (equal_key x a (P x Ix) (P a Ia)) in Ka.
    rewrite (equal_key x b (P x Ix) (P b Ib)) in Kb.
    rewrite (after_key a b (P a Ia) (P b Ib)).
    apply Z.eqb_eq in Ka. apply Z.eqb_eq in Kb. apply Z.ltb_ge. lia.
Qed.

(** Two arrangements of the same elements that are both in sort order
    and keep the same order among equals are the same list. *)
Lemma sorted_unique (s1 s2 : list A) :
  Forall inScope s1 -> Permutation s1 s2 ->
  StronglySorted (fun x y => ordersBefore compareFn y x = false) s1 ->
  StronglySorted (fun x y => ordersBefore compareFn y x = false) s2 ->
  (forall x, In x s1 ->
     filter (comparesEqual compareFn x) s1 = filter (comparesEqual compareFn x) s2) ->
  s1 = s2.
Proof.
  revert s2. induction s1 as [|x r1 IH]; intros s2 F Pm S1 S2 T.
  - apply Permutation_nil in Pm. now subst.
  - destruct s2 as [|y r2]; [apply Permutation_sym, Permutation_nil in Pm; discriminate|].
    inversion F as [|? ? Px Fr]; subst.
    inversion S1 as [|? ? Sr1 H1]; subst. inversion S2 as [|? ? Sr2 H2]; subst.
    assert (Py : inScope y).
    { apply (proj1 (Forall_forall _ _) F). apply (Permutation_in _ (Permutation_sym Pm)).
      now left. }
    assert (Lyx : (key y <= key x)%Z).
    { pose proof (Permutation_in _ (Permutation_sym Pm) (or_introl eq_refl)) as [->|I];
        [lia|].
      pose proof (proj1 (Forall_forall _ _) H1 y I) as B. cbv beta in B.
      rewrite (before_key y x Py Px) in B. now apply Z.ltb_ge in B. }
    assert (Lxy : (key x <= key y)%Z).
    { pose proof (Permutation_in _ Pm (or_introl eq_refl)) as [->|I]; [lia|].
      pose proof (proj1 (Forall_forall _ _) H2 x I) as B. cbv beta in B.
      rewrite (before_key x y Px Py) in B. now apply Z.ltb_ge in B. }
    pose proof (T x (or_introl eq_refl)) as Tx. simpl in Tx.
    rewrite (equal_key x x Px Px), (equal_key x y Px Py), Z.eqb_refl in Tx.
    replace (key x =? key y)%Z with true in Tx by (symmetry; apply Z.eqb_eq; lia).
    injection Tx as <- _.
    f_equal. apply IH; auto.
    + exact (Permutation_cons_inv Pm).
    + intros z Iz. pose proof (T z (or_intror Iz)) as Tz. simpl in Tz.
      destruct (comparesEqual compareFn z x); [now injection Tz|exact Tz].
Qed.

(** Within what the language allows the sorted arrangement is unique. *)
Lemma sortsTo_unique (l sorted : list A) :
  Forall inScope l -> sortsTo compareFn l sorted -> sorted = Array_sort compareFn l.
Proof.
  intros F [Pm SS]. pose proof (Array_sort_allowed l F) as [Pm' SS'].
  destruct (SS (consistent_key l F)) as [S1 T1].
  destruct (SS' (consistent_key l F)) as [S2 T2].
  apply sorted_unique; auto.
  - exact (Permutation_Forall (Permutation_sym Pm) F).
  - rewrite Pm. now symmetry.
  - intros x Ix. pose proof (Permutation_in _ Pm Ix) as Jx.
    rewrite (T1 x Jx), (T2 x Jx). reflexivity.
Qed.

End StableSort.

Section SortedCopy.
Local Open Scope js_scope.

Lemma byCbBefore_before (x y : PoolMemberInput.t float) :
  PrimFloat.is_nan (PoolMemberInput.cbBefore x) = false ->
  PrimFloat.is_nan (PoolMemberInput.cbBefore y) = false ->
  ordersBefore byCbBefore x y
  = (Fext (PoolMemberInput.cbBefore y) <? Fext (PoolMemberInput.cbBefore x))%Z.
Proof. intros Nx Ny. exact (proj1 (f64_sub_sign _ _ Nx Ny)). Qed.

Lemma byCbBefore_after (x y : PoolMemberInput.t float) :
  PrimFloat.is_nan (PoolMemberInput.cbBefore x) = false ->
  PrimFloat.is_nan (PoolMemberInput.cbBefore y) = false ->
  ordersAfter byCbBefore x y
  = (Fext (PoolMemberInput.cbBefore x) <? Fext (PoolMemberInput.cbBefore y))%Z.
Proof. intros Nx Ny. exact (proj2 (f64_sub_sign _ _ Nx Ny)). Qed.


End SortedCopy.


